(** * academicevalapp: the word diff and the readability analyzer

    A shallow embedding of the two deterministic functions of the
    server, [computeWordDiff] (src/server/routes.ts) and
    [analyzeReadability] (src/server/readability.ts), with the properties
    the specification states about them, and of the code that calls them:
    the scores of an evaluation, the choice of the writing examples, the
    rewrite, restructure and publication map routes, and the rewrite
    panel of the client, with further properties of all of these.

    JavaScript strings are sequences of UTF-16 code units; a string is a
    list of code units here, each an [N].  Arrays are lists.  The longest
    common subsequence table [dp] is a list of rows that the two loops
    update in place. *)

From Stdlib Require Import List NArith ZArith QArith Qround Qminmax Bool String Ascii Lia.
From stdpp Require Import list.
Import ListNotations.
Open Scope nat_scope.

(** ** Strings *)

Abbreviation char := N (only parsing).
Abbreviation jsstring := (list N) (only parsing).

(** A string literal of the source, as code units. *)
Definition str (s : string) : jsstring :=
  List.map N_of_ascii (list_ascii_of_string s).

Definition char_eqb (a b : char) : bool := N.eqb a b.

(** [a === b] on strings. *)
Fixpoint jsstring_eqb (a b : jsstring) : bool :=
  match a, b with
  | [], [] => true
  | x :: a', y :: b' => char_eqb x y && jsstring_eqb a' b'
  | _, _ => false
  end.

(** The class [\s] of a regular expression, which is also what
    [String.prototype.trim] removes: WhiteSpace and LineTerminator. *)
Definition is_space (c : char) : bool :=
  ((9 <=? c) && (c <=? 13) || (c =? 32) || (c =? 160) || (c =? 5760)
   || (8192 <=? c) && (c <=? 8202) || (c =? 8232) || (c =? 8233)
   || (c =? 8239) || (c =? 8287) || (c =? 12288) || (c =? 65279))%N.

(** [/[a-zA-Z]/] on one code unit. *)
Definition is_letter (c : char) : bool :=
  ((65 <=? c) && (c <=? 90) || (97 <=? c) && (c <=? 122))%N.

(** [/[a-zA-Z]/.test(s)] *)
Definition has_letter (s : jsstring) : bool := existsb is_letter s.

(** ** Splitting on whitespace

    [s.split(/(\s+)/)] and [s.split(/\s+/)].  The split of ECMAScript
    walks the string from the left, looks for the next match of the
    separator, and pushes the text before it (possibly empty), then, when
    the separator has a capture group, the captured text; the text after
    the last match (possibly empty) is pushed at the end.  [\s+] is
    greedy, so a match is a maximal run of whitespace.  [keep] says
    whether the separator has the capture group.  [word] and [run] hold
    the current piece in reverse. *)
Fixpoint split_word (keep : bool) (word : jsstring) (s : jsstring)
  : list jsstring :=
  match s with
  | [] => [rev word]
  | c :: s' =>
      if is_space c then rev word :: split_run keep [c] s'
      else split_word keep (c :: word) s'
  end
with split_run (keep : bool) (run : jsstring) (s : jsstring)
  : list jsstring :=
  match s with
  | [] => if keep then [rev run; []] else [[]]
  | c :: s' =>
      if is_space c then split_run keep (c :: run) s'
      else if keep then rev run :: split_word keep [c] s'
           else split_word keep [c] s'
  end.

(** [s.split(/(\s+)/)] *)
Definition split_ws_keep (s : jsstring) : list jsstring := split_word true [] s.
(** [s.split(/\s+/)] *)
Definition split_ws (s : jsstring) : list jsstring := split_word false [] s.

(** ** The word diff (src/server/routes.ts, computeWordDiff) *)

Module WordDiff.

Inductive SegmentType := equal | added | removed.

Record DiffSegment := { type : SegmentType; text : jsstring }.

Definition SegmentType_eqb (a b : SegmentType) : bool :=
  match a, b with
  | equal, equal | added, added | removed, removed => true
  | _, _ => false
  end.

(** [words[k]]; every read of the source is at an index below the
    length, see [backtrack]. *)
Definition word_at (words : list jsstring) (k : nat) : jsstring :=
  nth k words [].

(** [dp[i][j]] *)
Definition dp_get (dp : list (list nat)) (i j : nat) : nat :=
  match dp !! i with
  | Some row => match row !! j with Some v => v | None => 0 end
  | None => 0
  end.

(** [dp[i][j] = v] *)
Definition dp_set (dp : list (list nat)) (i j v : nat) : list (list nat) :=
  match dp !! i with
  | Some row => <[i := <[j := v]> row]> dp
  | None => dp
  end.

(** [Array(m + 1).fill(null).map(() => Array(n + 1).fill(0))] *)
Definition dp_init (m n : nat) : list (list nat) :=
  replicate (m + 1) (replicate (n + 1) 0).

(** The body of the inner loop. *)
Definition dp_cell (originalWords suggestedWords : list jsstring)
    (dp : list (list nat)) (i j : nat) : list (list nat) :=
  if jsstring_eqb (word_at originalWords (i - 1)) (word_at suggestedWords (j - 1))
  then dp_set dp i j (dp_get dp (i - 1) (j - 1) + 1)
  else dp_set dp i j (Nat.max (dp_get dp (i - 1) j) (dp_get dp i (j - 1))).

(** [for (let i = 1; i <= m; i++) for (let j = 1; j <= n; j++) ...] *)
Definition dp_fill (originalWords suggestedWords : list jsstring)
  : list (list nat) :=
  let m := length originalWords in
  let n := length suggestedWords in
  fold_left
    (fun dp i =>
       fold_left (fun dp j => dp_cell originalWords suggestedWords dp i j)
         (seq 1 n) dp)
    (seq 1 m) (dp_init m n).

(** The backtracking loop [while (i > 0 || j > 0)].  [ops.unshift(x)] is
    [x :: ops].  The three branches of the source are, in its order:
    the words at [i-1] and [j-1] are equal ([i > 0] and [j > 0]); else
    [j > 0] and ([i = 0] or [dp[i][j-1] >= dp[i-1][j]]); else [removed].
    In the last branch [i > 0], because the loop runs with [i > 0] or
    [j > 0] and the second branch takes [i = 0].  So every read is at
    [i - 1 < m] or [j - 1 < n]. *)
Fixpoint backtrack (originalWords suggestedWords : list jsstring)
    (dp : list (list nat)) (i : nat) : nat -> list DiffSegment -> list DiffSegment :=
  fix inner (j : nat) (ops : list DiffSegment) : list DiffSegment :=
    match i, j with
    | 0, 0 => ops
    | 0, S j' =>
        inner j' ({| type := added; text := word_at suggestedWords j' |} :: ops)
    | S i', 0 =>
        backtrack originalWords suggestedWords dp i' 0
          ({| type := removed; text := word_at originalWords i' |} :: ops)
    | S i', S j' =>
        if jsstring_eqb (word_at originalWords i') (word_at suggestedWords j')
        then backtrack originalWords suggestedWords dp i' j'
               ({| type := equal; text := word_at originalWords i' |} :: ops)
        else if dp_get dp i' j <=? dp_get dp i j'
        then inner j' ({| type := added; text := word_at suggestedWords j' |} :: ops)
        else backtrack originalWords suggestedWords dp i' j
               ({| type := removed; text := word_at originalWords i' |} :: ops)
    end.

(** The body of [for (const op of ops)]: extend the last segment when it
    has the type of [op], push a new segment otherwise. *)
Definition merge_op (segments : list DiffSegment) (op : DiffSegment)
  : list DiffSegment :=
  match last segments with
  | Some l =>
      if SegmentType_eqb (type l) (type op)
      then removelast segments ++ [{| type := type l; text := text l ++ text op |}]
      else segments ++ [{| type := type op; text := text op |}]
  | None => segments ++ [{| type := type op; text := text op |}]
  end.

(** The operations before they are merged. *)
Definition diff_ops (original suggested : jsstring) : list DiffSegment :=
  let originalWords := split_ws_keep original in
  let suggestedWords := split_ws_keep suggested in
  let m := length originalWords in
  let n := length suggestedWords in
  let dp := dp_fill originalWords suggestedWords in
  backtrack originalWords suggestedWords dp m n [].

Definition computeWordDiff (original suggested : jsstring) : list DiffSegment :=
  fold_left merge_op (diff_ops original suggested) [].

End WordDiff.

(** ** Regular expressions

    The regular expressions of readability.ts, as syntax trees, and the
    backtracking matcher of ECMAScript as a list of successes: [run r st]
    lists the states in which a match of [r] that starts in [st] can end,
    in the order in which the backtracking matcher tries them.  The match
    that [exec] reports is the first one.  None of the expressions has the
    [u] flag or a back reference. *)

Definition is_digit (c : char) : bool := ((48 <=? c) && (c <=? 57))%N.
Definition is_upper (c : char) : bool := ((65 <=? c) && (c <=? 90))%N.
Definition is_lower (c : char) : bool := ((97 <=? c) && (c <=? 122))%N.
(** [\w] *)
Definition is_word (c : char) : bool :=
  is_letter c || is_digit c || (c =? 95)%N.

(** Canonicalize of the [i] flag (without [u]): a code unit is replaced
    by its upper case.  The patterns here hold ASCII units only, and a
    unit above 127 is never canonicalized to an ASCII one, so it can be
    left as it is. *)
Definition canon (c : char) : char := if is_lower c then (c - 32)%N else c.

Module Regex.

Inductive regex :=
| Eps                         (* the empty pattern *)
| Lit (c : char)              (* one literal unit *)
| Cls (p : char -> bool)      (* a class: \s, \w, \d, [...] *)
| Cat (r1 r2 : regex)
| Alt (r1 r2 : regex)
| Star (r : regex)            (* r*, greedy *)
| Grp (r : regex)             (* ( r ), a capture group *)
| Bnd                         (* \b *)
| Eos                         (* $, without the m flag *)
| Ahead (r : regex).          (* (?= r ) *)

(** [r+] *)
Definition Plus (r : regex) : regex := Cat r (Star r).

(** A literal text. *)
Fixpoint lits (s : jsstring) : regex :=
  match s with
  | [] => Eps
  | [c] => Lit c
  | c :: s' => Cat (Lit c) (lits s')
  end.

(** [r1|r2|...] *)
Fixpoint alts (rs : list regex) : regex :=
  match rs with
  | [] => Cls (fun _ => false)
  | [r] => r
  | r :: rs' => Alt r (alts rs')
  end.

(** A state of the matcher: the unit before the current position, the
    text from the current position on, the number of units consumed since
    the start of the match, and the captures closed so far, in order. *)
Record mstate := {
  prev : option char;
  rest : jsstring;
  pos : nat;
  caps : list jsstring
}.

Definition is_word_opt (o : option char) : bool :=
  match o with Some c => is_word c | None => false end.

Definition lit_eqb (icase : bool) (c d : char) : bool :=
  if icase then (canon c =? canon d)%N else (c =? d)%N.

(** Consume one unit when it satisfies [p]. *)
Definition step (p : char -> bool) (st : mstate) : list mstate :=
  match rest st with
  | d :: s' =>
      if p d
      then [{| prev := Some d; rest := s'; pos := S (pos st); caps := caps st |}]
      else []
  | [] => []
  end.

Definition close_group (st st' : mstate) : mstate :=
  {| prev := prev st'; rest := rest st'; pos := pos st';
     caps := caps st' ++ [firstn (pos st' - pos st) (rest st)] |}.

(** The greedy loop of [r*]: first the matches that go round once more,
    then the one that stops here.  A round that consumes nothing is not
    taken, so [fuel], the length of the text that is left when the loop is
    entered, bounds the rounds. *)
Fixpoint star_run (body : mstate -> list mstate) (fuel : nat) (st : mstate)
  : list mstate :=
  match fuel with
  | 0 => [st]
  | S fuel' =>
      flat_map (fun st' => if pos st <? pos st' then star_run body fuel' st' else [])
        (body st) ++ [st]
  end.

Fixpoint run (icase : bool) (r : regex) (st : mstate) : list mstate :=
  match r with
  | Eps => [st]
  | Lit c => step (lit_eqb icase c) st
  | Cls p => step p st
  | Cat r1 r2 => flat_map (run icase r2) (run icase r1 st)
  | Alt r1 r2 => run icase r1 st ++ run icase r2 st
  | Star r' => star_run (run icase r') (length (rest st)) st
  | Grp r' => List.map (close_group st) (run icase r' st)
  | Bnd =>
      if xorb (is_word_opt (prev st)) (is_word_opt (head (rest st)))
      then [st] else []
  | Eos => match rest st with [] => [st] | _ :: _ => [] end
  | Ahead r' => match run icase r' st with [] => [] | _ :: _ => [st] end
  end.

(** The match at one position, if any: its length and its captures. *)
Definition exec (icase : bool) (r : regex) (before : option char) (s : jsstring)
  : option (nat * list jsstring) :=
  match run icase r {| prev := before; rest := s; pos := 0; caps := [] |} with
  | st :: _ => Some (pos st, caps st)
  | [] => None
  end.

(** A replacement text: [$k] and plain text. *)
Inductive piece := Cap (k : nat) | Txt (s : jsstring).

Definition expand (template : list piece) (captures : list jsstring) : jsstring :=
  flat_map (fun p => match p with
                     | Cap k => nth (k - 1) captures []
                     | Txt s => s
                     end) template.

(** [s.replace(r, template)] for [r] with the [g] flag: matches are looked
    for from the left, each one from the end of the one before; [skip]
    counts the units of the current match that are still to be passed. *)
Fixpoint replace_from (icase : bool) (r : regex) (template : list piece)
    (skip : nat) (before : option char) (s : jsstring) : jsstring :=
  match s with
  | [] =>
      match skip, exec icase r before [] with
      | 0, Some (_, captures) => expand template captures
      | _, _ => []
      end
  | c :: s' =>
      match skip with
      | S k => replace_from icase r template k (Some c) s'
      | 0 =>
          match exec icase r before s with
          | Some (0, captures) =>
              expand template captures
                ++ c :: replace_from icase r template 0 (Some c) s'
          | Some (S k, captures) =>
              expand template captures
                ++ replace_from icase r template k (Some c) s'
          | None => c :: replace_from icase r template 0 (Some c) s'
          end
      end
  end.

Definition replace (icase : bool) (r : regex) (template : list piece)
    (s : jsstring) : jsstring :=
  replace_from icase r template 0 None s.

(** [r.test(s)] for [r] without the [g] flag: is there a match at some
    position. *)
Fixpoint test_from (icase : bool) (r : regex) (before : option char)
    (s : jsstring) : bool :=
  match exec icase r before s with
  | Some _ => true
  | None =>
      match s with
      | [] => false
      | c :: s' => test_from icase r (Some c) s'
      end
  end.

Definition test (icase : bool) (r : regex) (s : jsstring) : bool :=
  test_from icase r None s.

End Regex.

(** ** The readability analyzer (src/server/readability.ts)

    The numbers of the report are read as exact rationals: the score is
    cut to its range and rounded to decimals, and what is stated about it
    below does not depend on how a double rounds.  Counts are natural
    numbers. *)

Module Readability.
Import Regex.

Definition LONG_SENTENCE_THRESHOLD : nat := 25.

(** [r1 r2 ...], one after the other. *)
Fixpoint cats (rs : list regex) : regex :=
  match rs with
  | [] => Eps
  | [r] => r
  | r :: rs' => Cat r (cats rs')
  end.

(** The source text of an abbreviation, read as a pattern: [\c] is the
    literal unit [c], any other unit of these texts stands for itself. *)
Fixpoint pattern_of_source (src : jsstring) : regex :=
  match src with
  | [] => Eps
  | 92%N :: c :: src' =>
      match src' with
      | [] => Lit c
      | _ :: _ => Cat (Lit c) (pattern_of_source src')
      end
  | c :: src' =>
      match src' with
      | [] => Lit c
      | _ :: _ => Cat (Lit c) (pattern_of_source src')
      end
  end.

Definition abbreviations : list jsstring :=
  List.map str
    [ "e\.g"; "i\.e"; "et al"; "etc"; "vs"; "cf"; "viz"; "ibid";
      "Dr"; "Prof"; "Mr"; "Mrs"; "Ms"; "Jr"; "Sr"; "St";
      "Fig"; "Figs"; "Tab"; "Eq"; "Eqs"; "Vol"; "No"; "pp"; "ed"; "eds";
      "Jan"; "Feb"; "Mar"; "Apr"; "Jun"; "Jul"; "Aug"; "Sep"; "Sept"; "Oct";
      "Nov"; "Dec";
      "Inc"; "Corp"; "Ltd"; "Co"; "Dept"; "Univ"; "Rev"; "Int"; "J";
      "approx"; "ca"; "c\.f"; "n\.b"; "N\.B"; "P\.S" ]%string.

(** The placeholders and the mark of a split. *)
Definition ABBR : jsstring := Eval cbv in str "{{ABBR}}".
Definition DEC : jsstring := Eval cbv in str "{{DEC}}".
Definition DOM : jsstring := Eval cbv in str "{{DOM}}".
Definition SPLIT : jsstring := Eval cbv in str "|SPLIT|".

Definition dot : char := 46%N.

(** [new RegExp(`\\b(${abbr})\\.(?=\\s|$)`, 'gi')] *)
Definition abbr_regex (abbr : jsstring) : regex :=
  cats [Bnd; Grp (pattern_of_source abbr); Lit dot; Ahead (Alt (Cls is_space) Eos)].

(** [/(\d)\.(\d)/g] *)
Definition dec_regex : regex :=
  cats [Grp (Cls is_digit); Lit dot; Grp (Cls is_digit)].

(** [com|org|edu|gov|net|io] *)
Definition domain_endings : regex :=
  alts (List.map (fun s => lits (str s))
          ["com"; "org"; "edu"; "gov"; "net"; "io"]%string).

(** [/(\w)\.(com|org|edu|gov|net|io)\b/gi] *)
Definition dom_regex : regex :=
  cats [Grp (Cls is_word); Lit dot; Grp domain_endings; Bnd].

(** [.], [!], [?] *)
Definition is_terminal (c : char) : bool := ((c =? 46) || (c =? 33) || (c =? 63))%N.
(** The closing units of the class of the second group: the apostrophe,
    the double quote, the closing parenthesis and the closing bracket. *)
Definition is_closer (c : char) : bool :=
  ((c =? 39) || (c =? 34) || (c =? 41) || (c =? 93))%N.

(** The expression of the split: a group with one of [.!?], a group with
    any number of closing units, [\s+], and the lookahead [(?=[A-Z0-9]|$)];
    flag [g]. *)
Definition split_regex : regex :=
  cats [Grp (Cls is_terminal); Grp (Star (Cls is_closer)); Plus (Cls is_space);
        Ahead (Alt (Cls (fun c => is_upper c || is_digit c)) Eos)].

(** [/\{\{ABBR\}\}/g] and the two others. *)
Definition placeholder_regex (placeholder : jsstring) : regex := lits placeholder.

(** [s.startsWith(p)] *)
Fixpoint is_prefix (p s : jsstring) : bool :=
  match p, s with
  | [], _ => true
  | x :: p', y :: s' => (x =? y)%N && is_prefix p' s'
  | _ :: _, [] => false
  end.

(** [s.split(sep)] for a text [sep] that is not empty: the pieces between
    the occurrences of [sep], found from the left.  [piece] is the current
    piece in reverse, [skip] the units of the current occurrence that are
    still to be passed. *)
Fixpoint split_lit_from (sep : jsstring) (skip : nat) (piece : jsstring)
    (s : jsstring) : list jsstring :=
  match s with
  | [] => [rev piece]
  | c :: s' =>
      match skip with
      | S k => split_lit_from sep k piece s'
      | 0 =>
          if is_prefix sep s
          then rev piece :: split_lit_from sep (length sep - 1) [] s'
          else split_lit_from sep 0 (c :: piece) s'
      end
  end.

Definition split_lit (sep s : jsstring) : list jsstring :=
  split_lit_from sep 0 [] s.

(** [s] without the whitespace at its start. *)
Fixpoint trimStart (s : jsstring) : jsstring :=
  match s with
  | c :: s' => if is_space c then trimStart s' else s
  | [] => []
  end.

(** [s] without the whitespace at its end: a unit is dropped when it is
    whitespace and nothing is kept after it. *)
Definition trimEnd (s : jsstring) : jsstring :=
  fold_right
    (fun c r => match r with
                | [] => if is_space c then [] else [c]
                | _ :: _ => c :: r
                end) [] s.

(** [s.trim()] *)
Definition trim (s : jsstring) : jsstring := trimEnd (trimStart s).

(** The second [map] of [splitIntoSentences]. *)
Definition restore (s : jsstring) : jsstring :=
  replace false (placeholder_regex DOM) [Txt [dot]]
    (replace false (placeholder_regex DEC) [Txt [dot]]
       (replace false (placeholder_regex ABBR) [Txt [dot]] s)).

(** [processed] after the [forEach] over the abbreviations. *)
Definition protect_abbreviations (text : jsstring) : jsstring :=
  fold_left
    (fun processed abbr =>
       replace true (abbr_regex abbr) [Cap 1; Txt ABBR] processed)
    abbreviations text.

(** [processed] before the split. *)
Definition protect (text : jsstring) : jsstring :=
  let processed := protect_abbreviations text in
  let processed := replace false dec_regex [Cap 1; Txt DEC; Cap 2] processed in
  replace true dom_regex [Cap 1; Txt DOM; Cap 2] processed.

(** The split at the marks, then [trim], [restore] and the filter. *)
Definition splitIntoSentences (text : jsstring) : list jsstring :=
  List.filter (fun s => (0 <? length s) && has_letter s)
    (List.map restore
       (List.map trim
          (split_lit SPLIT
             (replace false split_regex [Cap 1; Cap 2; Txt SPLIT] (protect text))))).

Definition countWords (sentence : jsstring) : nat :=
  length (List.filter (fun w => 0 <? length w) (split_ws sentence)).

(** [\w+ed\b] *)
Definition participle : regex := cats [Plus (Cls is_word); lits (str "ed"); Bnd].

(** [w1|w2|...] for literal words. *)
Definition one_of (ws : list string) : regex :=
  alts (List.map (fun w => lits (str w)) ws).

(** [\s+] *)
Definition spaces : regex := Plus (Cls is_space).

(** The nine patterns, all with the [i] flag. *)
Definition passivePatterns : list regex :=
  [ cats [Bnd;
          Grp (one_of ["am"; "is"; "are"; "was"; "were"; "be"; "been"; "being"]%string);
          spaces;
          Grp (Alt (cats [Plus (Cls is_word); lits (str "ed")])
                 (one_of ["done"; "made"; "given"; "taken"; "seen"; "known";
                         "shown"; "found"; "used"; "called"]%string));
          Bnd];
    cats [Bnd; Grp (one_of ["has"; "have"; "had"]%string); spaces;
          lits (str "been"); spaces; participle] ]
  ++ List.map
       (fun modal => cats [Bnd; lits (str modal); spaces; lits (str "be"); spaces;
                           participle])
       ["will"; "can"; "may"; "must"; "should"; "would"; "could"]%string.

Definition isPassiveVoice (sentence : jsstring) : bool :=
  existsb (fun pattern => test true pattern sentence) passivePatterns.

Definition getFleschGrade (score : Q) : string :=
  if Qle_bool 90 score then "Very Easy (5th grade)"
  else if Qle_bool 80 score then "Easy (6th grade)"
  else if Qle_bool 70 score then "Fairly Easy (7th grade)"
  else if Qle_bool 60 score then "Standard (8th-9th grade)"
  else if Qle_bool 50 score then "Fairly Difficult (10th-12th grade)"
  else if Qle_bool 30 score then "Difficult (College)"
  else if Qle_bool 10 score then "Very Difficult (Graduate)"
  else "Extremely Difficult (Professional)".

Record LongSentence := {
  text : jsstring;
  wordCount : nat;
  position : nat
}.

Record ReadabilityMetrics := {
  fleschScore : Q;
  fleschGrade : string;
  avgSentenceLength : Q;
  avgWordLength : Q;
  passiveVoicePercent : Z;
  longSentences : list LongSentence;
  totalSentences : nat;
  totalWords : nat
}.

(** What [console.warn] is called with, before it is formatted. *)
Record Warning := {
  warn_raw : Q;
  warn_asl : Q;
  warn_asw : Q;
  warn_sentences : nat;
  warn_words : nat
}.

(** [Math.round(x)]: the nearest integer, halves upwards. *)
Definition Math_round (x : Q) : Z := Qfloor (x + (1 # 2))%Q.

Definition of_nat (n : nat) : Q := inject_Z (Z.of_nat n).

(** The loop that shortens the text of a long sentence; [break] ends it. *)
Fixpoint truncate_loop (truncated : jsstring) (words : list jsstring) : jsstring :=
  match words with
  | [] => truncated
  | word :: words' =>
      if 147 <? length truncated + length word + 1 then truncated
      else truncate_loop
             (truncated ++ (match truncated with [] => [] | _ :: _ => str " " end)
                ++ word) words'
  end.

Definition displayText (sentence : jsstring) : jsstring :=
  if 150 <? length sentence
  then truncate_loop [] (split_ws sentence) ++ str "..."
  else sentence.

(** [sentences.forEach((sentence, index) => ...)] from [index] on. *)
Fixpoint collect_long (index : nat) (sentences : list jsstring) : list LongSentence :=
  match sentences with
  | [] => []
  | sentence :: sentences' =>
      let wordCount := countWords sentence in
      if LONG_SENTENCE_THRESHOLD <? wordCount
      then {| text := displayText sentence; wordCount := wordCount;
              position := index + 1 |} :: collect_long (S index) sentences'
      else collect_long (S index) sentences'
  end.

Definition unable : ReadabilityMetrics :=
  {| fleschScore := 0%Q; fleschGrade := "Unable to analyze";
     avgSentenceLength := 0%Q; avgWordLength := 0%Q; passiveVoicePercent := 0%Z;
     longSentences := []; totalSentences := 0; totalWords := 0 |}.

(** [text.split(/\s+/).filter(w => /[a-zA-Z]/.test(w))] *)
Definition alphabetic_words (text : jsstring) : list jsstring :=
  List.filter has_letter (split_ws text).

Section Analyze.

(** Two functions of the environment: [String.prototype.toLowerCase], which
    follows the Unicode tables, and [syllable] of the npm package of that
    name, which answers [None] when it throws. *)
Variable toLowerCase : jsstring -> jsstring.
Variable syllable : jsstring -> option Z.

Definition is_vowel (c : char) : bool := existsb (N.eqb c) (str "aeiouy").

(** The loop of the fallback: the number of vowel groups. *)
Fixpoint vowel_groups (count : Z) (prevVowel : bool) (cleaned : jsstring) : Z :=
  match cleaned with
  | [] => count
  | c :: cleaned' =>
      let isVowel := is_vowel c in
      vowel_groups (if isVowel && negb prevVowel then count + 1 else count)%Z
        isVowel cleaned'
  end.

Definition countSyllables (word : jsstring) : Z :=
  let cleaned := List.filter is_lower (toLowerCase word) in
  if length cleaned =? 0 then 0%Z
  else match syllable cleaned with
       | Some count => Z.max 1 count
       | None => Z.max 1 (vowel_groups 0 false cleaned)
       end.

Definition rawFlesch (totalWords totalSentences : nat) (totalSyllables : Z) : Q :=
  ((206835 # 1000) - (1015 # 1000) * (of_nat totalWords / of_nat totalSentences)
   - (846 # 10) * (inject_Z totalSyllables / of_nat totalWords))%Q.

(** The analysis with what it logs. *)
Definition analyze (text : jsstring) : ReadabilityMetrics * list Warning :=
  let sentences := splitIntoSentences text in
  let totalSentences := length sentences in
  if totalSentences =? 0 then (unable, [])
  else
    let words := alphabetic_words text in
    let totalWords := length words in
    if totalWords =? 0 then (unable, [])
    else
      let totalSyllables :=
        fold_left (fun sum word => (sum + countSyllables word)%Z) words 0%Z in
      let avgSentenceLength := (of_nat totalWords / of_nat totalSentences)%Q in
      let avgSyllablesPerWord := (inject_Z totalSyllables / of_nat totalWords)%Q in
      let rawFleschScore := rawFlesch totalWords totalSentences totalSyllables in
      let log :=
        if Qlt_le_dec rawFleschScore 0%Q
        then [{| warn_raw := rawFleschScore; warn_asl := avgSentenceLength;
                 warn_asw := avgSyllablesPerWord;
                 warn_sentences := totalSentences; warn_words := totalWords |}]
        else [] in
      let fleschScore := Qmax 0%Q (Qmin 100%Q rawFleschScore) in
      let passiveSentences := length (List.filter isPassiveVoice sentences) in
      let passiveVoicePercent :=
        Math_round (of_nat passiveSentences / of_nat totalSentences * 100)%Q in
      let longSentences := collect_long 0 sentences in
      ({| fleschScore := (inject_Z (Math_round (fleschScore * 10)) / 10)%Q;
          fleschGrade := getFleschGrade fleschScore;
          avgSentenceLength :=
            (inject_Z (Math_round (avgSentenceLength * 10)) / 10)%Q;
          avgWordLength :=
            (inject_Z (Math_round (avgSyllablesPerWord * 100)) / 100)%Q;
          passiveVoicePercent := passiveVoicePercent;
          longSentences := firstn 5 longSentences;
          totalSentences := totalSentences;
          totalWords := totalWords |}, log).

Definition analyzeReadability (text : jsstring) : ReadabilityMetrics :=
  fst (analyze text).

End Analyze.

End Readability.

(** * What the properties of the word diff are stated with *)

Module WordDiffSpec.
Import WordDiff.

(** The text of the segments that stand for the original: those of type
    [equal] or [removed]. *)
Definition original_of (segments : list DiffSegment) : jsstring :=
  concat (List.map text
            (List.filter (fun s => negb (SegmentType_eqb (type s) added)) segments)).

(** The text of the segments that stand for the modified text: those of
    type [equal] or [added]. *)
Definition suggested_of (segments : list DiffSegment) : jsstring :=
  concat (List.map text
            (List.filter (fun s => negb (SegmentType_eqb (type s) removed)) segments)).

(** No two neighbours of the list have the same type. *)
Fixpoint alternating (segments : list DiffSegment) : Prop :=
  match segments with
  | x :: (y :: _) as segments' => type x <> type y /\ alternating segments'
  | _ => True
  end.

(** The three operations on a word. *)
Definition equal_op (w : jsstring) : DiffSegment := {| type := equal; text := w |}.
Definition added_op (w : jsstring) : DiffSegment := {| type := added; text := w |}.
Definition removed_op (w : jsstring) : DiffSegment := {| type := removed; text := w |}.

(** The length of a longest common subsequence of the first [i] words of
    [a] and the first [j] words of [b], by the usual recurrence. *)
Fixpoint lcs (a b : list jsstring) (i : nat) : nat -> nat :=
  fix inner (j : nat) : nat :=
    match i, j with
    | S i', S j' =>
        if jsstring_eqb (word_at a i') (word_at b j')
        then lcs a b i' j' + 1
        else Nat.max (lcs a b i' j) (inner j')
    | _, _ => 0
    end.

Arguments lcs : simpl never.

(** The table when the loops have passed the cells up to [(i, j)], row
    by row: these cells hold the recurrence, the others are still 0. *)
Definition filled (a b : list jsstring) (i j : nat) (dp : list (list nat)) : Prop :=
  length dp = length a + 1
  /\ Forall (fun row => length row = length b + 1) dp
  /\ forall i' j', i' <= length a -> j' <= length b ->
       dp_get dp i' j'
       = if (i' <? i) || ((i' =? i) && (j' <=? j)) then lcs a b i' j' else 0.

(** A word: no unit of it is whitespace. *)
Definition is_word_token (w : jsstring) : Prop :=
  forallb (fun c => negb (is_space c)) w = true.

(** A run: whitespace only, and not empty. *)
Definition is_run_token (r : jsstring) : Prop := r <> [] /\ forallb is_space r = true.

(** What follows a word in the list of the words of a text: nothing, or a
    run, a word, and so on; a word that is not the last is not empty. *)
Fixpoint runs_words (tokens : list jsstring) : Prop :=
  match tokens with
  | [] => True
  | r :: w :: tokens' =>
      is_run_token r /\ is_word_token w /\ (tokens' <> [] -> w <> [])
      /\ runs_words tokens'
  | [_] => False
  end.

(** The list of the words of a text: words and runs of whitespace take
    turns, the first and the last are words, and only these two can be
    empty. *)
Definition words_runs (tokens : list jsstring) : Prop :=
  match tokens with
  | w :: tokens' => is_word_token w /\ runs_words tokens'
  | [] => False
  end.

(** What [merge_op] builds, from the front: [cur] is the segment that is
    being extended. *)
Fixpoint coalesce (cur : DiffSegment) (ops : list DiffSegment) : list DiffSegment :=
  match ops with
  | [] => [cur]
  | op :: ops' =>
      if SegmentType_eqb (type cur) (type op)
      then coalesce {| type := type cur; text := text cur ++ text op |} ops'
      else cur :: coalesce {| type := type op; text := text op |} ops'
  end.

(** [c] is a subsequence of both lists and no common subsequence is
    longer than [n] = [length c]. *)
Definition longest_common (u v : list jsstring) (n : nat) : Prop :=
  (exists c, c `sublist_of` u /\ c `sublist_of` v /\ length c = n)
  /\ (forall c, c `sublist_of` u -> c `sublist_of` v -> length c <= n).

End WordDiffSpec.

(** * What the properties of the analyzer are stated and proved with *)

Module ReadabilitySpec.
Import Regex Readability.

(** Every unit that a match of [r] consumes satisfies [P]. *)
Fixpoint within (icase : bool) (P : char -> bool) (r : regex) : Prop :=
  match r with
  | Eps | Bnd | Eos | Ahead _ => True
  | Lit c => forall d, lit_eqb icase c d = true -> P d = true
  | Cls p => forall d, p d = true -> P d = true
  | Cat r1 r2 | Alt r1 r2 => within icase P r1 /\ within icase P r2
  | Star r' | Grp r' => within icase P r'
  end.

(** A match of [r] consumes at least one unit. *)
Fixpoint consuming (r : regex) : bool :=
  match r with
  | Lit _ | Cls _ => true
  | Cat r1 r2 => consuming r1 || consuming r2
  | Alt r1 r2 => consuming r1 && consuming r2
  | Grp r' => consuming r'
  | _ => false
  end.

(** [st'] is [st] after some units that satisfy [P] were consumed and
    some captures of such units were closed. *)
Definition extends (P : char -> bool) (st st' : mstate) : Prop :=
  exists w newcaps,
    rest st = w ++ rest st' /\ pos st' = pos st + length w
    /\ forallb P w = true
    /\ caps st' = caps st ++ newcaps
    /\ Forall (fun cp => forallb P cp = true) newcaps.

(** A text after the placeholders were put in, in pieces: a unit of the
    text, which is not a letter, or one of the two marks that a text
    without letters can get. *)
Inductive token := Ch (c : char) | Dec | Spl.

Definition token_text (t : token) : jsstring :=
  match t with
  | Ch c => [c]
  | Dec => DEC
  | Spl => SPLIT
  end.

Definition flatten (tokens : list token) : jsstring := flat_map token_text tokens.

Definition token_ok (t : token) : bool :=
  match t with
  | Ch c => negb (is_letter c)
  | _ => true
  end.

(** A unit that is in no mark. *)
Definition plain (c : char) : bool :=
  negb (is_letter c) && negb (c =? 123)%N && negb (c =? 124)%N && negb (c =? 125)%N.

(** The first [k] tokens are units. *)
Fixpoint units_first (k : nat) (tokens : list token) : Prop :=
  match k with
  | 0 => True
  | S k' =>
      match tokens with
      | Ch _ :: tokens' => units_first k' tokens'
      | _ => False
      end
  end.

(** A replacement text that brings one of the two marks only. *)
Definition template_ok (template : list piece) : Prop :=
  Forall (fun p => match p with
                   | Cap _ => True
                   | Txt s => s = DEC \/ s = SPLIT
                   end) template.

(** [r] starts with a literal letter. *)
Fixpoint starts_with_letter (r : regex) : bool :=
  match r with
  | Lit c => is_letter c
  | Cat r1 _ => starts_with_letter r1
  | Alt r1 r2 => starts_with_letter r1 && starts_with_letter r2
  | Grp r' => starts_with_letter r'
  | _ => false
  end.

(** The text does not start with a letter. *)
Definition no_letter_first (s : jsstring) : bool :=
  match s with
  | [] => true
  | c :: _ => negb (is_letter c)
  end.

(** No period of the text has a letter after it. *)
Fixpoint no_dot_letter (s : jsstring) : bool :=
  match s with
  | [] => true
  | c :: s' => negb ((c =? 46)%N && negb (no_letter_first s')) && no_dot_letter s'
  end.

(** A token of a sentence: a unit that is not a letter, or the mark of a
    decimal point. *)
Definition piece_ok (t : token) : bool :=
  match t with
  | Ch c => negb (is_letter c)
  | Dec => true
  | Spl => false
  end.

(** The positions, from 1, of the sentences of more than 25 words. *)
Definition long_positions (sentences : list jsstring) : list nat :=
  List.map S
    (List.filter (fun k => LONG_SENTENCE_THRESHOLD <? countWords (nth k sentences []))
       (seq 0 (length sentences))).

(** What an entry of [longSentences] says about the sentence at its
    position. *)
Definition long_entry_of (sentences : list jsstring) (e : LongSentence) : Prop :=
  LONG_SENTENCE_THRESHOLD < wordCount e
  /\ 1 <= position e
  /\ exists sentence,
       nth_error sentences (position e - 1) = Some sentence
       /\ wordCount e = countWords sentence
       /\ text e = (if 150 <? length sentence
                    then truncate_loop [] (split_ws sentence) ++ str "..."
                    else sentence)
       /\ length (truncate_loop [] (split_ws sentence)) <= 147.

(** [toLowerCase] on ASCII texts. *)
Definition toLowerCase_ascii (s : jsstring) : jsstring :=
  List.map (fun c => if is_upper c then (c + 32)%N else c) s.

(** A [syllable] that always throws. *)
Definition syllable_throws (word : jsstring) : option Z := None.

End ReadabilitySpec.

From Stdlib Require Import Lqa DecimalString.

(** * The schema, the routes and the rewrite panel

    The rest of the server code that does not talk to the database or to
    the language model by itself: the tables and types of the schema, the
    cache and the choice of the writing examples, the scores that
    [evaluateText] and [evaluateFigure] compute from the answer of the
    model, and the loop of the rewrite route, which is where
    [computeWordDiff] and [analyzeReadability] are called.  What the
    database and the model answer is an argument of the functions
    below. *)

(** ** The schema (shared/schema.ts, shared/models/research.ts) *)

Module Schema.

(** A section type is one of eighteen strings. *)
Inductive SectionType :=
  | title | abstract | introduction | literature_review | methodology
  | results | discussion | conclusion | conclusion_with_limits
  | conclusion_without_limits | limitations_future_research | paragraph
  | figure_introduction | figure_theory | figure_methodology
  | figure_results_quantitative | figure_results_qualitative
  | figure_discussion.

Definition sectionTypes : list SectionType :=
  [ title; abstract; introduction; literature_review; methodology; results;
    discussion; conclusion; conclusion_with_limits; conclusion_without_limits;
    limitations_future_research; paragraph; figure_introduction; figure_theory;
    figure_methodology; figure_results_quantitative;
    figure_results_qualitative; figure_discussion ].

(** The string that a section type is. *)
Definition sectionTypeString (t : SectionType) : jsstring :=
  match t with
  | title => str "title"
  | abstract => str "abstract"
  | introduction => str "introduction"
  | literature_review => str "literature_review"
  | methodology => str "methodology"
  | results => str "results"
  | discussion => str "discussion"
  | conclusion => str "conclusion"
  | conclusion_with_limits => str "conclusion_with_limits"
  | conclusion_without_limits => str "conclusion_without_limits"
  | limitations_future_research => str "limitations_future_research"
  | paragraph => str "paragraph"
  | figure_introduction => str "figure_introduction"
  | figure_theory => str "figure_theory"
  | figure_methodology => str "figure_methodology"
  | figure_results_quantitative => str "figure_results_quantitative"
  | figure_results_qualitative => str "figure_results_qualitative"
  | figure_discussion => str "figure_discussion"
  end.

Record Criterion := {
  name : jsstring;
  weight : Z;
  description : jsstring
}.

Definition sectionCriteria (sectionType : SectionType) : list Criterion :=
  match sectionType with
  | title =>
    [ {| name := str "Content"; weight := 30;
         description := str "Does it capture the essence? Includes main concepts, theories, methods, findings, or data characteristics?" |};
      {| name := str "Suspense/Interest"; weight := 30;
         description := str "Does it generate interest? Contains counter-intuitive, unexpected, humor, or surprise elements?" |};
      {| name := str "Clarity"; weight := 25;
         description := str "Is it easy to understand? Uses plain words, avoids jargon, avoids consecutive nouns?" |};
      {| name := str "Brevity"; weight := 15;
         description := str "Is it concise? Shorter titles are generally better; message clear without re-reading?" |} ]
  | abstract =>
    [ {| name := str "Goal/Purpose"; weight := 18;
         description := str "Clearly states the research question or study objective" |};
      {| name := str "Research Design"; weight := 18;
         description := str "Briefly explains methodology or approach used" |};
      {| name := str "Main Findings"; weight := 22;
         description := str "Summarizes the key results/discoveries" |};
      {| name := str "Implications"; weight := 17;
         description := str "States contributions to theory and/or practice" |};
      {| name := str "Completeness"; weight := 10;
         description := str "Contains all required elements within word limits" |};
      {| name := str "Sentence Starter Variety"; weight := 8;
         description := str "Sentences begin with varied words, avoiding repetitive openers" |};
      {| name := str "No Idea Redundancy"; weight := 7;
         description := str "Each sentence adds new information; no repetition of concepts already stated" |} ]
  | introduction =>
    [ {| name := str "Hook/Topic Introduction"; weight := 12;
         description := str "Opens with engaging description of the area/phenomenon" |};
      {| name := str "Problem Statement"; weight := 12;
         description := str "Clearly identifies what is not well understood" |};
      {| name := str "Relevancy of Problem"; weight := 12;
         description := str "Answers 'So what? Who cares? Why bother?'" |};
      {| name := str "Current Understanding"; weight := 12;
         description := str "Briefly describes what we know (references to key studies)" |};
      {| name := str "Limits of Current Knowledge"; weight := 8;
         description := str "Identifies the gap in literature" |};
      {| name := str "Research Question/Aim"; weight := 12;
         description := str "Explicit, specific, well-fitted purpose statement" |};
      {| name := str "Contributions"; weight := 8;
         description := str "Clear statement of what the paper adds" |};
      {| name := str "Logical Flow"; weight := 5;
         description := str "Smooth transitions between elements" |};
      {| name := str "Sentence Starter Variety"; weight := 10;
         description := str "Paragraphs and sentences begin with varied words, not repetitive openers" |};
      {| name := str "No Idea Redundancy"; weight := 9;
         description := str "Each paragraph adds new content; avoids restating what was already said" |} ]
  | literature_review =>
    [ {| name := str "Focus on Study"; weight := 16;
         description := str "Literature serves the paper's story, not just reporting others' work" |};
      {| name := str "State of the Art"; weight := 16;
         description := str "Covers relevant, recent, high-impact sources" |};
      {| name := str "Foundation Building"; weight := 12;
         description := str "Builds logical bridge from known to unknown" |};
      {| name := str "Author's Voice"; weight := 12;
         description := str "Written in own words, not just quotes; author tells the story" |};
      {| name := str "Critical Analysis"; weight := 12;
         description := str "Summarizes, analyzes, explains, and evaluates (not just describes)" |};
      {| name := str "Research Ideas/Hypotheses"; weight := 12;
         description := str "Clear link to the study's propositions or conceptual model" |};
      {| name := str "Sentence Starter Variety"; weight := 10;
         description := str "Paragraphs and sentences begin with varied words, not repetitive openers" |};
      {| name := str "No Idea Redundancy"; weight := 10;
         description := str "Each paragraph introduces new concepts; avoids restating previous points" |} ]
  | methodology =>
    [ {| name := str "Research Steps Clarity"; weight := 16;
         description := str "What was done is clearly described (replicable)" |};
      {| name := str "Justification"; weight := 16;
         description := str "Why this method is appropriate (matches research question, follows accepted practice)" |};
      {| name := str "Data Collection"; weight := 16;
         description := str "Clear description of what data, how collected, from whom/where" |};
      {| name := str "Measurement Quality"; weight := 12;
         description := str "Valid, reliable measurements; concepts properly operationalized" |};
      {| name := str "Quality Evidence"; weight := 12;
         description := str "Evidence that procedures worked well (statistics, checks)" |};
      {| name := str "Rigor"; weight := 8;
         description := str "Follows methodological standards; meets assumptions of methods used" |};
      {| name := str "Sentence Starter Variety"; weight := 10;
         description := str "Paragraphs and sentences begin with varied words, not repetitive openers" |};
      {| name := str "No Idea Redundancy"; weight := 10;
         description := str "Each paragraph covers new ground; avoids repeating previously stated information" |} ]
  | results =>
    [ {| name := str "Clarity of Presentation"; weight := 20;
         description := str "Results clearly organized, logical sequence" |};
      {| name := str "Separation from Interpretation"; weight := 12;
         description := str "Findings presented distinctly from discussion/meaning" |};
      {| name := str "Completeness"; weight := 16;
         description := str "All relevant analyses included; hypotheses addressed" |};
      {| name := str "Visual Communication"; weight := 12;
         description := str "Tables/figures are stand-alone, properly captioned, not overloaded" |};
      {| name := str "Statistical Rigor"; weight := 12;
         description := str "Appropriate tests, correct reporting of statistics" |};
      {| name := str "Conciseness"; weight := 8;
         description := str "Focuses on key findings; avoids unnecessary detail" |};
      {| name := str "Sentence Starter Variety"; weight := 10;
         description := str "Paragraphs and sentences begin with varied words, not repetitive openers" |};
      {| name := str "No Idea Redundancy"; weight := 10;
         description := str "Each finding stated once; avoids restating the same result multiple ways" |} ]
  | discussion =>
    [ {| name := str "Interpretation"; weight := 20;
         description := str "What do the findings mean in the real world?" |};
      {| name := str "Connection to Prior Research"; weight := 20;
         description := str "How do findings relate to/extend/contradict existing knowledge?" |};
      {| name := str "Explaining Key Findings"; weight := 16;
         description := str "Distinguished findings are explained (especially unexpected ones)" |};
      {| name := str "Critical Distance"; weight := 12;
         description := str "Avoids jumping to conclusions; acknowledges alternative interpretations" |};
      {| name := str "Focus on Forest"; weight := 12;
         description := str "Emphasizes distinguishing elements, not all individual trees" |};
      {| name := str "Sentence Starter Variety"; weight := 10;
         description := str "Paragraphs and sentences begin with varied words, not repetitive openers" |};
      {| name := str "No Idea Redundancy"; weight := 10;
         description := str "Each paragraph adds new insights; avoids restating points from earlier sections" |} ]
  | conclusion =>
    [ {| name := str "Theoretical Contributions"; weight := 16;
         description := str "Clear statement of what new knowledge is discovered" |};
      {| name := str "Practical Implications"; weight := 16;
         description := str "Who benefits, how, when, why (concrete, not vague)" |};
      {| name := str "Limitations"; weight := 12;
         description := str "Honest acknowledgment of shortcomings without being masochistic" |};
      {| name := str "Future Research"; weight := 12;
         description := str "Concrete suggestions for follow-up studies" |};
      {| name := str "Answer to Research Question"; weight := 12;
         description := str "Directly addresses the promise made in introduction" |};
      {| name := str "Positive Closure"; weight := 4;
         description := str "Ends with forward-looking, positive final sentence" |};
      {| name := str "No Overclaiming"; weight := 8;
         description := str "Claims match evidence; appropriate hedging" |};
      {| name := str "Sentence Starter Variety"; weight := 10;
         description := str "Paragraphs and sentences begin with varied words, not repetitive openers" |};
      {| name := str "No Idea Redundancy"; weight := 10;
         description := str "Summarizes without excessive repetition from earlier sections" |} ]
  | conclusion_with_limits =>
    [ {| name := str "Theoretical Contributions"; weight := 14;
         description := str "Clear statement of what new knowledge is discovered" |};
      {| name := str "Practical Implications"; weight := 14;
         description := str "Who benefits, how, when, why (concrete, not vague)" |};
      {| name := str "Limitations"; weight := 14;
         description := str "Honest acknowledgment of shortcomings without being masochistic; specific, not generic" |};
      {| name := str "Future Research"; weight := 14;
         description := str "Concrete, actionable suggestions for follow-up studies stemming from limitations" |};
      {| name := str "Answer to Research Question"; weight := 12;
         description := str "Directly addresses the promise made in introduction" |};
      {| name := str "Positive Closure"; weight := 4;
         description := str "Ends with forward-looking, positive final sentence" |};
      {| name := str "No Overclaiming"; weight := 8;
         description := str "Claims match evidence; appropriate hedging" |};
      {| name := str "Sentence Starter Variety"; weight := 10;
         description := str "Paragraphs and sentences begin with varied words, not repetitive openers" |};
      {| name := str "No Idea Redundancy"; weight := 10;
         description := str "Summarizes without excessive repetition from earlier sections" |} ]
  | conclusion_without_limits =>
    [ {| name := str "Theoretical Contributions"; weight := 22;
         description := str "Clear statement of what new knowledge is discovered" |};
      {| name := str "Practical Implications"; weight := 22;
         description := str "Who benefits, how, when, why (concrete, not vague)" |};
      {| name := str "Answer to Research Question"; weight := 16;
         description := str "Directly addresses the promise made in introduction" |};
      {| name := str "Positive Closure"; weight := 8;
         description := str "Ends with forward-looking, positive final sentence" |};
      {| name := str "No Overclaiming"; weight := 12;
         description := str "Claims match evidence; appropriate hedging" |};
      {| name := str "Sentence Starter Variety"; weight := 10;
         description := str "Paragraphs and sentences begin with varied words, not repetitive openers" |};
      {| name := str "No Idea Redundancy"; weight := 10;
         description := str "Summarizes without excessive repetition from earlier sections" |} ]
  | limitations_future_research =>
    [ {| name := str "Limitation Specificity"; weight := 20;
         description := str "Limitations are specific to this study, not generic disclaimers; acknowledges actual constraints faced" |};
      {| name := str "Limitation Honesty"; weight := 15;
         description := str "Honest acknowledgment without being overly apologetic or undermining the research" |};
      {| name := str "Future Research Concreteness"; weight := 20;
         description := str "Concrete, actionable research directions; not vague suggestions like 'more research is needed'" |};
      {| name := str "Limitation-Future Link"; weight := 15;
         description := str "Future research suggestions logically stem from stated limitations" |};
      {| name := str "Balanced Tone"; weight := 10;
         description := str "Neither dismissive of limitations nor masochistic; maintains scholarly confidence" |};
      {| name := str "Sentence Starter Variety"; weight := 10;
         description := str "Paragraphs and sentences begin with varied words, not repetitive openers" |};
      {| name := str "No Idea Redundancy"; weight := 10;
         description := str "Each point adds new information; avoids restating the same limitation or suggestion" |} ]
  | paragraph =>
    [ {| name := str "Main Idea Clarity"; weight := 30;
         description := str "Paragraph has one clear, identifiable main idea or topic sentence" |};
      {| name := str "Supporting Sentences"; weight := 30;
         description := str "All other sentences directly support, explain, or elaborate the main idea" |};
      {| name := str "Sentence Starter Variety"; weight := 20;
         description := str "Sentences begin with varied words/structures, not repetitive openers like 'The... The...' or 'This... This...'" |};
      {| name := str "Internal Coherence"; weight := 20;
         description := str "Logical flow between sentences with smooth transitions" |} ]
  | figure_introduction =>
    [ {| name := str "Visual Design"; weight := 25;
         description := str "Readable, uncluttered, balanced layout, good contrast, clear visual hierarchy" |};
      {| name := str "Standalone Interpretability"; weight := 25;
         description := str "Understandable from figure + caption alone; all abbreviations, symbols, and elements explained" |};
      {| name := str "Problem Framing"; weight := 25;
         description := str "Clearly visualizes the gap, context, or motivation for the research" |};
      {| name := str "Conceptual Accessibility"; weight := 25;
         description := str "Simple enough for broad audience; effectively sets the stage" |} ]
  | figure_theory =>
    [ {| name := str "Visual Design"; weight := 25;
         description := str "Readable, uncluttered, balanced layout, good contrast, clear visual hierarchy" |};
      {| name := str "Standalone Interpretability"; weight := 25;
         description := str "Understandable from figure + caption alone; all abbreviations, symbols, and elements explained" |};
      {| name := str "Prior Work Representation"; weight := 25;
         description := str "Accurately depicts existing concepts, models, or relationships from literature" |};
      {| name := str "Contribution Positioning"; weight := 25;
         description := str "Your novelty, lens, or extension is visually distinguishable from existing work" |} ]
  | figure_methodology =>
    [ {| name := str "Visual Design"; weight := 25;
         description := str "Readable, uncluttered, balanced layout, good contrast, clear visual hierarchy" |};
      {| name := str "Standalone Interpretability"; weight := 25;
         description := str "Understandable from figure + caption alone; all abbreviations, symbols, and elements explained" |};
      {| name := str "Process Flow Clarity"; weight := 25;
         description := str "Clear sequence of steps, phases, or stages; obvious directionality" |};
      {| name := str "Input-Output Visibility"; weight := 25;
         description := str "What goes into each phase and what comes out is apparent" |} ]
  | figure_results_quantitative =>
    [ {| name := str "Visual Design"; weight := 25;
         description := str "Readable, uncluttered, balanced layout, good contrast, clear visual hierarchy" |};
      {| name := str "Standalone Interpretability"; weight := 25;
         description := str "Understandable from figure + caption alone; all abbreviations, symbols, and elements explained" |};
      {| name := str "Data-Ink Ratio"; weight := 25;
         description := str "Maximizes data representation, minimizes chartjunk (unnecessary gridlines, borders, effects)" |};
      {| name := str "Uncertainty Representation"; weight := 25;
         description := str "Error bars, confidence intervals, or variability shown where appropriate" |} ]
  | figure_results_qualitative =>
    [ {| name := str "Visual Design"; weight := 25;
         description := str "Readable, uncluttered, balanced layout, good contrast, clear visual hierarchy" |};
      {| name := str "Standalone Interpretability"; weight := 25;
         description := str "Understandable from figure + caption alone; all abbreviations, symbols, and elements explained" |};
      {| name := str "Theme Relationship Clarity"; weight := 25;
         description := str "Connections, hierarchies, or patterns between themes are visible" |};
      {| name := str "Appropriate Abstraction"; weight := 25;
         description := str "Captures richness without oversimplifying or implying false precision" |} ]
  | figure_discussion =>
    [ {| name := str "Visual Design"; weight := 25;
         description := str "Readable, uncluttered, balanced layout, good contrast, clear visual hierarchy" |};
      {| name := str "Standalone Interpretability"; weight := 25;
         description := str "Understandable from figure + caption alone; all abbreviations, symbols, and elements explained" |};
      {| name := str "Logical Structure"; weight := 25;
         description := str "Clear hierarchy showing relationships between components; obvious reading flow" |};
      {| name := str "Relationship Clarity"; weight := 25;
         description := str "Arrows, lines, or positioning clearly indicate how components relate; consistent visual logic" |} ]
  end.

(** The fields [name] and [weight] of a score are [score_name] and
    [score_weight] here. *)
Record CriterionScore := {
  score_name : jsstring;
  score_weight : Z;
  score : Z;
  suggestion : jsstring;
  missing : option jsstring
}.

(** The field [id] of a key point is [keypoint_id], and the fields of a
    support argument carry the prefix [argument_], here. *)
Record KeyPoint := {
  keypoint_id : jsstring;
  statement : jsstring;
  sourceQuote : jsstring;
  pointType : jsstring
}.

Record SupportArgument := {
  argument_id : jsstring;
  argument_sourceQuote : jsstring;
  emphasisSuggestion : jsstring;
  rationale : jsstring;
  selected : option bool
}.

(** A row of the table [writing_examples]; a column that can be null is
    an option, a time is a number of milliseconds. *)
Record WritingExample := {
  example_id : jsstring;
  discipline : jsstring;
  sectionType : jsstring;
  example_title : jsstring;
  excerpt : jsstring;
  annotation : option jsstring;
  qualityScore : option Q;
  sourceJournal : option jsstring;
  isActive : option Z;
  createdAt : option Z
}.

(** The summary of a step.  The route writes the number of attempts and
    the original score into one of its own summaries; that summary is
    kept with its two numbers, before they are formatted. *)
Inductive Summary :=
  | Plain (s : jsstring)
  | AfterAttempts (attempts : nat) (originalScore : Q).

Record ThinkingStep := {
  phase : jsstring;
  summary : Summary
}.

(** The field [new] of a change is [new_] here. *)
Record ChangeEntry := {
  original : jsstring;
  new_ : jsstring
}.

(** The fields [name], [originalScore] and [suggestedScore] of a
    comparison carry the prefix [comparison_] here. *)
Record CriteriaScoreComparison := {
  comparison_name : jsstring;
  comparison_originalScore : Q;
  comparison_suggestedScore : Q;
  delta : Q
}.

End Schema.

(** ** The routes (src/server/routes.ts) *)

Module Routes.
Import Regex Schema.

(** [a || b] when [a] is an object or [undefined]. *)
Definition or_else {A} (a b : option A) : option A :=
  match a with
  | Some x => Some x
  | None => b
  end.

(** A string that may be missing, read as a condition: it holds when the
    string is there and not empty. *)
Definition truthy (s : option jsstring) : option jsstring :=
  match s with
  | Some (c :: s') => Some (c :: s')
  | _ => None
  end.

(** [s.includes(sub)] *)
Fixpoint includes (s sub : jsstring) : bool :=
  Readability.is_prefix sub s
  || match s with
     | [] => false
     | _ :: s' => includes s' sub
     end.

(** [s.split(/[...]/)] for a class of one unit: the pieces between the
    units of the class.  [piece] is the current piece in reverse. *)
Fixpoint split_class (sep : char -> bool) (piece : jsstring) (s : jsstring)
    : list jsstring :=
  match s with
  | [] => [rev piece]
  | c :: s' =>
      if sep c then rev piece :: split_class sep [] s'
      else split_class sep (c :: piece) s'
  end.

(** [s.replace(/\s+/g, ' ')] *)
Definition one_space (s : jsstring) : jsstring :=
  replace false (Plus (Cls is_space)) [Txt (str " ")] s.

(** A count in a template literal: its decimal digits. *)
Definition decimal (n : nat) : jsstring :=
  str (NilEmpty.string_of_uint (Nat.to_uint n)).

(** [s || d] for a string that may be missing. *)
Definition or_text (d : jsstring) (s : option jsstring) : jsstring :=
  match truthy s with
  | Some s => s
  | None => d
  end.

(** *** The writing examples *)

(** The two variables of the module that cache the examples. *)
Record ExamplesCache := {
  examplesCache : option (list WritingExample);
  examplesCacheTime : Z
}.

(** The cache when the module is loaded. *)
Definition no_examples : ExamplesCache :=
  {| examplesCache := None; examplesCacheTime := 0 |}.

Definition CACHE_TTL : Z := 5 * 60 * 1000.

(** [getWritingExamples()] when the clock says [now] and the query of
    the active examples would answer [rows], or fail for [None]: the
    examples and the cache after the call.  An empty array is a cache like
    any other. *)
Definition getWritingExamples (cache : ExamplesCache) (now : Z)
    (rows : option (list WritingExample)) : list WritingExample * ExamplesCache :=
  let fetch :=
    match rows with
    | Some rows => (rows, {| examplesCache := Some rows; examplesCacheTime := now |})
    | None => ([], cache)
    end in
  match examplesCache cache with
  | Some cached =>
      if (now - examplesCacheTime cache <? CACHE_TTL)%Z then (cached, cache)
      else fetch
  | None => fetch
  end.

(** A sequence of calls, each with its time and the answer that the
    database would give: the examples that each call returns, and the
    cache at the end. *)
Fixpoint getWritingExamples_calls (cache : ExamplesCache)
    (calls : list (Z * option (list WritingExample)))
    : list (list WritingExample) * ExamplesCache :=
  match calls with
  | [] => ([], cache)
  | (now, rows) :: calls' =>
      let (examples, cache') := getWritingExamples cache now rows in
      let (answers, cache'') := getWritingExamples_calls cache' calls' in
      (examples :: answers, cache'')
  end.

Definition getRelevantExamples (examples : list WritingExample)
    (sectionType : jsstring) (discipline : option jsstring) : list WritingExample :=
  let normalizedSection :=
    if Readability.is_prefix (str "conclusion") sectionType then str "conclusion"
    else sectionType in
  let sectionMatch :=
    List.filter (fun e => jsstring_eqb (Schema.sectionType e) normalizedSection)
      examples in
  let bySection := if 0 <? length sectionMatch then firstn 2 sectionMatch else [] in
  match truthy discipline with
  | Some discipline =>
      let exactMatch :=
        List.filter
          (fun e => jsstring_eqb (Schema.discipline e) discipline
                    && jsstring_eqb (Schema.sectionType e) normalizedSection)
          examples in
      if 0 <? length exactMatch then firstn 2 exactMatch else bySection
  | None => bySection
  end.

(** *** The scores of an evaluation *)

(** A criterion as the model answers it; the cast of the parsed answer
    gives the fields their types, and a field that the code reads with
    [??] or [||] may be missing. *)
Record AiCriterion := {
  ai_name : jsstring;
  ai_score : option Q;
  ai_suggestion : option jsstring;
  ai_missing : option jsstring
}.

(** A key point and a support argument as the model answers them, with
    the strings that the prompt asks for; every field may be missing, and
    [raw_sourceQuote] of a key point is also [None] when the field is there
    and is not a string. *)
Record RawKeyPoint := {
  raw_keypoint_id : option jsstring;
  raw_statement : option jsstring;
  raw_sourceQuote : option jsstring;
  raw_pointType : option jsstring
}.

Record RawArgument := {
  raw_argument_id : option jsstring;
  raw_argument_sourceQuote : option jsstring;
  raw_emphasisSuggestion : option jsstring;
  raw_rationale : option jsstring
}.

(** The parsed answer. *)
Record ParsedResponse := {
  criteria : list AiCriterion;
  generalFeedback : option jsstring;
  keyPoints : option (list RawKeyPoint);
  supportArguments : option (list RawArgument)
}.

(** The result of an evaluation; its fields other than [overallScore]
    carry the prefix [evaluation_] here. *)
Record EvaluationResult := {
  overallScore : Q;
  evaluation_sectionType : SectionType;
  evaluation_criteria : list CriterionScore;
  evaluation_generalFeedback : jsstring;
  evaluation_supportArguments : option (list SupportArgument);
  evaluation_keyPoints : option (list KeyPoint)
}.

(** [Math.max(1, Math.min(10, Math.round(aiCriterion?.score ?? 5)))] *)
Definition score_of (aiCriterion : option AiCriterion) : Z :=
  Z.max 1
    (Z.min 10
       (Readability.Math_round
          match aiCriterion with
          | Some ac => match ai_score ac with
                       | Some s => s
                       | None => 5%Q
                       end
          | None => 5%Q
          end)).

(** The sum of [reduce], from [sum] on. *)
Definition weighted_sum (sum : Q) (criteriaScores : list CriterionScore) : Q :=
  fold_left (fun sum c => (sum + inject_Z (score c * score_weight c) / 100)%Q)
    criteriaScores sum.

(** [Math.round(x * 10) / 10] *)
Definition round1 (x : Q) : Q :=
  (inject_Z (Readability.Math_round (x * 10)) / 10)%Q.

Section Evaluate.

Variable toLowerCase : jsstring -> jsstring.

(** [s.toLowerCase().replace(/[^a-z0-9]/g, "")] *)
Definition normalized (s : jsstring) : jsstring :=
  replace false (Cls (fun c => negb (is_lower c || is_digit c))) []
    (toLowerCase s).

(** [s.toLowerCase().split(/[\s\/]/)[0]]; the split has a first piece for
    every string. *)
Definition first_word (s : jsstring) : jsstring :=
  hd [] (split_class (fun c => is_space c || (c =? 47)%N) [] (toLowerCase s)).

(** The criterion of the answer that [evaluateText] reads for the
    criterion [c] at [index]. *)
Definition text_criterion (answered : list AiCriterion) (c : Criterion)
    (index : nat) : option AiCriterion :=
  let normalizedName := normalized (name c) in
  let firstWord := first_word (name c) in
  or_else
    (List.find
       (fun ac => jsstring_eqb (toLowerCase (ai_name ac)) (toLowerCase (name c)))
       answered)
    (or_else
       (List.find (fun ac => jsstring_eqb (normalized (ai_name ac)) normalizedName)
          answered)
       (or_else
          (List.find
             (fun ac => includes (toLowerCase (ai_name ac)) firstWord
                        || includes firstWord (first_word (ai_name ac)))
             answered)
          (nth_error answered index))).

(** The one that [evaluateFigure] reads. *)
Definition figure_criterion (answered : list AiCriterion) (c : Criterion)
    (index : nat) : option AiCriterion :=
  or_else
    (List.find
       (fun ac => jsstring_eqb (toLowerCase (ai_name ac)) (toLowerCase (name c)))
       answered)
    (nth_error answered index).

(** The object that the callback of [criteria.map] returns; [ending] is
    the end of the suggestion that is made up when the answer has none. *)
Definition criterion_score (ending : jsstring) (c : Criterion)
    (aiCriterion : option AiCriterion) : CriterionScore :=
  let score := score_of aiCriterion in
  {| score_name := name c;
     score_weight := weight c;
     score := score;
     suggestion :=
       match truthy (match aiCriterion with
                     | Some ac => ai_suggestion ac
                     | None => None
                     end) with
       | Some s => s
       | None => str "Consider reviewing the " ++ toLowerCase (name c) ++ ending
       end;
     missing :=
       if (score <? 8)%Z
       then truthy (match aiCriterion with
                    | Some ac => ai_missing ac
                    | None => None
                    end)
       else None |}.

(** [criteriaScores] of [evaluateText] *)
Definition criteriaScores (sectionType : SectionType)
    (parsed_response : ParsedResponse) : list CriterionScore :=
  imap
    (fun index c =>
       criterion_score (str " aspect of your text to improve this criterion.") c
         (text_criterion (criteria parsed_response) c index))
    (sectionCriteria sectionType).

(** [criteriaScores] of [evaluateFigure] *)
Definition figureCriteriaScores (sectionType : SectionType)
    (parsed_response : ParsedResponse) : list CriterionScore :=
  imap
    (fun index c =>
       criterion_score (str " aspect of your figure.") c
         (figure_criterion (criteria parsed_response) c index))
    (sectionCriteria sectionType).

(** [supportArguments] of [evaluateText] *)
Definition support_arguments (parsed_response : ParsedResponse)
    : list SupportArgument :=
  imap
    (fun index arg =>
       {| argument_id :=
            or_text (str "arg" ++ decimal (index + 1)) (raw_argument_id arg);
          argument_sourceQuote := or_text [] (raw_argument_sourceQuote arg);
          emphasisSuggestion := or_text [] (raw_emphasisSuggestion arg);
          rationale := or_text [] (raw_rationale arg);
          selected := Some false |})
    (firstn 5 match supportArguments parsed_response with
              | Some args => args
              | None => []
              end).

(** The callback of the filter of [rawKeyPoints]. *)
Definition quoted_in (text : jsstring) (kp : RawKeyPoint) : bool :=
  match truthy (raw_sourceQuote kp) with
  | Some sourceQuote =>
      let normalizedText := toLowerCase (one_space text) in
      let normalizedQuote := toLowerCase (one_space sourceQuote) in
      includes normalizedText normalizedQuote
  | None => false
  end.

(** [validatedKeyPoints] of [evaluateText] *)
Definition validatedKeyPoints (text : jsstring) (parsed_response : ParsedResponse)
    : list KeyPoint :=
  let rawKeyPoints :=
    firstn 7 match keyPoints parsed_response with
             | Some points => points
             | None => []
             end in
  imap
    (fun index kp =>
       {| keypoint_id := or_text (str "kp" ++ decimal (index + 1)) (raw_keypoint_id kp);
          statement := or_text [] (raw_statement kp);
          sourceQuote := or_text [] (raw_sourceQuote kp);
          pointType := or_text (str "claim") (raw_pointType kp) |})
    (List.filter (quoted_in text) rawKeyPoints).

(** [xs.length > 0 ? xs : undefined] *)
Definition if_any {A} (xs : list A) : option (list A) :=
  match xs with
  | [] => None
  | _ :: _ => Some xs
  end.

(** The object that [evaluateText] and [evaluateFigure] return. *)
Definition evaluation_of (sectionType : SectionType)
    (criteriaScores : list CriterionScore) (parsed_response : ParsedResponse)
    (supportArguments : option (list SupportArgument))
    (keyPoints : option (list KeyPoint)) : EvaluationResult :=
  let overallScore := weighted_sum 0 criteriaScores in
  {| overallScore := round1 overallScore;
     evaluation_sectionType := sectionType;
     evaluation_criteria := criteriaScores;
     evaluation_generalFeedback :=
       or_text (str "Evaluation complete.") (generalFeedback parsed_response);
     evaluation_supportArguments := supportArguments;
     evaluation_keyPoints := keyPoints |}.

(** [evaluateText] after the answer of the model was parsed;
    [parsed_response] is [None] when there is no answer after the three
    attempts or the answer cannot be parsed, and [evaluateText] throws. *)
Definition evaluateText (text : jsstring) (sectionType : SectionType)
    (parsed_response : option ParsedResponse) : option EvaluationResult :=
  option_map
    (fun parsed_response =>
       evaluation_of sectionType (criteriaScores sectionType parsed_response)
         parsed_response
         (if_any (support_arguments parsed_response))
         (if_any (validatedKeyPoints text parsed_response)))
    parsed_response.

Definition evaluateFigure (sectionType : SectionType)
    (parsed_response : option ParsedResponse) : option EvaluationResult :=
  option_map
    (fun parsed_response =>
       evaluation_of sectionType (figureCriteriaScores sectionType parsed_response)
         parsed_response None None)
    parsed_response.

End Evaluate.

(** *** The rewrite route *)

(** A criterion of [evaluationFeedback.criteria]; its fields carry the
    prefix [feedback_] here. *)
Record Feedback := {
  feedback_name : jsstring;
  feedback_score : Q;
  feedback_suggestion : jsstring
}.

(** The body of a request after validation, as far as the route reads it
    outside the prompts; [evaluationFeedback] is its list of criteria, and
    the field [sectionType] is [request_sectionType]. *)
Record RewriteRequest := {
  text : jsstring;
  request_sectionType : SectionType;
  originalScore : option Q;
  evaluationFeedback : option (list Feedback)
}.

(** What [generateRewrite] returns; its fields carry the prefix
    [rewrite_] here, and those of [bestResult] the prefix [best_]. *)
Record Rewrite := {
  rewrite_thinkingSteps : list ThinkingStep;
  rewrite_suggestedText : jsstring;
  rewrite_changes : list ChangeEntry;
  rewrite_constraintWarning : option jsstring
}.

(** [bestResult] *)
Record BestResult := {
  best_thinkingSteps : list ThinkingStep;
  best_suggestedText : jsstring;
  best_changes : list ChangeEntry;
  best_constraintWarning : option jsstring;
  best_suggestedScore : option Q;
  suggestedCriteria : option (list (jsstring * Z))
}.

Record RewriteResult := {
  suggestedText : jsstring;
  changes : list ChangeEntry;
  constraintWarning : option jsstring;
  thinkingSteps : list ThinkingStep;
  diffSegments : list WordDiff.DiffSegment;
  suggestedScore : option Q;
  noImprovementFound : bool;
  originalReadability : Readability.ReadabilityMetrics;
  suggestedReadability : Readability.ReadabilityMetrics;
  criteriaComparison : option (list CriteriaScoreComparison)
}.

Definition MAX_RETRIES : nat := 3.

(** [{ ...rewriteResult, suggestedScore, suggestedCriteria }] *)
Definition with_score (rewriteResult : Rewrite) (evaluation : EvaluationResult)
    : BestResult :=
  {| best_thinkingSteps := rewrite_thinkingSteps rewriteResult;
     best_suggestedText := rewrite_suggestedText rewriteResult;
     best_changes := rewrite_changes rewriteResult;
     best_constraintWarning := rewrite_constraintWarning rewriteResult;
     best_suggestedScore := Some (overallScore evaluation);
     suggestedCriteria :=
       Some (List.map (fun c => (score_name c, score c))
               (evaluation_criteria evaluation)) |}.

(** [x || d] for a number that may be missing. *)
Definition or_zero_else (d : Q) (x : option Q) : Q :=
  match x with
  | Some q => if Qeq_bool q 0 then d else q
  | None => d
  end.

(** [x || 0] *)
Definition or_zero (x : option Q) : Q := or_zero_else 0 x.

(** The text is kept: the two results that the route makes up. *)
Definition kept (request : RewriteRequest) (steps : list ThinkingStep) : BestResult :=
  {| best_thinkingSteps := steps;
     best_suggestedText := text request;
     best_changes := [];
     best_constraintWarning := None;
     best_suggestedScore := originalScore request;
     suggestedCriteria := None |}.

Definition not_verified : list ThinkingStep :=
  [ {| phase := str "Analysis Complete";
       summary := Plain (str "Analyzed text structure and attempted multiple rewrites") |};
    {| phase := str "Quality Check";
       summary := Plain (str "Could not verify improvement - keeping your original text") |} ].

Definition not_improved (originalScore : Q) : list ThinkingStep :=
  [ {| phase := str "Analysis Complete";
       summary := Plain (str "Analyzed text structure and evaluated multiple rewrite options") |};
    {| phase := str "Quality Check";
       summary := AfterAttempts MAX_RETRIES originalScore |} ].

Section Rewrite.

Variable toLowerCase : jsstring -> jsstring.
Variable syllable : jsstring -> option Z.

(** The language model.  [generateRewrite attempt previousScore] is what
    the function of that name returns, [None] when it throws;
    [evaluation attempt suggestedText] is the parsed answer to the
    evaluation of the text of that attempt, [None] when [evaluateText]
    throws. *)
Variable generateRewrite : nat -> option Q -> option Rewrite.
Variable evaluation : nat -> jsstring -> option ParsedResponse.

Variable request : RewriteRequest.

(** The loop over the attempts, from [attempt] on with [remaining]
    attempts to go: [None] when [generateRewrite] throws, which ends the
    route, and [bestResult] after the loop otherwise.  What the loop writes
    to the console is left out. *)
Fixpoint attempts (remaining attempt : nat) (bestResult : option BestResult)
    (previousScore : option Q) : option (option BestResult) :=
  match remaining with
  | 0 => Some bestResult
  | S remaining' =>
      match generateRewrite attempt previousScore with
      | None => None
      | Some rewriteResult =>
          let evaluated :=
            if (0 <? length (rewrite_suggestedText rewriteResult))
               && negb (jsstring_eqb (rewrite_suggestedText rewriteResult)
                          (text request))
            then evaluateText toLowerCase (rewrite_suggestedText rewriteResult)
                   (request_sectionType request)
                   (evaluation attempt (rewrite_suggestedText rewriteResult))
            else None in
          match evaluated with
          | Some result =>
              let suggestedScore := overallScore result in
              if match originalScore request with
                 | None => true
                 | Some originalScore => Qle_bool originalScore suggestedScore
                 end
              then Some (Some (with_score rewriteResult result))
              else
                let bestResult :=
                  if match bestResult with
                     | None => true
                     | Some best =>
                         negb (Qle_bool suggestedScore
                                 (or_zero (best_suggestedScore best)))
                     end
                  then Some (with_score rewriteResult result)
                  else bestResult in
                attempts remaining' (S attempt) bestResult (Some suggestedScore)
          | None => attempts remaining' (S attempt) bestResult previousScore
          end
      end
  end.

(** [noImprovementFound] and [bestResult] after the two checks that
    follow the loop. *)
Definition settle (bestResult : option BestResult) : bool * BestResult :=
  match bestResult with
  | None => (true, kept request not_verified)
  | Some best =>
      match best_suggestedScore best with
      | None => (true, kept request not_verified)
      | Some suggestedScore =>
          match originalScore request with
          | Some originalScore =>
              if negb (Qle_bool originalScore suggestedScore)
              then (true, kept request (not_improved originalScore))
              else (false, best)
          | None => (false, best)
          end
      end
  end.

(** [criteriaComparison] *)
Definition compare_criteria (best : BestResult)
    : option (list CriteriaScoreComparison) :=
  match evaluationFeedback request, suggestedCriteria best with
  | Some feedback, Some (s :: suggested') =>
      let suggested := s :: suggested' in
      Some
        (List.map
           (fun origCrit =>
              let suggestedCrit :=
                List.find (fun s => jsstring_eqb (fst s) (feedback_name origCrit))
                  suggested in
              let suggestedScore :=
                match suggestedCrit with
                | Some s => inject_Z (snd s)
                | None => feedback_score origCrit
                end in
              {| comparison_name := feedback_name origCrit;
                 comparison_originalScore := feedback_score origCrit;
                 comparison_suggestedScore := suggestedScore;
                 delta := round1 (suggestedScore - feedback_score origCrit) |})
           feedback)
  | _, _ => None
  end.

(** The handler of [POST /api/rewrite] for a valid body: the result that
    it sends, or [None] when it answers with status 500. *)
Definition rewrite : option RewriteResult :=
  let originalReadability :=
    Readability.analyzeReadability toLowerCase syllable (text request) in
  match attempts MAX_RETRIES 1 None None with
  | None => None
  | Some bestResult =>
      let (noImprovementFound, bestResult) := settle bestResult in
      let diffSegments :=
        WordDiff.computeWordDiff (text request) (best_suggestedText bestResult) in
      let suggestedReadability :=
        if negb (jsstring_eqb (best_suggestedText bestResult) (text request))
        then Readability.analyzeReadability toLowerCase syllable
               (best_suggestedText bestResult)
        else originalReadability in
      Some {| suggestedText := best_suggestedText bestResult;
              changes := best_changes bestResult;
              constraintWarning := best_constraintWarning bestResult;
              thinkingSteps := best_thinkingSteps bestResult;
              diffSegments := diffSegments;
              suggestedScore := best_suggestedScore bestResult;
              noImprovementFound := noImprovementFound;
              originalReadability := originalReadability;
              suggestedReadability := suggestedReadability;
              criteriaComparison := compare_criteria bestResult |}
  end.

End Rewrite.

(** *** The restructure route *)

(** [s.split(r)] for an expression [r] without groups.  The split looks
    for a match at every position from the left; a match that is empty and
    starts where the current piece starts is passed over, any other match
    ends the piece, and the next piece starts at its end.  [piece] is the
    current piece in reverse, [skip] the units of the current match that
    are still to be passed.  The text that is left at the end is the last
    piece. *)
Fixpoint split_from (r : regex) (skip : nat) (piece : jsstring)
    (before : option char) (s : jsstring) : list jsstring :=
  match s with
  | [] => [rev piece]
  | c :: s' =>
      match skip with
      | S k => split_from r k [] (Some c) s'
      | 0 =>
          match exec false r before s, piece with
          | Some (S k, _), _ => rev piece :: split_from r k [] (Some c) s'
          | Some (0, _), _ :: _ => rev piece :: split_from r 0 [c] (Some c) s'
          | _, _ => split_from r 0 (c :: piece) (Some c) s'
          end
      end
  end.

(** The empty text gives one empty piece, or none if [r] matches it. *)
Definition split (r : regex) (s : jsstring) : list jsstring :=
  match s with
  | [] => match exec false r None [] with
          | Some _ => []
          | None => [[]]
          end
  | _ :: _ => split_from r 0 [] None s
  end.

(** [/\n\s*\n/] *)
Definition blank_line : regex :=
  Cat (Lit 10%N) (Cat (Star (Cls is_space)) (Lit 10%N)).

(** [text.split(/\n\s*\n/).filter(p => p.trim())] *)
Definition paragraphs_of (text : jsstring) : list jsstring :=
  List.filter (fun p => 0 <? length (Readability.trim p)) (split blank_line text).

(** A suggestion as the model answers it; the fields that the code reads
    with [?.] or [||] may be missing. *)
Record RawSuggestion := {
  raw_id : option jsstring;
  raw_sentence : option jsstring;
  raw_fromParagraph : Q;
  raw_toParagraph : Q;
  raw_reason : jsstring
}.

Record RawResult := {
  raw_suggestions : option (list RawSuggestion);
  raw_overallCoherence : option Q;
  raw_summary : option jsstring
}.

(** The fields [id] and [summary] are [suggestion_id] and
    [restructure_summary] here. *)
Record RestructureSuggestion := {
  suggestion_id : jsstring;
  sentence : jsstring;
  fromParagraph : Q;
  toParagraph : Q;
  reason : jsstring
}.

Record RestructureResult := {
  suggestions : list RestructureSuggestion;
  overallCoherence : Q;
  restructure_summary : jsstring
}.

(** The answer that is parsed when the model returns no content. *)
Definition no_content : RawResult :=
  {| raw_suggestions := Some []; raw_overallCoherence := Some 8%Q;
     raw_summary := Some (str "Unable to analyze") |}.

Section Restructure.

Variable toLowerCase : jsstring -> jsstring.

(** The model and the generator of identifiers.  [analysis paragraphs]
    is the answer to the prompt with these paragraphs: [None] when the
    call or the parsing of its answer throws, [Some None] when the answer
    has no content.  [randomUUID index] is what [crypto.randomUUID()]
    returns when it is called for the suggestion at [index] of the
    answer. *)
Variable analysis : list jsstring -> option (option RawResult).
Variable randomUUID : nat -> jsstring.

(** The body of [for (const s of rawResult.suggestions || [])], for the
    suggestions from [index] on. *)
Fixpoint validSuggestions (text : jsstring) (index : nat)
    (raw : list RawSuggestion) : list RestructureSuggestion :=
  match raw with
  | [] => []
  | s :: raw' =>
      let sentenceNorm :=
        option_map (fun sentence => toLowerCase (Readability.trim (one_space sentence)))
          (raw_sentence s) in
      let textNorm := toLowerCase (one_space text) in
      match truthy sentenceNorm with
      | Some sentenceNorm =>
          if includes textNorm sentenceNorm
          then {| suggestion_id :=
                    match truthy (raw_id s) with
                    | Some id => id
                    | None => randomUUID index
                    end;
                  sentence := match raw_sentence s with
                              | Some sentence => sentence
                              | None => []
                              end;
                  fromParagraph := raw_fromParagraph s;
                  toParagraph := raw_toParagraph s;
                  reason := raw_reason s |}
               :: validSuggestions text (S index) raw'
          else validSuggestions text (S index) raw'
      | None => validSuggestions text (S index) raw'
      end
  end.

(** The handler of [POST /api/restructure] for a valid body with the
    text [text]: the result that it sends, or [None] when it answers with
    status 500. *)
Definition restructure (text : jsstring) : option RestructureResult :=
  let paragraphs := paragraphs_of text in
  if length paragraphs <? 2
  then Some {| suggestions := [];
               overallCoherence := 10%Q;
               restructure_summary :=
                 str "Text has only one paragraph. No restructuring needed." |}
  else
    match analysis paragraphs with
    | None => None
    | Some content =>
        let rawResult := match content with
                         | Some rawResult => rawResult
                         | None => no_content
                         end in
        Some {| suggestions :=
                  validSuggestions text 0
                    match raw_suggestions rawResult with
                    | Some raw => raw
                    | None => []
                    end;
                overallCoherence := or_zero_else 8 (raw_overallCoherence rawResult);
                restructure_summary :=
                  match truthy (raw_summary rawResult) with
                  | Some summary => summary
                  | None => str "Analysis complete"
                  end |}
    end.

End Restructure.

(** *** The map of a publication *)

(** [KeyPointData] of the route has the fields of [KeyPoint]. *)
Definition KeyPointData : Type := KeyPoint.

(** A row of [evaluation_history], as far as the map reads it: the
    section type, the overall score, the key points, [None] when the
    column is null or holds no array, and the time of creation in
    milliseconds, which can be null. *)
Record EvaluationRecord := {
  record_sectionType : jsstring;
  record_overallScore : Q;
  record_keyPoints : option (list KeyPointData);
  record_createdAt : option Z
}.

(** A value of [sectionMap]; its field [keyPoints] is [section_keyPoints]
    here. *)
Record SectionData := {
  scores : list Q;
  count : nat;
  lastUpdated : option Z;
  section_keyPoints : list KeyPointData
}.

(** A [Map] with strings as keys keeps its entries in the order in which
    the keys were first set: a list of entries. *)
Definition map_get (sectionMap : list (jsstring * SectionData)) (key : jsstring)
    : option SectionData :=
  option_map snd (List.find (fun entry => jsstring_eqb (fst entry) key) sectionMap).

Fixpoint map_set (sectionMap : list (jsstring * SectionData)) (key : jsstring)
    (value : SectionData) : list (jsstring * SectionData) :=
  match sectionMap with
  | [] => [(key, value)]
  | (key', value') :: sectionMap' =>
      if jsstring_eqb key' key then (key, value) :: sectionMap'
      else (key', value') :: map_set sectionMap' key value
  end.

(** The body of [for (const e of evaluations)]. *)
Definition add_evaluation (sectionMap : list (jsstring * SectionData))
    (e : EvaluationRecord) : list (jsstring * SectionData) :=
  let existing :=
    match map_get sectionMap (record_sectionType e) with
    | Some existing => existing
    | None =>
        {| scores := []; count := 0; lastUpdated := None; section_keyPoints := [] |}
    end in
  map_set sectionMap (record_sectionType e)
    {| scores := scores existing ++ [record_overallScore e];
       count := count existing + 1;
       lastUpdated :=
         match lastUpdated existing with
         | None => record_createdAt e
         | Some last =>
             match record_createdAt e with
             | Some created => if (last <? created)%Z then Some created else Some last
             | None => Some last
             end
         end;
       section_keyPoints :=
         if length (section_keyPoints existing) =? 0
         then match record_keyPoints e with
              | Some points => points
              | None => section_keyPoints existing
              end
         else section_keyPoints existing |}.

(** A section of the answer, without its label, which is looked up in
    the object [sectionLabels]; the field [id] is [node_id], and the time
    is the one that is formatted. *)
Record SectionNode := {
  node_id : jsstring;
  node_sectionType : jsstring;
  node_score : Q;
  node_count : nat;
  node_lastUpdated : Z;
  node_keyPoints : list KeyPointData
}.

(** [numbers.reduce((a, b) => a + b, 0)] *)
Definition total (numbers : list Q) : Q := fold_left Qplus numbers 0%Q.

Record PublicationMap := {
  sections : list SectionNode;
  totalEvaluations : nat;
  avgScore : Q
}.

(** The answer of [GET /api/publications/:id/map] for the evaluations of
    the publication, at the time [now]. *)
Definition publicationMap (evaluations : list EvaluationRecord) (now : Z)
    : PublicationMap :=
  let sectionMap := fold_left add_evaluation evaluations [] in
  let sections :=
    List.map
      (fun entry =>
         let sectionType := fst entry in
         let data := snd entry in
         {| node_id := sectionType;
            node_sectionType := sectionType;
            node_score :=
              (total (scores data) / Readability.of_nat (length (scores data)))%Q;
            node_count := count data;
            node_lastUpdated :=
              match lastUpdated data with
              | Some time => time
              | None => now
              end;
            node_keyPoints := section_keyPoints data |})
      sectionMap in
  let totalScore :=
    fold_left (fun sum e => (sum + record_overallScore e)%Q) evaluations 0%Q in
  {| sections := sections;
     totalEvaluations := length evaluations;
     avgScore :=
       if 0 <? length evaluations
       then (totalScore / Readability.of_nat (length evaluations))%Q
       else 0%Q |}.

End Routes.

(** ** The rewrite panel (src/client/src/components/suggestion-panel.tsx) *)

Module Client.
Import WordDiff.

(** A [span] of the page: its classes, [None] for a span without the
    attribute, and its text. *)
Record span := {
  className : option string;
  children : jsstring
}.

(** The spans that [DiffText] puts in its paragraph.  A segment for
    which the callback answers [null] shows nothing and has no span
    here. *)
Definition DiffText (segments : list DiffSegment) (showRemoved : bool) : list span :=
  flat_map
    (fun segment =>
       match type segment with
       | equal => [{| className := None; children := text segment |}]
       | removed =>
           if showRemoved
           then [{| className :=
                      Some "line-through text-red-600 dark:text-red-400 bg-red-500/10"%string;
                    children := text segment |}]
           else []
       | added =>
           if negb showRemoved
           then [{| className :=
                      Some "font-bold text-emerald-700 dark:text-emerald-400 bg-emerald-500/10"%string;
                    children := text segment |}]
           else []
       end)
    segments.

(** The text that a list of spans shows. *)
Definition textContent (spans : list span) : jsstring :=
  concat (List.map children spans).

(** The two boxes of the panel, [Original] and [Suggested]: the spans of
    the diff, or the plain text when the result has no segment. *)
Definition original_box (originalText : jsstring) (result : Routes.RewriteResult)
    : list span :=
  if 0 <? length (Routes.diffSegments result)
  then DiffText (Routes.diffSegments result) true
  else [{| className := None; children := originalText |}].

Definition suggested_box (result : Routes.RewriteResult) : list span :=
  if 0 <? length (Routes.diffSegments result)
  then DiffText (Routes.diffSegments result) false
  else [{| className := None; children := Routes.suggestedText result |}].

End Client.

(** * What the further properties are stated with *)

Module MoreSpec.
Import WordDiff.

(** The words that a list of operations keeps: the text of its
    operations of type [equal], in their order. *)
Definition kept_words (ops : list DiffSegment) : list jsstring :=
  List.map text (List.filter (fun op => SegmentType_eqb (type op) equal) ops).

(** The number of vowels of a word. *)
Definition vowels (cleaned : jsstring) : Z :=
  Z.of_nat (length (List.filter Readability.is_vowel cleaned)).

(** The text does not start with whitespace. *)
Definition starts_clean (s : jsstring) : bool :=
  match s with
  | [] => true
  | c :: _ => negb (is_space c)
  end.

(** The text does not end with whitespace. *)
Fixpoint ends_clean (s : jsstring) : bool :=
  match s with
  | [] => true
  | [c] => negb (is_space c)
  | _ :: s' => ends_clean s'
  end.

(** A match of [r] consumes a unit of whitespace. *)
Fixpoint needs_space (icase : bool) (r : Regex.regex) : Prop :=
  match r with
  | Regex.Lit c => forall d, Regex.lit_eqb icase c d = true -> is_space d = true
  | Regex.Cls p => forall d, p d = true -> is_space d = true
  | Regex.Cat r1 r2 => needs_space icase r1 \/ needs_space icase r2
  | Regex.Alt r1 r2 => needs_space icase r1 /\ needs_space icase r2
  | Regex.Grp r' => needs_space icase r'
  | _ => False
  end.

(** The scores at which the grade changes. *)
Definition grade_edges : list Q := [10; 30; 50; 60; 70; 80; 90]%Q.

End MoreSpec.

Module RoutesSpec.
Import Schema Routes.

(** The sum of the weights of a list of criteria. *)
Definition total_weight (criteria : list Criterion) : Z :=
  fold_right Z.add 0%Z (List.map weight criteria).

(** The scores of a section type: one for each criterion of the table,
    in its order, with the name and the weight of the criterion; each
    score is between 1 and 10, and a score of 8 or more has nothing
    missing. *)
Definition well_scored (sectionType : SectionType) (scores : list CriterionScore)
    : Prop :=
  List.map score_name scores = List.map name (sectionCriteria sectionType)
  /\ List.map score_weight scores = List.map weight (sectionCriteria sectionType)
  /\ Forall (fun c => (1 <= score c <= 10)%Z
                      /\ ((8 <= score c)%Z -> missing c = None)) scores.

(** The sum of the scores times the weights. *)
Definition score_sum (scores : list CriterionScore) : Z :=
  fold_right Z.add 0%Z (List.map (fun c => (score c * score_weight c)%Z) scores).

(** The section of the examples that are searched for a section type. *)
Definition normalizedSection (sectionType : jsstring) : jsstring :=
  if Readability.is_prefix (str "conclusion") sectionType then str "conclusion"
  else sectionType.

(** The examples of the section, and those of the discipline among
    them. *)
Definition of_section (sectionType : jsstring) (e : WritingExample) : bool :=
  jsstring_eqb (Schema.sectionType e) (normalizedSection sectionType).

Definition of_both (sectionType discipline : jsstring) (e : WritingExample) : bool :=
  jsstring_eqb (Schema.discipline e) discipline && of_section sectionType e.

(** An example, for the cases below. *)
Definition example_of (discipline sectionType : string) : WritingExample :=
  {| example_id := str "1"; Schema.discipline := str discipline;
     Schema.sectionType := str sectionType; example_title := str "An example";
     excerpt := str "We measured it."; annotation := None; qualityScore := None;
     sourceJournal := None; isActive := Some 1%Z; createdAt := None |}.

(** The cache holds the rows of a query that is among the calls [past],
    made at the time that the cache has. *)
Definition cache_from (past : list (Z * option (list WritingExample)))
    (cache : ExamplesCache) : Prop :=
  match examplesCache cache with
  | Some cached =>
      exists j, past !! j = Some (examplesCacheTime cache, Some cached)
  | None => True
  end.

Section RewriteSpec.

Variable toLowerCase : jsstring -> jsstring.
Variable generateRewrite : nat -> option Q -> option Rewrite.
Variable evaluation : nat -> jsstring -> option ParsedResponse.
Variable request : RewriteRequest.

(** [best] is the rewrite of one of the attempts, with the score of its
    evaluation: the text of the rewrite is not empty and not the text of
    the request, and it was evaluated. *)
Definition of_attempt (best : BestResult) : Prop :=
  exists attempt previousScore rewriteResult parsed_response result,
    1 <= attempt <= MAX_RETRIES
    /\ generateRewrite attempt previousScore = Some rewriteResult
    /\ rewrite_suggestedText rewriteResult <> []
    /\ rewrite_suggestedText rewriteResult <> text request
    /\ evaluation attempt (rewrite_suggestedText rewriteResult) = Some parsed_response
    /\ evaluateText toLowerCase (rewrite_suggestedText rewriteResult)
         (request_sectionType request) (Some parsed_response)
       = Some result
    /\ best = with_score rewriteResult result.

(** The text of a rewrite can be evaluated: it is not empty and not the
    text of the request. *)
Definition evaluable (rewriteResult : Rewrite) : bool :=
  (0 <? length (rewrite_suggestedText rewriteResult))
  && negb (jsstring_eqb (rewrite_suggestedText rewriteResult) (text request)).

(** The result keeps the text of the request. *)
Definition keeps_text (result : RewriteResult) : Prop :=
  suggestedText result = text request
  /\ changes result = []
  /\ constraintWarning result = None
  /\ suggestedScore result = originalScore request
  /\ criteriaComparison result = None.

(** The result is the rewrite of one of the attempts, and its score, a
    score between 1 and 10, is not below the original score. *)
Definition is_attempt (result : RewriteResult) : Prop :=
  exists best score,
    of_attempt best
    /\ suggestedText result = best_suggestedText best
    /\ changes result = best_changes best
    /\ constraintWarning result = best_constraintWarning best
    /\ thinkingSteps result = best_thinkingSteps best
    /\ suggestedScore result = Some score
    /\ (1 <= score)%Q /\ (score <= 10)%Q
    /\ (forall original,
          originalScore request = Some original -> (original <= score)%Q).

End RewriteSpec.

(** The answer of the restructure route for a text of fewer than two
    paragraphs. *)
Definition one_paragraph : RestructureResult :=
  {| suggestions := [];
     overallCoherence := 10%Q;
     restructure_summary :=
       str "Text has only one paragraph. No restructuring needed." |}.

(** The text has no line feed. *)
Definition no_line_feed (text : jsstring) : bool :=
  forallb (fun c => negb (c =? 10)%N) text.

(** A model that would move a sentence, for the cases below. *)
Definition moves (quoted : string) (paragraphs : list jsstring)
    : option (option RawResult) :=
  Some (Some {| raw_suggestions :=
                  Some [{| raw_id := None; raw_sentence := Some (str quoted);
                           raw_fromParagraph := 1; raw_toParagraph := 2;
                           raw_reason := str "It belongs there." |}];
                raw_overallCoherence := Some 7%Q; raw_summary := None |}).

Definition uuid (index : nat) : jsstring := str "00000000-0000-4000-8000-000000000000".

(** The evaluations of a section type. *)
Definition of_type (key : jsstring) (evaluations : list EvaluationRecord)
    : list EvaluationRecord :=
  List.filter (fun e => jsstring_eqb (record_sectionType e) key) evaluations.

(** The evaluations that a map has counted, and the sum of the scores
    that it holds. *)
Definition counted (sectionMap : list (jsstring * SectionData)) : nat :=
  fold_right (fun entry n => count (snd entry) + n) 0 sectionMap.

Definition held (sectionMap : list (jsstring * SectionData)) : Q :=
  fold_right (fun entry q => (total (scores (snd entry)) + q)%Q) 0%Q sectionMap.

(** The same for the sections of an answer: the sum of the counts, and
    the sum of the scores, each as often as its section was evaluated. *)
Definition counts (nodes : list SectionNode) : nat :=
  fold_right (fun node n => node_count node + n) 0 nodes.

Definition weighted (nodes : list SectionNode) : Q :=
  fold_right
    (fun node q => (node_score node * Readability.of_nat (node_count node) + q)%Q)
    0%Q nodes.

(** The map after the loop has passed the evaluations [done]. *)
Definition grouped (done : list EvaluationRecord)
    (sectionMap : list (jsstring * SectionData)) : Prop :=
  List.NoDup (List.map fst sectionMap)
  /\ (forall key,
        match map_get sectionMap key with
        | Some data =>
            of_type key done <> []
            /\ scores data = List.map record_overallScore (of_type key done)
            /\ count data = length (of_type key done)
        | None => of_type key done = []
        end)
  /\ counted sectionMap = length done
  /\ (held sectionMap
      == fold_left (fun sum e => sum + record_overallScore e) done 0)%Q.

(** An evaluation, for the cases below. *)
Definition record_of (sectionType : string) (overallScore : Q) : EvaluationRecord :=
  {| record_sectionType := str sectionType; record_overallScore := overallScore;
     record_keyPoints := None; record_createdAt := None |}.

(** A model for the cases below: it answers every attempt with the text
    [suggested] and no criteria, so every criterion gets the score 5. *)
Definition rewrites_to (suggested : jsstring) (attempt : nat)
    (previousScore : option Q) : option Rewrite :=
  Some {| rewrite_thinkingSteps := []; rewrite_suggestedText := suggested;
          rewrite_changes := []; rewrite_constraintWarning := None |}.

Definition scores_five (attempt : nat) (suggested : jsstring)
    : option ParsedResponse :=
  Some {| criteria := []; generalFeedback := None; keyPoints := None;
          supportArguments := None |}.

(** The answer of that model. *)
Definition no_criteria : ParsedResponse :=
  {| criteria := []; generalFeedback := None; keyPoints := None;
     supportArguments := None |}.

(** A model that cannot evaluate. *)
Definition no_evaluation (attempt : nat) (suggested : jsstring)
    : option ParsedResponse := None.

Definition request_of (text : string) (originalScore : option Q) : RewriteRequest :=
  {| text := str text; request_sectionType := paragraph;
     originalScore := originalScore; evaluationFeedback := None |}.

End RoutesSpec.

Module ClientSpec.
Import Client.

(** The classes of a segment that was removed and of one that was
    added. *)
Definition struck : option string :=
  Some "line-through text-red-600 dark:text-red-400 bg-red-500/10"%string.

Definition bold : option string :=
  Some "font-bold text-emerald-700 dark:text-emerald-400 bg-emerald-500/10"%string.

End ClientSpec.

(** * Properties of the word diff *)

Module WordDiffProofs.
Import WordDiff WordDiffSpec.

Lemma jsstring_eqb_eq (a b : jsstring) : jsstring_eqb a b = true <-> a = b.
Proof.
  revert b. induction a as [|x a IH]; intros [|y b]; simpl; split; try easy.
  - unfold char_eqb. rewrite andb_true_iff, N.eqb_eq, IH. intros [-> ->]. reflexivity.
  - intros [= -> ->]. unfold char_eqb. rewrite N.eqb_refl. simpl. apply IH. reflexivity.
Qed.

Lemma jsstring_eqb_refl (a : jsstring) : jsstring_eqb a a = true.
Proof. apply jsstring_eqb_eq. reflexivity. Qed.

(** *** The split at work *)

Example split_ws_keep_example :
  split_ws_keep (str " a  b ")
  = [str ""; str " "; str "a"; str "  "; str "b"; str " "; str ""].
Proof. reflexivity. Qed.

Example split_ws_example :
  split_ws (str " a  b ") = [str ""; str "a"; str "b"; str ""].
Proof. reflexivity. Qed.

Example computeWordDiff_change_example :
  computeWordDiff (str "a b") (str "a c")
  = [ {| type := equal; text := str "a " |};
      {| type := removed; text := str "b" |};
      {| type := added; text := str "c" |} ].
Proof. vm_compute. reflexivity. Qed.

(** *** The words put together give the text back *)

Lemma split_word_run_concat (s : jsstring) :
  (forall word, concat (split_word true word s) = rev word ++ s)
  /\ (forall run, concat (split_run true run s) = rev run ++ s).
Proof.
  induction s as [|c s [IHw IHr]]; split; intros acc; simpl.
  - rewrite !app_nil_r. reflexivity.
  - rewrite !app_nil_r. reflexivity.
  - destruct (is_space c); simpl.
    + rewrite IHr. reflexivity.
    + rewrite IHw. simpl. rewrite <- app_assoc. reflexivity.
  - destruct (is_space c); simpl.
    + rewrite IHr. simpl. rewrite <- app_assoc. reflexivity.
    + rewrite IHw. reflexivity.
Qed.

Lemma split_ws_keep_concat (s : jsstring) : concat (split_ws_keep s) = s.
Proof. unfold split_ws_keep. rewrite (proj1 (split_word_run_concat s)). reflexivity. Qed.

(** *** The equations of the backtracking loop *)

Section Backtrack.
Variables a b : list jsstring.
Variable dp : list (list nat).

Lemma backtrack_0_0 ops : backtrack a b dp 0 0 ops = ops.
Proof. reflexivity. Qed.

Lemma backtrack_0_S j ops :
  backtrack a b dp 0 (S j) ops
  = backtrack a b dp 0 j ({| type := added; text := word_at b j |} :: ops).
Proof. reflexivity. Qed.

Lemma backtrack_S_0 i ops :
  backtrack a b dp (S i) 0 ops
  = backtrack a b dp i 0 ({| type := removed; text := word_at a i |} :: ops).
Proof. reflexivity. Qed.

Lemma backtrack_S_S i j ops :
  backtrack a b dp (S i) (S j) ops
  = if jsstring_eqb (word_at a i) (word_at b j)
    then backtrack a b dp i j ({| type := equal; text := word_at a i |} :: ops)
    else if dp_get dp i (S j) <=? dp_get dp (S i) j
    then backtrack a b dp (S i) j ({| type := added; text := word_at b j |} :: ops)
    else backtrack a b dp i (S j) ({| type := removed; text := word_at a i |} :: ops).
Proof. reflexivity. Qed.

End Backtrack.

Lemma firstn_S_word (l : list jsstring) (i : nat) :
  i < length l -> firstn (S i) l = firstn i l ++ [word_at l i].
Proof.
  revert i. induction l as [|x l IH]; intros i Hi; simpl in *; [lia|].
  destruct i as [|i]; [reflexivity|].
  unfold word_at in *. simpl. rewrite <- IH by lia. reflexivity.
Qed.

Lemma original_of_cons (x : DiffSegment) (l : list DiffSegment) :
  original_of (x :: l)
  = (if SegmentType_eqb (type x) added then [] else text x) ++ original_of l.
Proof. unfold original_of. simpl. destruct (SegmentType_eqb (type x) added); reflexivity. Qed.

Lemma suggested_of_cons (x : DiffSegment) (l : list DiffSegment) :
  suggested_of (x :: l)
  = (if SegmentType_eqb (type x) removed then [] else text x) ++ suggested_of l.
Proof. unfold suggested_of. simpl. destruct (SegmentType_eqb (type x) removed); reflexivity. Qed.

Lemma original_of_app (l1 l2 : list DiffSegment) :
  original_of (l1 ++ l2) = original_of l1 ++ original_of l2.
Proof.
  induction l1 as [|x l1 IH]; [reflexivity|].
  simpl. rewrite !original_of_cons, IH, app_assoc. reflexivity.
Qed.

Lemma suggested_of_app (l1 l2 : list DiffSegment) :
  suggested_of (l1 ++ l2) = suggested_of l1 ++ suggested_of l2.
Proof.
  induction l1 as [|x l1 IH]; [reflexivity|].
  simpl. rewrite !suggested_of_cons, IH, app_assoc. reflexivity.
Qed.

Lemma concat_snoc (l : list jsstring) (x : jsstring) : concat (l ++ [x]) = concat l ++ x.
Proof. rewrite concat_app. simpl. rewrite app_nil_r. reflexivity. Qed.

(** The operations, read for one side, spell the words of that side. *)
Lemma backtrack_sides (a b : list jsstring) (dp : list (list nat)) (i : nat) :
  forall j ops, i <= length a -> j <= length b ->
    original_of (backtrack a b dp i j ops) = concat (firstn i a) ++ original_of ops
    /\ suggested_of (backtrack a b dp i j ops) = concat (firstn j b) ++ suggested_of ops.
Proof.
  induction i as [|i IHi]; intros j; induction j as [|j IHj]; intros ops Hi Hj.
  - rewrite backtrack_0_0. split; reflexivity.
  - rewrite backtrack_0_S.
    destruct (IHj ({| type := added; text := word_at b j |} :: ops)) as [E1 E2]; [lia..|].
    rewrite E1, E2, original_of_cons, suggested_of_cons. simpl.
    rewrite (firstn_S_word b j) by lia. rewrite concat_snoc, <- app_assoc.
    split; reflexivity.
  - rewrite backtrack_S_0.
    destruct (IHi 0 ({| type := removed; text := word_at a i |} :: ops)) as [E1 E2]; [lia..|].
    rewrite E1, E2, original_of_cons, suggested_of_cons. simpl.
    rewrite (firstn_S_word a i) by lia. rewrite concat_snoc, <- app_assoc.
    split; reflexivity.
  - rewrite backtrack_S_S.
    destruct (jsstring_eqb (word_at a i) (word_at b j)) eqn:E.
    + apply jsstring_eqb_eq in E.
      destruct (IHi j ({| type := equal; text := word_at a i |} :: ops)) as [E1 E2]; [lia..|].
      rewrite E1, E2, original_of_cons, suggested_of_cons. simpl.
      rewrite (firstn_S_word a i), (firstn_S_word b j) by lia.
      rewrite !concat_snoc, <- !app_assoc, E. split; reflexivity.
    + destruct (dp_get dp i (S j) <=? dp_get dp (S i) j).
      * destruct (IHj ({| type := added; text := word_at b j |} :: ops)) as [E1 E2]; [lia..|].
        rewrite E1, E2, original_of_cons, suggested_of_cons. simpl.
        rewrite (firstn_S_word b j) by lia. rewrite concat_snoc, <- app_assoc.
        split; reflexivity.
      * destruct (IHi (S j) ({| type := removed; text := word_at a i |} :: ops)) as [E1 E2]; [lia..|].
        rewrite E1, E2, original_of_cons, suggested_of_cons. simpl.
        rewrite (firstn_S_word a i) by lia. rewrite concat_snoc, <- app_assoc.
        split; reflexivity.
Qed.

(** *** Merging *)

Lemma merge_op_sides (segments : list DiffSegment) (op : DiffSegment) :
  original_of (merge_op segments op) = original_of segments ++ original_of [op]
  /\ suggested_of (merge_op segments op) = suggested_of segments ++ suggested_of [op].
Proof.
  unfold merge_op. destruct (last segments) as [l|] eqn:El.
  - destruct (SegmentType_eqb (type l) (type op)) eqn:Et.
    + apply last_Some in El as [l' ->]. rewrite removelast_last.
      rewrite !original_of_app, !suggested_of_app, !original_of_cons, !suggested_of_cons.
      simpl. unfold original_of, suggested_of. simpl.
      destruct l as [tl xl], op as [to xo]; simpl in *.
      destruct tl, to; try discriminate; simpl; rewrite ?app_nil_r, <- ?app_assoc;
        split; reflexivity.
    + rewrite original_of_app, suggested_of_app. destruct op; split; reflexivity.
  - rewrite original_of_app, suggested_of_app. destruct op; split; reflexivity.
Qed.

Lemma merge_sides (ops segments : list DiffSegment) :
  original_of (fold_left merge_op ops segments) = original_of segments ++ original_of ops
  /\ suggested_of (fold_left merge_op ops segments)
     = suggested_of segments ++ suggested_of ops.
Proof.
  revert segments. induction ops as [|op ops IH]; intros segments; simpl.
  - unfold original_of, suggested_of. simpl. rewrite !app_nil_r. split; reflexivity.
  - destruct (IH (merge_op segments op)) as [E1 E2].
    destruct (merge_op_sides segments op) as [M1 M2].
    rewrite E1, E2, M1, M2, <- !app_assoc.
    change (op :: ops) with ([op] ++ ops).
    rewrite original_of_app, suggested_of_app. split; reflexivity.
Qed.

(** The operations spell both texts. *)
Lemma diff_ops_sides (original suggested : jsstring) :
  original_of (diff_ops original suggested) = original
  /\ suggested_of (diff_ops original suggested) = suggested.
Proof.
  unfold diff_ops.
  destruct (backtrack_sides (split_ws_keep original) (split_ws_keep suggested)
              (dp_fill (split_ws_keep original) (split_ws_keep suggested))
              (length (split_ws_keep original)) (length (split_ws_keep suggested)) []
              (Nat.le_refl _) (Nat.le_refl _)) as [B1 B2].
  rewrite B1, B2, !firstn_all.
  unfold original_of, suggested_of. simpl.
  rewrite !app_nil_r, !split_ws_keep_concat. split; reflexivity.
Qed.

(** C1.  The segments of type [equal] or [removed], put together, are the
    original text; those of type [equal] or [added], put together, are the
    modified text. *)
Theorem computeWordDiff_roundtrip (original suggested : jsstring) :
  original_of (computeWordDiff original suggested) = original
  /\ suggested_of (computeWordDiff original suggested) = suggested.
Proof.
  unfold computeWordDiff.
  destruct (merge_sides (diff_ops original suggested) []) as [E1 E2].
  destruct (diff_ops_sides original suggested) as [D1 D2].
  rewrite E1, E2, D1, D2. split; reflexivity.
Qed.

(** *** The diff of a text with itself *)

Lemma backtrack_same (a : list jsstring) (dp : list (list nat)) (i : nat) :
  forall ops, i <= length a ->
    backtrack a a dp i i ops = List.map equal_op (firstn i a) ++ ops.
Proof.
  induction i as [|i IH]; intros ops Hi; [reflexivity|].
  rewrite backtrack_S_S, jsstring_eqb_refl, IH by lia.
  rewrite (firstn_S_word a i) by lia.
  rewrite List.map_app, <- app_assoc. reflexivity.
Qed.

Lemma merge_equal_ops (ws : list jsstring) :
  forall t, fold_left merge_op (List.map equal_op ws) [equal_op t]
            = [equal_op (t ++ concat ws)].
Proof.
  induction ws as [|w ws IH]; intros t; simpl.
  - rewrite app_nil_r. reflexivity.
  - unfold merge_op at 2. simpl. fold (equal_op (t ++ w)).
    rewrite IH, <- app_assoc. reflexivity.
Qed.

Lemma split_word_nonempty (keep : bool) (s : jsstring) :
  (forall word, split_word keep word s <> [])
  /\ (forall run, split_run keep run s <> []).
Proof.
  induction s as [|c s [IHw IHr]]; split; intros acc; simpl.
  - discriminate.
  - destruct keep; discriminate.
  - destruct (is_space c); [discriminate | apply IHw].
  - destruct (is_space c); [apply IHr|]. destruct keep; [discriminate | apply IHw].
Qed.

(** C8.  The diff of a text with itself is one segment of type [equal]
    that holds the whole text. *)
Theorem computeWordDiff_same (s : jsstring) :
  computeWordDiff s s = [{| type := equal; text := s |}].
Proof.
  unfold computeWordDiff, diff_ops.
  rewrite backtrack_same by lia. rewrite firstn_all, app_nil_r.
  pose proof (split_ws_keep_concat s) as Hc.
  destruct (split_ws_keep s) as [|w ws] eqn:E.
  - exfalso. revert E. apply (proj1 (split_word_nonempty true s)).
  - simpl. unfold merge_op at 2. simpl. fold (equal_op w).
    rewrite merge_equal_ops. simpl in Hc. rewrite Hc. reflexivity.
Qed.

(** *** The example of the specification *)

(** C7, as the specification has it, fails: the blank goes with
    [brown] on its left, not on its right. *)
Lemma computeWordDiff_example_not_as_stated :
  computeWordDiff (str "The quick fox") (str "The quick brown fox")
  <> [ {| type := equal; text := str "The quick " |};
       {| type := added; text := str "brown " |};
       {| type := equal; text := str "fox" |} ].
Proof. vm_compute. discriminate. Qed.

(** C7, amended.  The backtracking starts at the end, so the blank
    before [fox] is matched first and the added words are the blank and
    [brown] before it. *)
Theorem computeWordDiff_example :
  computeWordDiff (str "The quick fox") (str "The quick brown fox")
  = [ {| type := equal; text := str "The quick" |};
      {| type := added; text := str " brown" |};
      {| type := equal; text := str " fox" |} ].
Proof. vm_compute. reflexivity. Qed.

(** *** The table of the two loops *)

Lemma lcs_0_l a b j : lcs a b 0 j = 0.
Proof. destruct j; reflexivity. Qed.

Lemma lcs_0_r a b i : lcs a b i 0 = 0.
Proof. destruct i; reflexivity. Qed.

Lemma lcs_S_S a b i j :
  lcs a b (S i) (S j)
  = if jsstring_eqb (word_at a i) (word_at b j)
    then lcs a b i j + 1
    else Nat.max (lcs a b i (S j)) (lcs a b (S i) j).
Proof. reflexivity. Qed.

Lemma dp_get_set (dp : list (list nat)) (i j v i' j' : nat) (w : nat) :
  i < length dp -> Forall (fun row => length row = w) dp -> j < w ->
  dp_get (dp_set dp i j v) i' j'
  = if (i =? i') && (j =? j') then v else dp_get dp i' j'.
Proof.
  intros Hi Hrows Hj. unfold dp_set, dp_get.
  destruct (dp !! i) as [row|] eqn:E.
  2:{ apply lookup_ge_None in E. lia. }
  assert (length row = w) as Hrow.
  { rewrite Forall_lookup in Hrows. apply (Hrows i row E). }
  destruct (Nat.eqb_spec i i') as [<-|Hne]; simpl.
  - rewrite list_lookup_insert_eq by assumption.
    destruct (Nat.eqb_spec j j') as [<-|Hne].
    + rewrite list_lookup_insert_eq by lia. reflexivity.
    + rewrite list_lookup_insert_ne by assumption. rewrite E. reflexivity.
  - rewrite list_lookup_insert_ne by assumption. reflexivity.
Qed.

Lemma dp_set_dims (dp : list (list nat)) (i j v : nat) (w : nat) :
  Forall (fun row => length row = w) dp ->
  length (dp_set dp i j v) = length dp
  /\ Forall (fun row => length row = w) (dp_set dp i j v).
Proof.
  intros Hrows. unfold dp_set. destruct (dp !! i) as [row|] eqn:E; [|easy].
  split; [apply length_insert|].
  apply Forall_insert; [assumption|]. rewrite length_insert.
  rewrite Forall_lookup in Hrows. apply (Hrows i row E).
Qed.

Lemma filled_cell a b i j dp :
  1 <= i <= length a -> 1 <= j <= length b ->
  filled a b i (j - 1) dp -> filled a b i j (dp_cell a b dp i j).
Proof.
  intros Hi Hj (Hlen & Hrows & Hget).
  assert (exists v, dp_cell a b dp i j = dp_set dp i j v /\ v = lcs a b i j) as (v & -> & Hv).
  { unfold dp_cell. destruct i as [|i]; [lia|]. destruct j as [|j]; [lia|].
    rewrite lcs_S_S.
    replace (S i - 1) with i in * by lia. replace (S j - 1) with j in * by lia.
    rewrite !Hget by lia.
    replace (i <? S i) with true by (symmetry; apply Nat.ltb_lt; lia).
    rewrite Nat.eqb_refl, Nat.leb_refl, orb_true_r. simpl orb.
    destruct (jsstring_eqb (word_at a i) (word_at b j)); eexists; split; reflexivity. }
  destruct (dp_set_dims dp i j v _ Hrows) as [L1 L2].
  split; [lia|]. split; [assumption|].
  intros i' j' Hi' Hj'.
  rewrite (dp_get_set dp i j v i' j' (length b + 1)) by (assumption || lia).
  rewrite Hget by assumption.
  destruct (Nat.eqb_spec i i') as [<-|Hne]; simpl.
  - rewrite Nat.eqb_refl, Nat.ltb_irrefl. simpl.
    destruct (Nat.eqb_spec j j') as [<-|Hne].
    + replace (j <=? j) with true by (symmetry; apply Nat.leb_le; lia). assumption.
    + destruct (Nat.leb_spec j' (j - 1)), (Nat.leb_spec j' j); try reflexivity; lia.
  - replace (i' =? i) with false by (symmetry; apply Nat.eqb_neq; lia). reflexivity.
Qed.

Lemma filled_row a b i :
  1 <= i <= length a ->
  forall len start dp, 1 <= start -> start + len = length b + 1 ->
    filled a b i (start - 1) dp ->
    filled a b i (length b)
      (fold_left (fun dp j => dp_cell a b dp i j) (seq start len) dp).
Proof.
  intros Hi. induction len as [|len IH]; intros start dp Hs Hlen Hf; simpl.
  - replace (length b) with (start - 1) by lia. assumption.
  - apply IH; [lia | lia |]. simpl. rewrite Nat.sub_0_r.
    apply filled_cell; [assumption | lia | assumption].
Qed.

Lemma filled_next_row a b i dp :
  filled a b i (length b) dp -> filled a b (S i) 0 dp.
Proof.
  intros (Hlen & Hrows & Hget). split; [assumption|]. split; [assumption|].
  intros i' j' Hi' Hj'. rewrite Hget by assumption.
  destruct (Nat.ltb_spec i' i), (Nat.ltb_spec i' (S i)),
    (Nat.eqb_spec i' i), (Nat.eqb_spec i' (S i)),
    (Nat.leb_spec j' (length b)), (Nat.leb_spec j' 0); simpl; try reflexivity; try lia.
  replace j' with 0 by lia. rewrite lcs_0_r. reflexivity.
Qed.

Lemma filled_rows a b :
  forall len start dp, 1 <= start -> start + len = length a + 1 ->
    filled a b (start - 1) (length b) dp ->
    filled a b (length a) (length b)
      (fold_left
         (fun dp i => fold_left (fun dp j => dp_cell a b dp i j) (seq 1 (length b)) dp)
         (seq start len) dp).
Proof.
  induction len as [|len IH]; intros start dp Hs Hlen Hf; simpl.
  - replace (length a) with (start - 1) by lia. assumption.
  - apply IH; [lia | lia |]. simpl. rewrite Nat.sub_0_r.
    apply filled_row; [lia | lia | lia |]. simpl.
    replace start with (S (start - 1)) at 1 by lia.
    apply filled_next_row. assumption.
Qed.

Lemma filled_init a b : filled a b 0 (length b) (dp_init (length a) (length b)).
Proof.
  unfold dp_init. split; [apply length_replicate|]. split.
  - apply Forall_replicate. apply length_replicate.
  - intros i' j' Hi' Hj'.
    assert (dp_get (replicate (length a + 1) (replicate (length b + 1) 0)) i' j' = 0) as ->.
    { unfold dp_get. rewrite lookup_replicate_2 by lia.
      rewrite lookup_replicate_2 by lia. reflexivity. }
    destruct i'; simpl; [|reflexivity].
    destruct (j' <=? length b); [rewrite lcs_0_l|]; reflexivity.
Qed.

(** The table that the two loops leave holds the recurrence of the
    longest common subsequence in every cell. *)
Lemma dp_fill_lcs (a b : list jsstring) (i j : nat) :
  i <= length a -> j <= length b -> dp_get (dp_fill a b) i j = lcs a b i j.
Proof.
  intros Hi Hj.
  destruct (filled_rows a b (length a) 1 (dp_init (length a) (length b)))
    as (_ & _ & Hget); [lia | lia | apply filled_init |].
  unfold dp_fill. rewrite Hget by assumption.
  destruct (Nat.ltb_spec i (length a)); simpl; [reflexivity|].
  replace (i =? length a) with true by (symmetry; apply Nat.eqb_eq; lia).
  replace (j <=? length b) with true by (symmetry; apply Nat.leb_le; lia).
  reflexivity.
Qed.

(** *** Words and runs of whitespace *)

Lemma forallb_rev {A} (p : A -> bool) (l : list A) : forallb p (rev l) = forallb p l.
Proof.
  induction l as [|x l IH]; [reflexivity|].
  simpl. rewrite forallb_app, IH. simpl. rewrite andb_true_r. apply andb_comm.
Qed.

Lemma split_word_run_shape (s : jsstring) :
  (forall word, is_word_token word ->
     exists w tokens, split_word true word s = w :: tokens
       /\ is_word_token w /\ runs_words tokens /\ (word <> [] -> w <> []))
  /\ (forall run, is_run_token run -> runs_words (split_run true run s)).
Proof.
  induction s as [|c s [IHw IHr]]; split.
  - intros word Hw. exists (rev word), []. simpl. unfold is_word_token in *.
    rewrite forallb_rev. repeat split; try assumption.
    intros Hne E. apply Hne. destruct word; [reflexivity|]. simpl in E.
    destruct (rev word); discriminate.
  - intros run [Hne Hr]. simpl. unfold is_run_token, is_word_token.
    rewrite forallb_rev. repeat split; try assumption; try easy.
    intros E. apply Hne. destruct run; [reflexivity|]. simpl in E.
    destruct (rev run); discriminate.
  - intros word Hw. simpl. destruct (is_space c) eqn:Ec.
    + exists (rev word), (split_run true [c] s). unfold is_word_token in *.
      rewrite forallb_rev. repeat split; try assumption.
      * apply IHr. split; [discriminate|]. simpl. rewrite Ec. reflexivity.
      * intros Hne E. apply Hne. destruct word; [reflexivity|]. simpl in E.
        destruct (rev word); discriminate.
    + destruct (IHw (c :: word)) as (w & tokens & E & H1 & H2 & H3).
      { unfold is_word_token in *. simpl. rewrite Ec, Hw. reflexivity. }
      exists w, tokens. repeat split; try assumption.
      intros _. apply H3. discriminate.
  - intros run [Hne Hr]. simpl. destruct (is_space c) eqn:Ec.
    + apply IHr. split; [discriminate|]. simpl. rewrite Ec, Hr. reflexivity.
    + destruct (IHw [c]) as (w & tokens & E & H1 & H2 & H3).
      { unfold is_word_token. simpl. rewrite Ec. reflexivity. }
      rewrite E. simpl. unfold is_run_token. rewrite forallb_rev.
      repeat split; try assumption.
      * intros E'. apply Hne. destruct run; [reflexivity|]. simpl in E'.
        destruct (rev run); discriminate.
      * intros _. apply H3. discriminate.
Qed.

Lemma split_ws_keep_shape (s : jsstring) : words_runs (split_ws_keep s).
Proof.
  destruct (proj1 (split_word_run_shape s) []) as (w & tokens & E & H1 & H2 & _);
    [reflexivity|].
  unfold split_ws_keep. rewrite E. split; assumption.
Qed.

(** *** Merging, from the front *)

Lemma segment_eta (op : DiffSegment) : {| type := type op; text := text op |} = op.
Proof. destruct op; reflexivity. Qed.

Lemma merge_coalesce (ops : list DiffSegment) :
  forall pre cur,
    fold_left merge_op ops (pre ++ [cur]) = pre ++ coalesce cur ops.
Proof.
  induction ops as [|op ops IH]; intros pre cur; [reflexivity|].
  simpl. unfold merge_op at 2. rewrite last_snoc, removelast_last.
  destruct (SegmentType_eqb (type cur) (type op)).
  - apply IH.
  - rewrite (IH (pre ++ [cur])), <- app_assoc. reflexivity.
Qed.

Lemma computeWordDiff_coalesce (original suggested : jsstring) :
  computeWordDiff original suggested
  = match diff_ops original suggested with
    | [] => []
    | op :: ops => coalesce op ops
    end.
Proof.
  unfold computeWordDiff. destruct (diff_ops original suggested) as [|op ops]; [reflexivity|].
  simpl. unfold merge_op at 2. simpl. rewrite segment_eta.
  apply (merge_coalesce ops [] op).
Qed.

Lemma coalesce_head (ops : list DiffSegment) :
  forall cur, exists t rest, coalesce cur ops = {| type := type cur; text := t |} :: rest.
Proof.
  induction ops as [|op ops IH]; intros cur; simpl.
  - exists (text cur), []. destruct cur; reflexivity.
  - destruct (SegmentType_eqb (type cur) (type op)).
    + apply (IH {| type := type cur; text := text cur ++ text op |}).
    + exists (text cur), (coalesce {| type := type op; text := text op |} ops).
      destruct cur; reflexivity.
Qed.

Lemma SegmentType_eqb_eq (x y : SegmentType) : SegmentType_eqb x y = true <-> x = y.
Proof. destruct x, y; simpl; split; congruence. Qed.

Lemma coalesce_alternating (ops : list DiffSegment) :
  forall cur, alternating (coalesce cur ops).
Proof.
  induction ops as [|op ops IH]; intros cur; simpl; [exact I|].
  destruct (SegmentType_eqb (type cur) (type op)) eqn:E; [apply IH|].
  pose proof (IH {| type := type op; text := text op |}) as Ha.
  destruct (coalesce_head ops {| type := type op; text := text op |}) as (t & rest & Eh).
  rewrite Eh in *. simpl. split; [|assumption].
  intros Heq. simpl in Heq. apply SegmentType_eqb_eq in Heq. congruence.
Qed.

(** *** The table holds the longest common subsequences *)

Lemma sublist_snoc_r (c l : list jsstring) (x : jsstring) :
  c `sublist_of` l ++ [x] ->
  c `sublist_of` l \/ exists c', c = c' ++ [x] /\ c' `sublist_of` l.
Proof.
  intros H. apply sublist_app_r in H as (c1 & c2 & -> & H1 & H2).
  apply sublist_cons_r in H2 as [H2|(c' & -> & H2)].
  - apply sublist_nil_r in H2 as ->. left. rewrite app_nil_r. assumption.
  - apply sublist_nil_r in H2 as ->. right. exists c1. split; [reflexivity | assumption].
Qed.

Lemma lcs_upper (a b : list jsstring) (i : nat) :
  forall j c, i <= length a -> j <= length b ->
    c `sublist_of` firstn i a -> c `sublist_of` firstn j b ->
    length c <= lcs a b i j.
Proof.
  induction i as [|i IHi]; intros j; induction j as [|j IHj]; intros c Hi Hj Ha Hb.
  - apply sublist_nil_r in Ha as ->. simpl. lia.
  - apply sublist_nil_r in Ha as ->. simpl. lia.
  - apply sublist_nil_r in Hb as ->. simpl. lia.
  - rewrite lcs_S_S.
    rewrite (firstn_S_word a i) in Ha by lia.
    rewrite (firstn_S_word b j) in Hb by lia.
    destruct (jsstring_eqb (word_at a i) (word_at b j)) eqn:E.
    + apply jsstring_eqb_eq in E.
      destruct (sublist_snoc_r _ _ _ Ha) as [Ha'|(c1 & -> & Ha')].
      * destruct (sublist_snoc_r _ _ _ Hb) as [Hb'|(d1 & -> & Hb')].
        -- pose proof (IHi j c ltac:(lia) ltac:(lia) Ha' Hb'). lia.
        -- assert (d1 `sublist_of` firstn i a) as Hd.
           { etrans; [|exact Ha']. apply sublist_inserts_r. reflexivity. }
           pose proof (IHi j d1 ltac:(lia) ltac:(lia) Hd Hb').
           rewrite length_app. simpl. lia.
      * rewrite E in Hb. apply sublist_app_inv_r in Hb.
        pose proof (IHi j c1 ltac:(lia) ltac:(lia) Ha' Hb).
        rewrite length_app. simpl. lia.
    + destruct (sublist_snoc_r _ _ _ Ha) as [Ha'|(c1 & -> & Ha')].
      * assert (c `sublist_of` firstn (S j) b) as Hb'.
        { rewrite (firstn_S_word b j) by lia. assumption. }
        pose proof (IHi (S j) c ltac:(lia) ltac:(lia) Ha' Hb'). lia.
      * destruct (sublist_snoc_r _ _ _ Hb) as [Hb'|(d1 & Ed & Hb')].
        -- assert (c1 ++ [word_at a i] `sublist_of` firstn (S i) a) as Ha''.
           { rewrite (firstn_S_word a i) by lia. apply sublist_app; [assumption | reflexivity]. }
           pose proof (IHj (c1 ++ [word_at a i]) ltac:(lia) ltac:(lia) Ha'' Hb'). lia.
        -- apply app_inj_tail in Ed as [_ Ed]. rewrite Ed, jsstring_eqb_refl in E.
           discriminate.
Qed.

Lemma lcs_common (a b : list jsstring) (i : nat) :
  forall j, i <= length a -> j <= length b ->
    exists c, c `sublist_of` firstn i a /\ c `sublist_of` firstn j b
              /\ length c = lcs a b i j.
Proof.
  induction i as [|i IHi]; intros j; induction j as [|j IHj]; intros Hi Hj;
    try (exists []; repeat split; apply sublist_nil_l).
  rewrite lcs_S_S.
  destruct (jsstring_eqb (word_at a i) (word_at b j)) eqn:E.
  - apply jsstring_eqb_eq in E.
    destruct (IHi j) as (c & Ha & Hb & Hc); [lia..|].
    exists (c ++ [word_at a i]).
    rewrite (firstn_S_word a i), (firstn_S_word b j) by lia.
    split; [apply sublist_app; [assumption | reflexivity]|].
    split; [rewrite E; apply sublist_app; [assumption | reflexivity]|].
    rewrite length_app. simpl. lia.
  - destruct (Nat.max_spec (lcs a b i (S j)) (lcs a b (S i) j)) as [[_ ->]|[_ ->]].
    + destruct IHj as (c & Ha & Hb & Hc); [lia..|].
      exists c. split; [assumption|]. split; [|assumption].
      rewrite (firstn_S_word b j) by lia. apply sublist_inserts_r. assumption.
    + destruct (IHi (S j)) as (c & Ha & Hb & Hc); [lia..|].
      exists c. split; [|split; assumption].
      rewrite (firstn_S_word a i) by lia. apply sublist_inserts_r. assumption.
Qed.

Lemma dp_fill_longest_common (a b : list jsstring) (i j : nat) :
  i <= length a -> j <= length b ->
  longest_common (firstn i a) (firstn j b) (dp_get (dp_fill a b) i j).
Proof.
  intros Hi Hj. rewrite dp_fill_lcs by assumption. split.
  - apply lcs_common; assumption.
  - intros c. apply lcs_upper; assumption.
Qed.

Lemma backtrack_tie (a b : list jsstring) (dp : list (list nat)) (i j : nat)
    (ops : list DiffSegment) :
  word_at a i <> word_at b j ->
  dp_get dp i (S j) = dp_get dp (S i) j ->
  backtrack a b dp (S i) (S j) ops
  = backtrack a b dp (S i) j (added_op (word_at b j) :: ops).
Proof.
  intros Hne Htie. rewrite backtrack_S_S.
  destruct (jsstring_eqb (word_at a i) (word_at b j)) eqn:E.
  - apply jsstring_eqb_eq in E. contradiction.
  - rewrite Htie, Nat.leb_refl. reflexivity.
Qed.

(** Every cell that the loops and the backtracking read is there: the
    table has a row for every [i <= m] and a cell for every [j <= n]. *)
Lemma dp_fill_defined (a b : list jsstring) (i j : nat) :
  i <= length a -> j <= length b ->
  exists row v, dp_fill a b !! i = Some row /\ row !! j = Some v.
Proof.
  intros Hi Hj.
  destruct (filled_rows a b (length a) 1 (dp_init (length a) (length b)))
    as (Hlen & Hrows & _); [lia | lia | apply filled_init |].
  fold (dp_fill a b) in Hlen, Hrows.
  destruct (lookup_lt_is_Some_2 (dp_fill a b) i) as [row Hrow]; [lia|].
  rewrite Forall_lookup in Hrows. pose proof (Hrows i row Hrow) as Hw.
  destruct (lookup_lt_is_Some_2 row j) as [v Hv]; [lia|].
  exists row, v. split; assumption.
Qed.

(** *** An empty text on one side *)

Lemma backtrack_row0 (a b : list jsstring) (dp : list (list nat)) (j : nat) :
  forall ops, j <= length b ->
    backtrack a b dp 0 j ops = List.map added_op (firstn j b) ++ ops.
Proof.
  induction j as [|j IH]; intros ops Hj; [reflexivity|].
  rewrite backtrack_0_S, IH by lia. rewrite (firstn_S_word b j) by lia.
  rewrite List.map_app, <- app_assoc. reflexivity.
Qed.

Lemma backtrack_col0 (a b : list jsstring) (dp : list (list nat)) (i : nat) :
  forall ops, i <= length a ->
    backtrack a b dp i 0 ops = List.map removed_op (firstn i a) ++ ops.
Proof.
  induction i as [|i IH]; intros ops Hi; [reflexivity|].
  rewrite backtrack_S_0, IH by lia. rewrite (firstn_S_word a i) by lia.
  rewrite List.map_app, <- app_assoc. reflexivity.
Qed.

Lemma coalesce_run (ty : SegmentType) (ws : list jsstring) :
  forall t rest,
    coalesce {| type := ty; text := t |}
      (List.map (fun w => {| type := ty; text := w |}) ws ++ rest)
    = coalesce {| type := ty; text := t ++ concat ws |} rest.
Proof.
  induction ws as [|w ws IH]; intros t rest; simpl.
  - rewrite app_nil_r. reflexivity.
  - replace (SegmentType_eqb ty ty) with true by (destruct ty; reflexivity).
    rewrite IH, app_assoc. reflexivity.
Qed.

Lemma word_at_skipn (l : list jsstring) (lo d : nat) :
  word_at (skipn lo l) d = word_at l (lo + d).
Proof.
  unfold word_at. revert l. induction lo as [|lo IH]; intros l; [reflexivity|].
  destruct l as [|x l]; simpl; [destruct d; reflexivity | apply IH].
Qed.

Lemma firstn_S_skipn (l : list jsstring) (lo d : nat) :
  lo + d < length l ->
  firstn (S d) (skipn lo l) = firstn d (skipn lo l) ++ [word_at l (lo + d)].
Proof.
  intros H. rewrite firstn_S_word by (rewrite length_skipn; lia).
  rewrite word_at_skipn. reflexivity.
Qed.

Lemma word_at_snoc (l : list jsstring) (x : jsstring) :
  word_at (l ++ [x]) (length l) = x.
Proof. unfold word_at. rewrite app_nth2 by lia. rewrite Nat.sub_diag. reflexivity. Qed.

Lemma jsstring_eqb_nil_l (w : jsstring) : w <> [] -> jsstring_eqb [] w = false.
Proof. destruct w; [contradiction | reflexivity]. Qed.

Lemma jsstring_eqb_nil_r (w : jsstring) : w <> [] -> jsstring_eqb w [] = false.
Proof. destruct w; [contradiction | reflexivity]. Qed.

Lemma runs_words_nonempty (tokens : list jsstring) :
  runs_words tokens -> last tokens <> Some [] -> Forall (fun w => w <> []) tokens.
Proof.
  assert (forall n tokens, length tokens <= n -> runs_words tokens ->
            last tokens <> Some [] -> Forall (fun w : jsstring => w <> []) tokens) as H.
  { induction n as [|n IH]; intros [|r [|w tokens']] Hn Hrw Hlast; simpl in *;
      try constructor; try lia; try contradiction.
    - destruct Hrw as ([Hr _] & _). assumption.
    - destruct Hrw as (_ & _ & Hmid & Hrest).
      destruct tokens' as [|x tokens'].
      + constructor; [|constructor]. intros ->. apply Hlast. reflexivity.
      + constructor; [apply Hmid; discriminate|].
        apply IH; [simpl in *; lia | assumption | assumption]. }
  intros. eapply H; eauto.
Qed.

Lemma Forall_word_at (l : list jsstring) (k : nat) :
  Forall (fun w => w <> []) (skipn 1 l) -> 1 <= k < length l -> word_at l k <> [].
Proof.
  intros HF Hk. destruct l as [|x l]; simpl in *; [lia|].
  destruct k as [|k]; [lia|]. unfold word_at. simpl.
  change (drop 0 l) with l in HF.
  rewrite List.Forall_forall in HF. apply HF. apply nth_In. lia.
Qed.

Section EmptyOriginal.
Variable b : list jsstring.
Let dp := dp_fill [[]] b.

Lemma dp_row0 (j : nat) : j <= length b -> dp_get dp 0 j = 0.
Proof. intros Hj. unfold dp. rewrite dp_fill_lcs by (simpl; lia). apply lcs_0_l. Qed.

Lemma backtrack_added_run (lo d : nat) :
  forall ops, lo + d <= length b ->
    (forall k, lo <= k < lo + d -> word_at b k <> []) ->
    backtrack [[]] b dp 1 (lo + d) ops
    = backtrack [[]] b dp 1 lo (List.map added_op (firstn d (skipn lo b)) ++ ops).
Proof.
  induction d as [|d IH]; intros ops Hd Hne.
  - rewrite Nat.add_0_r. reflexivity.
  - replace (lo + S d) with (S (lo + d)) by lia.
    rewrite backtrack_S_S.
    change (word_at [[]] 0) with ([] : jsstring).
    rewrite jsstring_eqb_nil_l by (apply Hne; lia).
    rewrite dp_row0 by lia. simpl Nat.leb. cbv iota.
    rewrite IH by (try lia; intros; apply Hne; lia).
    rewrite firstn_S_skipn by lia.
    rewrite List.map_app, <- app_assoc. reflexivity.
Qed.

End EmptyOriginal.

Lemma computeWordDiff_empty_original (s : jsstring) :
  s <> [] ->
  computeWordDiff [] s = [removed_op []; added_op s]
  \/ computeWordDiff [] s = [equal_op []; added_op s]
  \/ computeWordDiff [] s = [added_op s; equal_op []].
Proof.
  intros Hs. rewrite computeWordDiff_coalesce. unfold diff_ops.
  change (split_ws_keep []) with [[] : jsstring].
  change (length [[] : jsstring]) with 1.
  pose proof (split_ws_keep_shape s) as Hshape.
  pose proof (split_ws_keep_concat s) as Hcat.
  destruct (split_ws_keep s) as [|w0 tokens] eqn:Eb; [contradiction|].
  set (b := w0 :: tokens) in *. destruct Hshape as [_ Hrw].
  destruct (last b) as [[|c l]|] eqn:El.
  - (* the last word is empty *)
    right. right. apply last_Some in El as [b' Eb'].
    rewrite Eb'. rewrite length_app. simpl length.
    replace (length b' + 1) with (S (length b')) by lia.
    rewrite backtrack_S_S.
    change (word_at [[]] 0) with ([] : jsstring).
    rewrite word_at_snoc.
    simpl jsstring_eqb. cbv iota.
    rewrite backtrack_row0 by (rewrite length_app; simpl; lia).
    rewrite firstn_app, firstn_all, Nat.sub_diag. simpl firstn. rewrite app_nil_r.
    rewrite Eb', concat_snoc, app_nil_r in Hcat.
    destruct b' as [|x xs]; [simpl in Hcat; congruence|].
    simpl List.map. simpl app. unfold added_op at 1.
    rewrite coalesce_run. simpl. simpl in Hcat. rewrite Hcat. reflexivity.
  - (* the last word is not empty *)
    assert (Forall (fun w : jsstring => w <> []) tokens) as Hne.
    { apply runs_words_nonempty; [assumption|].
      destruct tokens as [|r tokens']; [discriminate|].
      unfold b in El. simpl in El. simpl. rewrite El. discriminate. }
    assert (backtrack [[]] b (dp_fill [[]] b) 1 (length b) []
            = backtrack [[]] b (dp_fill [[]] b) 1 1 (List.map added_op tokens)) as ->.
    { replace (length b) with (1 + length tokens) by reflexivity.
      rewrite backtrack_added_run.
      - simpl skipn. rewrite firstn_all, app_nil_r. reflexivity.
      - simpl. lia.
      - intros k Hk. apply Forall_word_at; [assumption | simpl; lia]. }
    rewrite backtrack_S_S. change (word_at [[]] 0) with ([] : jsstring).
    change (word_at b 0) with w0.
    destruct w0 as [|c0 w0].
    + right. left. simpl jsstring_eqb. cbv iota. rewrite backtrack_0_0.
      destruct tokens as [|r tokens']; [discriminate|].
      simpl. rewrite <- (app_nil_r (List.map added_op tokens')).
      rewrite coalesce_run. simpl. simpl in Hcat. rewrite Hcat. reflexivity.
    + left. simpl jsstring_eqb. cbv iota.
      rewrite dp_row0 by (simpl; lia). simpl Nat.leb. cbv iota.
      rewrite backtrack_S_0, backtrack_0_0.
      change (word_at [[]] 0) with ([] : jsstring). change (word_at b 0) with (c0 :: w0).
      simpl. rewrite <- (app_nil_r (List.map added_op tokens)).
      rewrite coalesce_run. simpl. simpl in Hcat. rewrite Hcat. reflexivity.
  - apply last_None in El. discriminate.
Qed.

Section EmptySuggested.
Variable a : list jsstring.
Let dp := dp_fill a [[]].

Lemma dp_col0 (i : nat) : i <= length a -> dp_get dp i 0 = 0.
Proof. intros Hi. unfold dp. rewrite dp_fill_lcs by (simpl; lia). apply lcs_0_r. Qed.

Lemma lcs_col1_zero (i : nat) :
  (forall k, k < i -> word_at a k <> []) -> lcs a [[]] i 1 = 0.
Proof.
  induction i as [|i IH]; intros Hne; [reflexivity|].
  rewrite lcs_S_S. change (word_at [[]] 0) with ([] : jsstring).
  rewrite jsstring_eqb_nil_r by (apply Hne; lia).
  rewrite IH by (intros; apply Hne; lia). rewrite lcs_0_r. reflexivity.
Qed.

Lemma lcs_col1_one (i : nat) : word_at a 0 = [] -> lcs a [[]] (S i) 1 = 1.
Proof.
  intros H0. induction i as [|i IH].
  - rewrite lcs_S_S, H0. reflexivity.
  - rewrite lcs_S_S, IH, lcs_0_r.
    destruct (jsstring_eqb (word_at a (S i)) (word_at [[]] 0)); reflexivity.
Qed.

Lemma backtrack_removed_run (lo d : nat) :
  forall ops, word_at a 0 = [] -> 1 <= lo -> lo + d <= length a ->
    (forall k, lo <= k < lo + d -> word_at a k <> []) ->
    backtrack a [[]] dp (lo + d) 1 ops
    = backtrack a [[]] dp lo 1 (List.map removed_op (firstn d (skipn lo a)) ++ ops).
Proof.
  intros ops H0 Hlo. revert ops.
  induction d as [|d IH]; intros ops Hd Hne.
  - rewrite Nat.add_0_r. reflexivity.
  - replace (lo + S d) with (S (lo + d)) by lia.
    rewrite backtrack_S_S.
    change (word_at [[]] 0) with ([] : jsstring).
    rewrite jsstring_eqb_nil_r by (apply Hne; lia).
    rewrite dp_col0 by lia.
    unfold dp at 1. rewrite dp_fill_lcs by (simpl; lia).
    replace (lo + d) with (S (lo + d - 1)) at 1 by lia.
    rewrite lcs_col1_one by assumption. simpl Nat.leb. cbv iota.
    rewrite IH by (try lia; intros; apply Hne; lia).
    rewrite firstn_S_skipn by lia.
    rewrite List.map_app, <- app_assoc. reflexivity.
Qed.

End EmptySuggested.

Lemma computeWordDiff_empty_suggested (s : jsstring) :
  s <> [] ->
  computeWordDiff s [] = [removed_op s; added_op []]
  \/ computeWordDiff s [] = [equal_op []; removed_op s]
  \/ computeWordDiff s [] = [removed_op s; equal_op []].
Proof.
  intros Hs. rewrite computeWordDiff_coalesce. unfold diff_ops.
  change (split_ws_keep []) with [[] : jsstring].
  change (length [[] : jsstring]) with 1.
  pose proof (split_ws_keep_shape s) as Hshape.
  pose proof (split_ws_keep_concat s) as Hcat.
  destruct (split_ws_keep s) as [|w0 tokens] eqn:Ea; [contradiction|].
  set (a := w0 :: tokens) in *. destruct Hshape as [_ Hrw].
  destruct (last a) as [[|c l]|] eqn:El.
  - (* the last word is empty *)
    right. right. apply last_Some in El as [a' Ea'].
    rewrite Ea'. rewrite length_app. simpl length.
    replace (length a' + 1) with (S (length a')) by lia.
    rewrite backtrack_S_S.
    change (word_at [[]] 0) with ([] : jsstring).
    rewrite word_at_snoc.
    simpl jsstring_eqb. cbv iota.
    rewrite backtrack_col0 by (rewrite length_app; simpl; lia).
    rewrite firstn_app, firstn_all, Nat.sub_diag. simpl firstn. rewrite app_nil_r.
    rewrite Ea', concat_snoc, app_nil_r in Hcat.
    destruct a' as [|x xs]; [simpl in Hcat; congruence|].
    simpl List.map. simpl app. unfold removed_op at 1.
    rewrite coalesce_run. simpl. simpl in Hcat. rewrite Hcat. reflexivity.
  - (* the last word is not empty *)
    assert (Forall (fun w : jsstring => w <> []) tokens) as Hne.
    { apply runs_words_nonempty; [assumption|].
      destruct tokens as [|r tokens']; [discriminate|].
      unfold a in El. simpl in El. simpl. rewrite El. discriminate. }
    destruct w0 as [|c0 w0].
    + (* the first word is empty *)
      right. left.
      assert (backtrack a [[]] (dp_fill a [[]]) (length a) 1 []
              = backtrack a [[]] (dp_fill a [[]]) 1 1 (List.map removed_op tokens)) as ->.
      { replace (length a) with (1 + length tokens) by reflexivity.
        rewrite backtrack_removed_run.
        - simpl skipn. rewrite firstn_all, app_nil_r. reflexivity.
        - reflexivity.
        - lia.
        - simpl. lia.
        - intros k Hk. apply Forall_word_at; [assumption | simpl; lia]. }
      rewrite backtrack_S_S. change (word_at [[]] 0) with ([] : jsstring).
      change (word_at a 0) with ([] : jsstring).
      simpl jsstring_eqb. cbv iota. rewrite backtrack_0_0.
      destruct tokens as [|r tokens']; [discriminate|].
      simpl. rewrite <- (app_nil_r (List.map removed_op tokens')).
      rewrite coalesce_run. simpl. simpl in Hcat. rewrite Hcat. reflexivity.
    + (* no word is empty *)
      left.
      assert (forall k, k < length a -> word_at a k <> []) as Hall.
      { intros [|k] Hk; [discriminate|].
        apply Forall_word_at; [assumption | lia]. }
      replace (length a) with (S (length tokens)) by reflexivity.
      rewrite backtrack_S_S. change (word_at [[]] 0) with ([] : jsstring).
      rewrite jsstring_eqb_nil_r by (apply Hall; simpl; lia).
      rewrite !dp_fill_lcs by (simpl; lia).
      rewrite lcs_col1_zero by (intros; apply Hall; simpl; lia).
      rewrite lcs_0_r. simpl Nat.leb. cbv iota.
      rewrite backtrack_col0 by (simpl; lia).
      change (S (length tokens)) with (length a). rewrite firstn_all.
      unfold a at 1. simpl List.map. simpl app. unfold removed_op at 1.
      rewrite coalesce_run. simpl. simpl in Hcat. rewrite Hcat. reflexivity.
  - apply last_None in El. discriminate.
Qed.

(** C6, as the specification has it, fails: with an empty original the
    result is neither the empty list nor the one segment of type [added]. *)
Lemma computeWordDiff_empty_not_as_stated :
  computeWordDiff (str "") (str "abc") <> []
  /\ computeWordDiff (str "") (str "abc") <> [added_op (str "abc")].
Proof. vm_compute. split; discriminate. Qed.

(** C6, amended.  [computeWordDiff] is a total function, every cell of
    the table that it reads is there, and its result is never the empty
    list.  The words of the empty text are the one empty word, so for two
    empty texts the result is the one segment of type [equal] with the
    empty text, and when exactly one text is empty the result has two
    segments: one that holds the whole other text, of type [added] when the
    original is empty and [removed] when the modified text is, and one with
    the empty text. *)
Theorem computeWordDiff_empty_inputs :
  (forall original suggested i j,
     i <= length (split_ws_keep original) -> j <= length (split_ws_keep suggested) ->
     exists row v,
       dp_fill (split_ws_keep original) (split_ws_keep suggested) !! i = Some row
       /\ row !! j = Some v)
  /\ (forall original suggested, computeWordDiff original suggested <> [])
  /\ computeWordDiff [] [] = [equal_op []]
  /\ (forall s, s <> [] ->
        computeWordDiff [] s = [removed_op []; added_op s]
        \/ computeWordDiff [] s = [equal_op []; added_op s]
        \/ computeWordDiff [] s = [added_op s; equal_op []])
  /\ (forall s, s <> [] ->
        computeWordDiff s [] = [removed_op s; added_op []]
        \/ computeWordDiff s [] = [equal_op []; removed_op s]
        \/ computeWordDiff s [] = [removed_op s; equal_op []]).
Proof.
  split; [|split; [|split; [reflexivity|split]]].
  - intros original suggested i j. apply dp_fill_defined.
  - intros original suggested E. unfold computeWordDiff in E.
    destruct (merge_sides (diff_ops original suggested) []) as [E1 E2].
    destruct (diff_ops_sides original suggested) as [D1 D2].
    rewrite E, D1 in E1. rewrite E, D2 in E2.
    cbv in E1, E2. subst original suggested. discriminate E.
  - apply computeWordDiff_empty_original.
  - apply computeWordDiff_empty_suggested.
Qed.

Lemma computeWordDiff_empty_inputs_witness :
  computeWordDiff [] (str "abc") = [removed_op []; added_op (str "abc")]
  \/ computeWordDiff [] (str "abc") = [equal_op []; added_op (str "abc")]
  \/ computeWordDiff [] (str "abc") = [added_op (str "abc"); equal_op []].
Proof.
  apply (proj1 (proj2 (proj2 (proj2 computeWordDiff_empty_inputs))) (str "abc")).
  vm_compute. discriminate.
Defined.

(** *** The steps of the diff *)



End WordDiffProofs.

(** * Properties of the readability analyzer *)

Module ReadabilityProofs.
Import Regex Readability ReadabilitySpec.

(** *** What a match consumes *)

Lemma extends_refl P st : extends P st st.
Proof.
  exists [], []. rewrite Nat.add_0_r, app_nil_r. repeat split. constructor.
Qed.

Lemma extends_trans P st1 st2 st3 :
  extends P st1 st2 -> extends P st2 st3 -> extends P st1 st3.
Proof.
  intros (w1 & n1 & R1 & P1 & F1 & C1 & G1) (w2 & n2 & R2 & P2 & F2 & C2 & G2).
  exists (w1 ++ w2), (n1 ++ n2).
  rewrite R1, R2, P2, P1, C2, C1, length_app, forallb_app, F1, F2, <- !app_assoc.
  repeat split; [lia|]. apply Forall_app. split; assumption.
Qed.

Lemma step_extends (P p : char -> bool) st st' :
  (forall d, p d = true -> P d = true) -> In st' (step p st) -> extends P st st'.
Proof.
  intros Hp. unfold step. destruct (rest st) as [|d s'] eqn:E; [intros []|].
  destruct (p d) eqn:Ed; [|intros []]. intros [<-|[]].
  exists [d], []. simpl. rewrite E, (Hp d Ed), app_nil_r.
  repeat split; [lia|]. constructor.
Qed.

Lemma star_run_extends (P : char -> bool) (body : mstate -> list mstate) :
  (forall st st', In st' (body st) -> extends P st st') ->
  forall fuel st st', In st' (star_run body fuel st) -> extends P st st'.
Proof.
  intros Hbody. induction fuel as [|fuel IH]; intros st st' Hin; simpl in Hin.
  - destruct Hin as [<-|[]]. apply extends_refl.
  - apply in_app_iff in Hin as [Hin|[<-|[]]]; [|apply extends_refl].
    apply in_flat_map in Hin as (st1 & H1 & H2).
    destruct (pos st <? pos st1); [|destruct H2].
    eapply extends_trans; [apply Hbody; eassumption | apply IH; assumption].
Qed.

Lemma run_extends (icase : bool) (P : char -> bool) (r : regex) :
  within icase P r -> forall st st', In st' (run icase r st) -> extends P st st'.
Proof.
  induction r as [|c|p|r1 IH1 r2 IH2|r1 IH1 r2 IH2|r IH|r IH| | |r IH];
    intros Hw st st' Hin; simpl in *.
  - destruct Hin as [<-|[]]. apply extends_refl.
  - eapply step_extends; eassumption.
  - eapply step_extends; eassumption.
  - destruct Hw as [Hw1 Hw2]. apply in_flat_map in Hin as (st1 & H1 & H2).
    eapply extends_trans; [apply IH1 | apply IH2]; eassumption.
  - destruct Hw as [Hw1 Hw2]. apply in_app_iff in Hin as [Hin|Hin];
      [apply IH1 | apply IH2]; assumption.
  - eapply star_run_extends; [|eassumption]. intros. apply IH; assumption.
  - apply in_map_iff in Hin as (st1 & <- & H1).
    destruct (IH Hw st st1 H1) as (w & n & R1 & P1 & F1 & C1 & G1).
    exists w, (n ++ [w]). simpl. rewrite C1, <- app_assoc.
    repeat split; try assumption.
    + rewrite P1, R1. replace (pos st + length w - pos st) with (length w) by lia.
      rewrite firstn_app, firstn_all, Nat.sub_diag. simpl. rewrite app_nil_r. reflexivity.
    + apply Forall_app. split; [assumption|]. constructor; [assumption | constructor].
  - destruct (xorb _ _); [|destruct Hin]. destruct Hin as [<-|[]]. apply extends_refl.
  - destruct (rest st); [|destruct Hin]. destruct Hin as [<-|[]]. apply extends_refl.
  - destruct (run icase r st); [destruct Hin|]. destruct Hin as [<-|[]]. apply extends_refl.
Qed.

Lemma within_true (icase : bool) (r : regex) : within icase (fun _ => true) r.
Proof. induction r; simpl; auto. Qed.

Lemma run_pos_le (icase : bool) (r : regex) st st' :
  In st' (run icase r st) -> pos st <= pos st'.
Proof.
  intros Hin.
  destruct (run_extends icase _ r (within_true icase r) st st' Hin) as (w & _ & _ & -> & _).
  lia.
Qed.

Lemma run_consuming (icase : bool) (r : regex) :
  consuming r = true -> forall st st', In st' (run icase r st) -> pos st < pos st'.
Proof.
  induction r as [|c|p|r1 IH1 r2 IH2|r1 IH1 r2 IH2|r IH|r IH| | |r IH];
    intros Hc st st' Hin; simpl in *; try discriminate.
  - unfold step in Hin. destruct (rest st); [destruct Hin|].
    destruct (lit_eqb icase c n); [|destruct Hin]. destruct Hin as [<-|[]]. simpl. lia.
  - unfold step in Hin. destruct (rest st); [destruct Hin|].
    destruct (p n); [|destruct Hin]. destruct Hin as [<-|[]]. simpl. lia.
  - apply in_flat_map in Hin as (st1 & H1 & H2).
    pose proof (run_pos_le _ _ _ _ H1). pose proof (run_pos_le _ _ _ _ H2).
    apply orb_true_iff in Hc as [Hc|Hc].
    + specialize (IH1 Hc _ _ H1). lia.
    + specialize (IH2 Hc _ _ H2). lia.
  - apply andb_true_iff in Hc as [Hc1 Hc2].
    apply in_app_iff in Hin as [Hin|Hin]; [apply IH1 | apply IH2]; assumption.
  - apply in_map_iff in Hin as (st1 & <- & H1). simpl. apply IH; assumption.
Qed.

(** What a match at one position consumes, and what it captures. *)
Lemma exec_extends (icase : bool) (P : char -> bool) (r : regex)
    (before : option char) (s : jsstring) (len : nat) (captures : list jsstring) :
  within icase P r -> exec icase r before s = Some (len, captures) ->
  len <= length s /\ forallb P (firstn len s) = true
  /\ Forall (fun cp => forallb P cp = true) captures.
Proof.
  intros Hw. unfold exec.
  destruct (run icase r _) as [|st' l] eqn:E; [discriminate|]. intros [= <- <-].
  destruct (run_extends icase P r Hw _ st' ltac:(rewrite E; left; reflexivity))
    as (w & n & R1 & P1 & F1 & C1 & G1).
  simpl in *. subst s. rewrite P1, C1. simpl.
  rewrite firstn_app, firstn_all, Nat.sub_diag, length_app. simpl. rewrite app_nil_r.
  repeat split; [lia | assumption | assumption].
Qed.

Lemma exec_consuming (icase : bool) (r : regex) (before : option char)
    (s : jsstring) (len : nat) (captures : list jsstring) :
  consuming r = true -> exec icase r before s = Some (len, captures) -> 1 <= len.
Proof.
  intros Hc. unfold exec.
  destruct (run icase r _) as [|st' l] eqn:E; [discriminate|]. intros [= <- <-].
  pose proof (run_consuming icase r Hc _ st' ltac:(rewrite E; left; reflexivity)) as H.
  simpl in H. lia.
Qed.

(** No match starts at a unit that [r] cannot consume. *)
Lemma exec_head (icase : bool) (P : char -> bool) (r : regex)
    (before : option char) (s : jsstring) :
  within icase P r -> consuming r = true ->
  match s with [] => True | c :: _ => P c = false end ->
  exec icase r before s = None.
Proof.
  intros Hw Hc Hs. destruct (exec icase r before s) as [[len captures]|] eqn:E;
    [|reflexivity].
  pose proof (exec_consuming _ _ _ _ _ _ Hc E) as Hlen.
  destruct (exec_extends _ _ _ _ _ _ _ Hw E) as (Hle & HP & _).
  destruct s as [|c s]; simpl in *; [lia|].
  destruct len as [|len]; [lia|]. simpl in HP. rewrite Hs in HP. discriminate.
Qed.

(** *** Texts in pieces *)

Lemma flatten_app (l1 l2 : list token) : flatten (l1 ++ l2) = flatten l1 ++ flatten l2.
Proof. apply flat_map_app. Qed.

Lemma flatten_units (w : jsstring) : flatten (List.map Ch w) = w.
Proof. induction w as [|c w IH]; [reflexivity|]. simpl. rewrite IH. reflexivity. Qed.

Lemma plain_not_letter (c : char) : plain c = true -> is_letter c = false.
Proof.
  unfold plain. rewrite !andb_true_iff, negb_true_iff. tauto.
Qed.

Lemma units_ok (P : char -> bool) (w : jsstring) :
  (forall c, P c = true -> plain c = true) ->
  forallb P w = true -> forallb token_ok (List.map Ch w) = true.
Proof.
  intros HP. induction w as [|c w IH]; [reflexivity|]. simpl.
  rewrite andb_true_iff. intros [Hc Hw].
  rewrite (plain_not_letter c (HP c Hc)), IH by assumption. reflexivity.
Qed.

Lemma expand_tokens (P : char -> bool) (template : list piece)
    (captures : list jsstring) :
  (forall c, P c = true -> plain c = true) ->
  template_ok template ->
  Forall (fun cp => forallb P cp = true) captures ->
  exists out, expand template captures = flatten out /\ forallb token_ok out = true.
Proof.
  intros HP Ht Hc. induction Ht as [|p template Hp Ht IH].
  - exists []. split; reflexivity.
  - destruct IH as (out & E & Hok). unfold expand in *. simpl. rewrite E.
    destruct p as [k|s].
    + exists (List.map Ch (nth (k - 1) captures []) ++ out).
      rewrite flatten_app, flatten_units, forallb_app, Hok, andb_true_r.
      split; [reflexivity|]. apply (units_ok P); [assumption|].
      destruct (nth_in_or_default (k - 1) captures []) as [Hin| ->]; [|reflexivity].
      rewrite List.Forall_forall in Hc. apply Hc. assumption.
    + destruct Hp as [-> | ->].
      * exists (Dec :: out). simpl. rewrite Hok. split; reflexivity.
      * exists (Spl :: out). simpl. rewrite Hok. split; reflexivity.
Qed.

Lemma units_first_plain (k : nat) :
  forall tokens, k <= length (flatten tokens) ->
    forallb plain (firstn k (flatten tokens)) = true -> units_first k tokens.
Proof.
  induction k as [|k IH]; intros tokens Hk Hp; [exact I|].
  destruct tokens as [|[c| |] tokens]; simpl in *; try lia; try discriminate.
  apply andb_true_iff in Hp as [_ Hp]. apply IH; [lia | assumption].
Qed.

Section ReplaceTokens.
Variable icase : bool.
Variable P : char -> bool.
Variable r : regex.
Variable template : list piece.
Hypothesis r_within : within icase P r.
Hypothesis r_consuming : consuming r = true.
Hypothesis P_plain : forall c, P c = true -> plain c = true.
Hypothesis template_marks : template_ok template.

Lemma exec_not_plain (before : option char) (c : char) (s : jsstring) :
  plain c = false -> exec icase r before (c :: s) = None.
Proof.
  intros Hc. apply (exec_head icase P); [assumption | assumption |].
  destruct (P c) eqn:E; [|reflexivity]. rewrite (P_plain c E) in Hc. discriminate.
Qed.

Lemma exec_nil (before : option char) : exec icase r before [] = None.
Proof. apply (exec_head icase P); [assumption | assumption | exact I]. Qed.

(** A stretch of units that are in marks is passed as it is. *)
Lemma replace_from_not_plain (w : jsstring) :
  forallb (fun c => negb (plain c)) w = true ->
  forall before s, exists before',
    replace_from icase r template 0 before (w ++ s)
    = w ++ replace_from icase r template 0 before' s.
Proof.
  induction w as [|c w IH]; intros Hw before s; [exists before; reflexivity|].
  simpl in Hw. apply andb_true_iff in Hw as [Hc Hw]. apply negb_true_iff in Hc.
  simpl. rewrite exec_not_plain by assumption.
  destruct (IH Hw (Some c) s) as (before' & ->). exists before'. reflexivity.
Qed.

(** The replacement keeps a text in pieces in pieces. *)
Lemma replace_from_tokens (tokens : list token) :
  forallb token_ok tokens = true ->
  forall skip before, units_first skip tokens ->
    exists out,
      replace_from icase r template skip before (flatten tokens) = flatten out
      /\ forallb token_ok out = true.
Proof.
  induction tokens as [|t tokens IH]; intros Hok skip before Hskip.
  - exists []. simpl. rewrite exec_nil. destruct skip; split; reflexivity.
  - simpl in Hok. apply andb_true_iff in Hok as [Ht Hok].
    destruct t as [c| |].
    + (* a unit *)
      simpl in Ht. simpl. destruct skip as [|skip].
      * destruct (exec icase r before (c :: flatten tokens)) as [[len captures]|] eqn:E.
        -- destruct (exec_extends _ _ _ _ _ _ _ r_within E) as (Hle & HP & Hcaps).
           destruct (expand_tokens P template captures P_plain template_marks Hcaps)
             as (out1 & E1 & Hok1).
           destruct len as [|len].
           ++ destruct (IH Hok 0 (Some c) I) as (out2 & E2 & Hok2).
              exists (out1 ++ Ch c :: out2).
              rewrite E1, E2, flatten_app, forallb_app, Hok1. simpl.
              rewrite Ht, Hok2. split; reflexivity.
           ++ assert (units_first len tokens) as Hu.
              { simpl in Hle, HP. apply andb_true_iff in HP as [_ HP].
                apply units_first_plain; [lia|].
                clear - HP P_plain. revert HP.
                generalize (firstn len (flatten tokens)). intros l.
                induction l as [|x l IHl]; [reflexivity|]. simpl.
                rewrite !andb_true_iff. intros [Hx Hl].
                split; [apply P_plain; assumption | apply IHl; assumption]. }
              destruct (IH Hok len (Some c) Hu) as (out2 & E2 & Hok2).
              exists (out1 ++ out2).
              rewrite E1, E2, flatten_app, forallb_app, Hok1, Hok2.
              split; reflexivity.
        -- destruct (IH Hok 0 (Some c) I) as (out2 & E2 & Hok2).
           exists (Ch c :: out2). simpl. rewrite E2, Ht, Hok2. split; reflexivity.
      * simpl in Hskip. apply (IH Hok skip (Some c) Hskip).
    + (* the mark of a decimal point *)
      destruct skip; [|destruct Hskip].
      change (flatten (Dec :: tokens)) with (DEC ++ flatten tokens).
      destruct (replace_from_not_plain DEC ltac:(reflexivity) before (flatten tokens))
        as (before' & ->).
      destruct (IH Hok 0 before' I) as (out2 & E2 & Hok2).
      exists (Dec :: out2). rewrite E2. simpl. rewrite Hok2. split; reflexivity.
    + (* the mark of a split *)
      destruct skip; [|destruct Hskip].
      change (flatten (Spl :: tokens)) with (SPLIT ++ flatten tokens).
      destruct (replace_from_not_plain SPLIT ltac:(reflexivity) before (flatten tokens))
        as (before' & ->).
      destruct (IH Hok 0 before' I) as (out2 & E2 & Hok2).
      exists (Spl :: out2). rewrite E2. simpl. rewrite Hok2. split; reflexivity.
Qed.

Lemma replace_tokens (tokens : list token) :
  forallb token_ok tokens = true ->
  exists out,
    replace icase r template (flatten tokens) = flatten out
    /\ forallb token_ok out = true.
Proof. intros Hok. apply (replace_from_tokens tokens Hok 0 None I). Qed.

End ReplaceTokens.

(** *** A replacement that finds nothing *)

Section ReplaceNothing.
Variable icase : bool.
Variable r : regex.
Variable template : list piece.
Variable Q : jsstring -> Prop.
Hypothesis Q_tail : forall c s, Q (c :: s) -> Q s.
Hypothesis Q_none : forall before s, Q s -> exec icase r before s = None.

Lemma replace_from_nothing (s : jsstring) :
  Q s -> forall before, replace_from icase r template 0 before s = s.
Proof.
  induction s as [|c s IH]; intros HQ before; simpl.
  - rewrite Q_none by assumption. reflexivity.
  - rewrite Q_none by assumption. rewrite IH by (eapply Q_tail; eassumption).
    reflexivity.
Qed.

Lemma replace_nothing (s : jsstring) : Q s -> replace icase r template s = s.
Proof. intros HQ. apply replace_from_nothing. assumption. Qed.

End ReplaceNothing.

(** *** Units *)

Ltac bool_to_prop :=
  repeat (rewrite ?andb_true_iff, ?orb_true_iff, ?negb_true_iff, ?negb_false_iff,
            ?andb_false_iff, ?orb_false_iff, ?N.leb_le, ?N.leb_gt, ?N.eqb_eq,
            ?N.eqb_neq in * ).

Ltac char_unfold :=
  unfold lit_eqb, canon, plain, is_terminal, is_closer, is_word, dot in *;
  unfold is_letter, is_digit, is_upper, is_lower, is_space in *.

Ltac char_lia :=
  char_unfold;
  repeat match goal with
         | |- context [if ?b then _ else _] => destruct b eqn:?
         | H : context [if ?b then _ else _] |- _ => destruct b eqn:?
         end;
  bool_to_prop; lia.

Lemma lit_eqb_letter (icase : bool) (c d : char) :
  is_letter c = true -> is_letter d = false -> lit_eqb icase c d = false.
Proof. intros Hc Hd. destruct icase; char_lia. Qed.

Lemma lit_eqb_dot (icase : bool) (d : char) : lit_eqb icase dot d = true -> d = dot.
Proof. intros H. destruct icase; char_lia. Qed.

(** *** Membership in the list of the matches *)

Lemma in_step (p : char -> bool) (st st' : mstate) :
  In st' (step p st) ->
  exists d, rest st = d :: rest st' /\ p d = true.
Proof.
  unfold step. destruct (rest st) as [|d s']; [intros []|].
  destruct (p d) eqn:E; [|intros []]. intros [<-|[]]. exists d. split; [reflexivity | assumption].
Qed.

Lemma exec_some_in (icase : bool) (r : regex) (before : option char) (s : jsstring)
    (x : nat * list jsstring) :
  exec icase r before s = Some x ->
  exists st', In st' (run icase r {| prev := before; rest := s; pos := 0; caps := [] |}).
Proof.
  unfold exec. destruct (run icase r _) as [|st' l]; [discriminate|].
  intros _. exists st'. left. reflexivity.
Qed.

Lemma run_starts_with_letter (icase : bool) (r : regex) :
  starts_with_letter r = true ->
  forall st, no_letter_first (rest st) = true -> run icase r st = [].
Proof.
  induction r as [|c|p|r1 IH1 r2 IH2|r1 IH1 r2 IH2|r IH|r IH| | |r IH];
    intros Hr st Hst; simpl in *; try discriminate.
  - unfold step. destruct (rest st) as [|d s']; [reflexivity|].
    simpl in Hst. apply negb_true_iff in Hst.
    rewrite (lit_eqb_letter icase c d Hr Hst). reflexivity.
  - rewrite (IH1 Hr st Hst). reflexivity.
  - apply andb_true_iff in Hr as [Hr1 Hr2].
    rewrite (IH1 Hr1 st Hst), (IH2 Hr2 st Hst). reflexivity.
  - rewrite (IH Hr st Hst). reflexivity.
Qed.

(** *** The abbreviations find nothing in a text without letters *)

Lemma abbreviations_start_with_letter :
  forallb (fun abbr => starts_with_letter (pattern_of_source abbr)) abbreviations = true.
Proof. vm_compute. reflexivity. Qed.

Lemma exec_abbr_none (abbr : jsstring) (before : option char) (s : jsstring) :
  starts_with_letter (pattern_of_source abbr) = true ->
  no_letter_first s = true ->
  exec true (abbr_regex abbr) before s = None.
Proof.
  intros Ha Hs. unfold exec, abbr_regex. simpl cats. simpl run.
  destruct (xorb _ _); [|reflexivity]. simpl flat_map.
  rewrite (run_starts_with_letter true _ Ha) by assumption. reflexivity.
Qed.

Lemma has_letter_tail (c : char) (s : jsstring) :
  has_letter (c :: s) = false -> has_letter s = false.
Proof. unfold has_letter. simpl. rewrite orb_false_iff. tauto. Qed.

Lemma has_letter_first (s : jsstring) : has_letter s = false -> no_letter_first s = true.
Proof.
  destruct s as [|c s]; [reflexivity|]. unfold has_letter. simpl.
  rewrite orb_false_iff. intros [-> _]. reflexivity.
Qed.

Lemma protect_abbreviations_nothing (text : jsstring) :
  has_letter text = false -> protect_abbreviations text = text.
Proof.
  intros Ht. unfold protect_abbreviations.
  pose proof abbreviations_start_with_letter as Ha.
  induction abbreviations as [|abbr l IH]; [reflexivity|].
  simpl in Ha. apply andb_true_iff in Ha as [Ha Hl]. simpl.
  rewrite (replace_nothing true (abbr_regex abbr) _ (fun s => has_letter s = false)).
  - apply IH. assumption.
  - apply has_letter_tail.
  - intros before s Hs. apply exec_abbr_none; [assumption|].
    apply has_letter_first. assumption.
  - assumption.
Qed.

(** *** The decimal points *)

Lemma letters_tokens (s : jsstring) :
  has_letter s = false -> forallb token_ok (List.map Ch s) = true.
Proof.
  induction s as [|c s IH]; [reflexivity|]. unfold has_letter. simpl.
  rewrite orb_false_iff. intros [-> Hs]. apply IH. assumption.
Qed.

Lemma dec_tokens (s : jsstring) :
  has_letter s = false ->
  exists out,
    replace false dec_regex [Cap 1; Txt DEC; Cap 2] s = flatten out
    /\ forallb token_ok out = true.
Proof.
  intros Hs.
  destruct (replace_tokens false (fun c => is_digit c || (c =? 46)%N) dec_regex
              [Cap 1; Txt DEC; Cap 2]) with (tokens := List.map Ch s)
    as (out & E & Hok).
  - unfold dec_regex. cbn [cats within]. repeat split; intros d Hd.
    + rewrite Hd. reflexivity.
    + apply lit_eqb_dot in Hd. subst d. reflexivity.
    + rewrite Hd. reflexivity.
  - reflexivity.
  - intros c Hc. char_lia.
  - constructor; [exact I|]. constructor; [left; reflexivity|].
    constructor; [exact I | constructor].
  - apply letters_tokens. assumption.
  - rewrite flatten_units in E. exists out. split; assumption.
Qed.

(** *** The domains find nothing *)

Lemma flatten_no_letter_first (tokens : list token) :
  forallb token_ok tokens = true -> no_letter_first (flatten tokens) = true.
Proof. destruct tokens as [|[c| |] tokens]; simpl; try reflexivity. rewrite andb_true_iff. tauto. Qed.

Lemma flatten_no_dot_letter (tokens : list token) :
  forallb token_ok tokens = true -> no_dot_letter (flatten tokens) = true.
Proof.
  induction tokens as [|t tokens IH]; [reflexivity|]. simpl.
  rewrite andb_true_iff. intros [Ht Hok]. specialize (IH Hok).
  pose proof (flatten_no_letter_first tokens Hok) as Hf.
  destruct t as [c| |]; simpl; rewrite ?Hf, ?IH, ?andb_false_r; reflexivity.
Qed.

Lemma exec_dom_none (before : option char) (s : jsstring) :
  no_dot_letter s = true -> exec true dom_regex before s = None.
Proof.
  intros Hs. destruct (exec true dom_regex before s) as [x|] eqn:E; [|reflexivity].
  exfalso. apply exec_some_in in E as (st' & Hin).
  unfold dom_regex in Hin. cbn [cats] in Hin.
  set (tlds := Grp domain_endings) in Hin.
  change (In st' (flat_map (run true (Cat (Lit dot) (Cat tlds Bnd)))
                    (run true (Grp (Cls is_word)) {| prev := before; rest := s; pos := 0; caps := [] |})))
    in Hin.
  apply in_flat_map in Hin as (st1 & H1 & Hin).
  simpl in H1. apply in_map_iff in H1 as (st1' & <- & H1).
  apply in_step in H1 as (w & Ew & _). simpl in Ew.
  change (In st' (flat_map (run true (Cat tlds Bnd))
                    (run true (Lit dot) (close_group {| prev := before; rest := s; pos := 0; caps := [] |} st1'))))
    in Hin.
  apply in_flat_map in Hin as (st2 & H2 & Hin).
  simpl in H2. apply in_step in H2 as (d & Ed & Hd). simpl in Ed.
  apply lit_eqb_dot in Hd. subst d.
  change (In st' (flat_map (run true Bnd) (run true tlds st2))) in Hin.
  apply in_flat_map in Hin as (st3 & H3 & _).
  rewrite (run_starts_with_letter true tlds) in H3; [destruct H3 | reflexivity |].
  rewrite Ew, Ed in Hs. simpl in Hs.
  apply andb_true_iff in Hs as [_ Hs]. apply andb_true_iff in Hs as [Hs _].
  apply negb_true_iff in Hs. unfold dot in Hs. simpl in Hs.
  apply negb_false_iff in Hs. assumption.
Qed.

Lemma no_dot_letter_tail (c : char) (s : jsstring) :
  no_dot_letter (c :: s) = true -> no_dot_letter s = true.
Proof. simpl. rewrite andb_true_iff. tauto. Qed.

(** *** The split *)

Lemma split_tokens (tokens : list token) :
  forallb token_ok tokens = true ->
  exists out,
    replace false split_regex [Cap 1; Cap 2; Txt SPLIT] (flatten tokens) = flatten out
    /\ forallb token_ok out = true.
Proof.
  apply (replace_tokens false (fun c => is_terminal c || is_closer c || is_space c)).
  - unfold split_regex, Plus. cbn [cats within].
    repeat split; intros d Hd; rewrite Hd; rewrite ?orb_true_r; reflexivity.
  - reflexivity.
  - intros c Hc. char_lia.
  - constructor; [exact I|]. constructor; [exact I|].
    constructor; [right; reflexivity | constructor].
Qed.

(** The text before the split, for a text without letters. *)
Lemma protect_tokens (text : jsstring) :
  has_letter text = false ->
  exists out,
    replace false split_regex [Cap 1; Cap 2; Txt SPLIT] (protect text) = flatten out
    /\ forallb token_ok out = true.
Proof.
  intros Ht. unfold protect. rewrite protect_abbreviations_nothing by assumption.
  destruct (dec_tokens text Ht) as (out1 & -> & Hok1).
  rewrite (replace_nothing true dom_regex _ (fun s => no_dot_letter s = true)).
  - apply split_tokens. assumption.
  - apply no_dot_letter_tail.
  - intros before s. apply exec_dom_none.
  - apply flatten_no_dot_letter. assumption.
Qed.

(** *** The pieces between the marks of a split *)

Lemma piece_ok_token_ok (tokens : list token) :
  forallb piece_ok tokens = true -> forallb token_ok tokens = true.
Proof.
  induction tokens as [|[c| |] tokens IH]; simpl; try reflexivity; try discriminate.
  - rewrite !andb_true_iff. intros [-> H]. split; [reflexivity | apply IH; assumption].
  - assumption.
Qed.

Lemma is_prefix_letter (p : char) (l s : jsstring) :
  is_letter p = true -> no_letter_first s = true -> is_prefix (p :: l) s = false.
Proof.
  intros Hp Hs. destruct s as [|c s]; [reflexivity|]. simpl in *.
  apply negb_true_iff in Hs.
  destruct (N.eqb_spec p c) as [->|_]; [congruence | reflexivity].
Qed.

Lemma split_lit_from_step (sep piece : jsstring) (c : char) (s : jsstring) :
  split_lit_from sep 0 piece (c :: s)
  = if is_prefix sep (c :: s)
    then rev piece :: split_lit_from sep (length sep - 1) [] s
    else split_lit_from sep 0 (c :: piece) s.
Proof. reflexivity. Qed.

Lemma split_lit_from_tokens (tokens : list token) :
  forallb token_ok tokens = true ->
  forall piece, forallb piece_ok piece = true ->
    exists pieces,
      split_lit_from SPLIT 0 (rev (flatten piece)) (flatten tokens)
      = List.map flatten pieces
      /\ Forall (fun p => forallb piece_ok p = true) pieces.
Proof.
  induction tokens as [|t tokens IH]; intros Hok piece Hp.
  - exists [piece]. simpl. rewrite rev_involutive.
    split; [reflexivity|]. constructor; [assumption | constructor].
  - simpl in Hok. apply andb_true_iff in Hok as [Ht Hok].
    destruct t as [c| |].
    + assert (is_prefix SPLIT (c :: flatten tokens) = false) as Hno.
      { change (is_prefix SPLIT (c :: flatten tokens))
          with ((124 =? c)%N && is_prefix (83 :: 80 :: 76 :: 73 :: 84 :: [124])%N
                                  (flatten tokens)).
        rewrite is_prefix_letter; [apply andb_false_r | reflexivity |].
        apply flatten_no_letter_first. assumption. }
      destruct (IH Hok (piece ++ [Ch c])) as (pieces & E & Hpieces).
      { rewrite forallb_app, Hp. simpl. simpl in Ht. rewrite Ht. reflexivity. }
      exists pieces. split; [|assumption].
      rewrite <- E, flatten_app, rev_app_distr.
      change (flatten (Ch c :: tokens)) with (c :: flatten tokens).
      rewrite split_lit_from_step, Hno. reflexivity.
    + destruct (IH Hok (piece ++ [Dec])) as (pieces & E & Hpieces).
      { rewrite forallb_app, Hp. reflexivity. }
      exists pieces. split; [|assumption].
      rewrite <- E, flatten_app, rev_app_distr. reflexivity.
    + destruct (IH Hok []) as (pieces & E & Hpieces); [reflexivity|].
      exists (piece :: pieces). split; [|constructor; assumption].
      transitivity (rev (rev (flatten piece))
                      :: split_lit_from SPLIT 0 [] (flatten tokens)); [reflexivity|].
      rewrite rev_involutive. simpl in E. rewrite E. reflexivity.
Qed.

(** *** Trimming *)

Lemma trimStart_tokens (tokens : list token) :
  forallb piece_ok tokens = true ->
  exists out, trimStart (flatten tokens) = flatten out /\ forallb piece_ok out = true.
Proof.
  induction tokens as [|t tokens IH]; intros Hok.
  - exists []. split; reflexivity.
  - pose proof Hok as Hok'. simpl in Hok. apply andb_true_iff in Hok as [Ht Hok].
    destruct t as [c| |]; [| |discriminate].
    + simpl. destruct (is_space c); [apply IH; assumption|].
      exists (Ch c :: tokens). split; [reflexivity | assumption].
    + exists (Dec :: tokens). split; [reflexivity | assumption].
Qed.

Lemma trimEnd_cons (c : char) (s : jsstring) :
  trimEnd (c :: s)
  = match trimEnd s with
    | [] => if is_space c then [] else [c]
    | _ :: _ => c :: trimEnd s
    end.
Proof. reflexivity. Qed.

Lemma trimEnd_not_space (c : char) (s : jsstring) :
  is_space c = false -> trimEnd (c :: s) = c :: trimEnd s.
Proof. intros Hc. rewrite trimEnd_cons, Hc. destruct (trimEnd s); reflexivity. Qed.

Lemma trimEnd_tokens (tokens : list token) :
  forallb piece_ok tokens = true ->
  exists out, trimEnd (flatten tokens) = flatten out /\ forallb piece_ok out = true.
Proof.
  induction tokens as [|t tokens IH]; intros Hok.
  - exists []. split; reflexivity.
  - simpl in Hok. apply andb_true_iff in Hok as [Ht Hok].
    destruct (IH Hok) as (out & E & Hout).
    destruct t as [c| |]; [| |discriminate].
    + change (flatten (Ch c :: tokens)) with (c :: flatten tokens).
      rewrite trimEnd_cons, E. simpl in Ht. destruct (flatten out) eqn:Eo.
      * destruct (is_space c).
        -- exists []. split; reflexivity.
        -- exists [Ch c]. simpl. rewrite Ht. split; reflexivity.
      * exists (Ch c :: out). simpl. rewrite Eo, Ht, Hout. split; reflexivity.
    + exists (Dec :: out).
      change (flatten (Dec :: tokens)) with (DEC ++ flatten tokens).
      unfold DEC. simpl app. rewrite !trimEnd_not_space by reflexivity.
      rewrite E. simpl. rewrite Hout. split; reflexivity.
Qed.

Lemma trim_tokens (tokens : list token) :
  forallb piece_ok tokens = true ->
  exists out, trim (flatten tokens) = flatten out /\ forallb piece_ok out = true.
Proof.
  intros Hok. unfold trim.
  destruct (trimStart_tokens tokens Hok) as (out1 & -> & Hok1).
  apply trimEnd_tokens. assumption.
Qed.

(** *** Putting the periods back *)

Lemma run_lits (lit : jsstring) :
  forall st,
    if is_prefix lit (rest st)
    then exists st', run false (lits lit) st = [st']
                     /\ pos st' = pos st + length lit /\ caps st' = caps st
    else run false (lits lit) st = [].
Proof.
  induction lit as [|c lit IH]; intros st.
  - simpl. exists st. repeat split. lia.
  - assert (run false (lits (c :: lit)) st
            = flat_map (run false (lits lit)) (step (lit_eqb false c) st)) as ->.
    { destruct lit as [|c2 lit]; [|reflexivity]. simpl.
      unfold step. destruct (rest st) as [|d s']; [reflexivity|].
      destruct (lit_eqb false c d); reflexivity. }
    unfold step. destruct (rest st) as [|d s'] eqn:E; [reflexivity|].
    simpl is_prefix. unfold lit_eqb. destruct (c =? d)%N; [|reflexivity].
    simpl flat_map. rewrite app_nil_r.
    specialize (IH {| prev := Some d; rest := s'; pos := S (pos st); caps := caps st |}).
    simpl in IH. destruct (is_prefix lit s'); [|assumption].
    destruct IH as (st' & -> & Hp & Hc). exists st'. simpl.
    repeat split; [lia | assumption].
Qed.

Lemma exec_lits_none (lit : jsstring) (before : option char) (s : jsstring) :
  is_prefix lit s = false -> exec false (lits lit) before s = None.
Proof.
  intros H. unfold exec.
  pose proof (run_lits lit {| prev := before; rest := s; pos := 0; caps := [] |}) as Hr.
  simpl in Hr. rewrite H in Hr. rewrite Hr. reflexivity.
Qed.

(** A mark does not start at a unit of the text. *)
Lemma is_prefix_mark_unit (l c : char) (tl : jsstring) (tokens : list token) :
  is_letter l = true -> forallb token_ok tokens = true ->
  is_prefix (123 :: 123 :: l :: tl)%N (c :: flatten tokens) = false.
Proof.
  intros Hl Hok.
  change (is_prefix (123 :: 123 :: l :: tl)%N (c :: flatten tokens))
    with ((123 =? c)%N && is_prefix (123 :: l :: tl)%N (flatten tokens)).
  destruct (123 =? c)%N; [|reflexivity]. rewrite andb_true_l.
  destruct tokens as [|[c2| |] tokens]; try reflexivity.
  - simpl in Hok. apply andb_true_iff in Hok as [_ Hok].
    change (is_prefix (123 :: l :: tl)%N (flatten (Ch c2 :: tokens)))
      with ((123 =? c2)%N && is_prefix (l :: tl) (flatten tokens)).
    rewrite (is_prefix_letter l tl) by (assumption || apply flatten_no_letter_first; assumption).
    apply andb_false_r.
  - change (is_prefix (123 :: l :: tl)%N (flatten (Dec :: tokens)))
      with ((123 =? 123)%N && ((l =? 123)%N
               && is_prefix tl ([68; 69; 67; 125; 125]%N ++ flatten tokens))).
    destruct (N.eqb_spec l 123) as [->|_]; [discriminate | reflexivity].
Qed.

Lemma replace_from_step (icase : bool) (r : regex) (template : list piece)
    (before : option char) (c : char) (s : jsstring) :
  replace_from icase r template 0 before (c :: s)
  = match exec icase r before (c :: s) with
    | Some (0, captures) =>
        expand template captures ++ c :: replace_from icase r template 0 (Some c) s
    | Some (S k, captures) =>
        expand template captures ++ replace_from icase r template k (Some c) s
    | None => c :: replace_from icase r template 0 (Some c) s
    end.
Proof. reflexivity. Qed.

Lemma replace_ABBR_tokens (tokens : list token) :
  forallb piece_ok tokens = true ->
  forall before,
    replace_from false (placeholder_regex ABBR) [Txt [dot]] 0 before (flatten tokens)
    = flatten tokens.
Proof.
  unfold placeholder_regex.
  induction tokens as [|t tokens IH]; intros Hok before; [reflexivity|].
  simpl in Hok. apply andb_true_iff in Hok as [Ht Hok].
  destruct t as [c| |]; [| |discriminate].
  - change (flatten (Ch c :: tokens)) with (c :: flatten tokens).
    rewrite replace_from_step, exec_lits_none.
    + rewrite IH by assumption. reflexivity.
    + apply is_prefix_mark_unit; [reflexivity | apply piece_ok_token_ok; assumption].
  - change (flatten (Dec :: tokens)) with (DEC ++ flatten tokens).
    transitivity (DEC ++ replace_from false (lits ABBR) [Txt [dot]] 0 (Some 125%N)
                           (flatten tokens)); [reflexivity|].
    rewrite IH by assumption. reflexivity.
Qed.

Lemma replace_DEC_tokens (tokens : list token) :
  forallb piece_ok tokens = true ->
  forall before,
    has_letter (replace_from false (placeholder_regex DEC) [Txt [dot]] 0 before
                  (flatten tokens)) = false.
Proof.
  unfold placeholder_regex.
  induction tokens as [|t tokens IH]; intros Hok before; [reflexivity|].
  simpl in Hok. apply andb_true_iff in Hok as [Ht Hok].
  destruct t as [c| |]; [| |discriminate].
  - change (flatten (Ch c :: tokens)) with (c :: flatten tokens).
    rewrite replace_from_step, exec_lits_none.
    + unfold has_letter. simpl. apply negb_true_iff in Ht. rewrite Ht. simpl.
      apply IH. assumption.
    + apply is_prefix_mark_unit; [reflexivity | apply piece_ok_token_ok; assumption].
  - change (flatten (Dec :: tokens)) with (DEC ++ flatten tokens).
    change (has_letter (dot :: replace_from false (lits DEC) [Txt [dot]] 0 (Some 125%N)
                                 (flatten tokens)) = false).
    unfold has_letter. simpl. apply IH. assumption.
Qed.

Lemma is_prefix_has_letter (lit s : jsstring) :
  has_letter lit = true -> is_prefix lit s = true -> has_letter s = true.
Proof.
  revert s. induction lit as [|c lit IH]; intros s Hl Hp; [discriminate|].
  destruct s as [|d s]; [discriminate|]. simpl in Hp.
  apply andb_true_iff in Hp as [Hc Hp]. apply N.eqb_eq in Hc. subst d.
  unfold has_letter in *. simpl in *. destruct (is_letter c); [reflexivity|].
  simpl in *. apply IH; assumption.
Qed.

Lemma replace_DOM_nothing (s : jsstring) :
  has_letter s = false ->
  replace false (placeholder_regex DOM) [Txt [dot]] s = s.
Proof.
  apply (replace_nothing false _ _ (fun s => has_letter s = false)).
  - apply has_letter_tail.
  - intros before s' Hs. apply exec_lits_none.
    destruct (is_prefix DOM s') eqn:E; [|reflexivity].
    rewrite (is_prefix_has_letter DOM s') in Hs; [discriminate | reflexivity | assumption].
Qed.

Lemma restore_tokens (tokens : list token) :
  forallb piece_ok tokens = true -> has_letter (restore (flatten tokens)) = false.
Proof.
  intros Hok. unfold restore, replace at 3.
  rewrite replace_ABBR_tokens by assumption.
  rewrite replace_DOM_nothing; apply replace_DEC_tokens; assumption.
Qed.

(** *** A text without letters has no sentence *)

Lemma splitIntoSentences_no_letter (text : jsstring) :
  has_letter text = false -> splitIntoSentences text = [].
Proof.
  intros Ht. unfold splitIntoSentences.
  destruct (protect_tokens text Ht) as (out & -> & Hok).
  destruct (split_lit_from_tokens out Hok [] eq_refl) as (pieces & E & Hpieces).
  unfold split_lit. simpl in E. rewrite E. clear E.
  induction Hpieces as [|p pieces Hp _ IH]; [reflexivity|].
  simpl. destruct (trim_tokens p Hp) as (q & -> & Hq).
  rewrite (restore_tokens q Hq), andb_false_r. assumption.
Qed.

(** *** The words that have a letter *)

Lemma letter_not_space (c : char) : is_letter c = true -> is_space c = false.
Proof. intros H. char_lia. Qed.

Lemma has_letter_app (s1 s2 : jsstring) :
  has_letter (s1 ++ s2) = has_letter s1 || has_letter s2.
Proof. apply existsb_app. Qed.

Lemma has_letter_rev (s : jsstring) : has_letter (rev s) = has_letter s.
Proof.
  induction s as [|c s IH]; [reflexivity|]. simpl. rewrite has_letter_app, IH.
  unfold has_letter. simpl. rewrite orb_false_r. apply orb_comm.
Qed.

Lemma split_word_run_letters (s : jsstring) :
  (forall word, existsb has_letter (split_word false word s)
                = has_letter word || has_letter s)
  /\ (forall run, existsb has_letter (split_run false run s) = has_letter s).
Proof.
  induction s as [|c s [IHw IHr]]; split; intros acc.
  - simpl. rewrite has_letter_rev, !orb_false_r. reflexivity.
  - reflexivity.
  - simpl split_word. destruct (is_space c) eqn:Ec.
    + simpl existsb. rewrite IHr, has_letter_rev.
      assert (is_letter c = false) as Hc.
      { destruct (is_letter c) eqn:E; [|reflexivity].
        rewrite (letter_not_space c E) in Ec. discriminate. }
      unfold has_letter at 3. simpl. rewrite Hc. reflexivity.
    + rewrite IHw. unfold has_letter. simpl.
      rewrite (orb_comm (is_letter c)), orb_assoc. reflexivity.
  - simpl split_run. destruct (is_space c) eqn:Ec.
    + rewrite IHr.
      assert (is_letter c = false) as Hc.
      { destruct (is_letter c) eqn:E; [|reflexivity].
        rewrite (letter_not_space c E) in Ec. discriminate. }
      unfold has_letter at 2. simpl. rewrite Hc. reflexivity.
    + rewrite IHw. unfold has_letter. simpl. rewrite orb_false_r. reflexivity.
Qed.

Lemma filter_nil_existsb {A} (p : A -> bool) (l : list A) :
  List.filter p l = [] <-> existsb p l = false.
Proof.
  induction l as [|x l IH]; simpl; [tauto|].
  destruct (p x); simpl; [split; discriminate | assumption].
Qed.

(** There is a word with a letter exactly when the text has a letter. *)
Lemma alphabetic_words_nil (text : jsstring) :
  alphabetic_words text = [] <-> has_letter text = false.
Proof.
  unfold alphabetic_words, split_ws. rewrite filter_nil_existsb.
  rewrite (proj1 (split_word_run_letters text) []). reflexivity.
Qed.

(** A sentence was found only when the text has a word with a letter. *)
Lemma sentences_need_words (text : jsstring) :
  splitIntoSentences text <> [] -> alphabetic_words text <> [].
Proof.
  intros Hs Hw. apply Hs. apply splitIntoSentences_no_letter.
  apply alphabetic_words_nil. assumption.
Qed.

Lemma length_zero_nil {A} (l : list A) : (length l =? 0) = true <-> l = [].
Proof. destruct l; simpl; split; congruence. Qed.

(** *** The two early returns and the full report *)

Section AnalyzeFacts.
Variable toLowerCase : jsstring -> jsstring.
Variable syllable : jsstring -> option Z.

Local Abbreviation analyze := (Readability.analyze toLowerCase syllable).
Local Abbreviation analyzeReadability :=
  (Readability.analyzeReadability toLowerCase syllable).
Local Abbreviation countSyllables := (Readability.countSyllables toLowerCase syllable).

Lemma analyze_unable (text : jsstring) :
  splitIntoSentences text = [] \/ alphabetic_words text = [] ->
  analyze text = (unable, []).
Proof.
  intros H. unfold Readability.analyze. cbv zeta.
  destruct (length (splitIntoSentences text) =? 0) eqn:E1; [reflexivity|].
  destruct (length (alphabetic_words text) =? 0) eqn:E2; [reflexivity|].
  destruct H as [H|H]; rewrite H in *; discriminate.
Qed.

(** The report when there is a sentence and a word, field by field. *)
Lemma analyze_fields (text : jsstring) :
  splitIntoSentences text <> [] -> alphabetic_words text <> [] ->
  let sentences := splitIntoSentences text in
  let words := alphabetic_words text in
  let raw := rawFlesch (length words) (length sentences)
               (fold_left (fun sum word => (sum + countSyllables word)%Z) words 0%Z) in
  let r := analyzeReadability text in
  totalSentences r = length sentences
  /\ totalWords r = length words
  /\ longSentences r = firstn 5 (collect_long 0 sentences)
  /\ fleschScore r = (inject_Z (Math_round (Qmax 0 (Qmin 100 raw) * 10)) / 10)%Q
  /\ snd (analyze text)
     = if Qlt_le_dec raw 0
       then [{| warn_raw := raw;
                warn_asl := (of_nat (length words) / of_nat (length sentences))%Q;
                warn_asw :=
                  (inject_Z (fold_left (fun sum word => (sum + countSyllables word)%Z)
                               words 0%Z) / of_nat (length words))%Q;
                warn_sentences := length sentences; warn_words := length words |}]
       else [].
Proof.
  intros Hs Hw. unfold Readability.analyzeReadability, Readability.analyze. cbv zeta.
  destruct (length (splitIntoSentences text) =? 0) eqn:E1.
  { apply length_zero_nil in E1. contradiction. }
  destruct (length (alphabetic_words text) =? 0) eqn:E2.
  { apply length_zero_nil in E2. contradiction. }
  repeat split; reflexivity.
Qed.

End AnalyzeFacts.

(** *** Long sentences *)

Lemma truncate_loop_length (words : list jsstring) :
  forall truncated, length truncated <= 147 ->
    length (truncate_loop truncated words) <= 147.
Proof.
  induction words as [|word words IH]; intros truncated Ht; simpl; [assumption|].
  destruct (Nat.ltb_spec 147 (length truncated + length word + 1)); [assumption|].
  apply IH. rewrite !length_app. destruct truncated; simpl in *; lia.
Qed.

Lemma collect_long_entries (sentences : list jsstring) :
  forall index,
    Forall (fun e =>
              LONG_SENTENCE_THRESHOLD < wordCount e
              /\ index + 1 <= position e
              /\ exists sentence,
                   nth_error sentences (position e - 1 - index) = Some sentence
                   /\ wordCount e = countWords sentence
                   /\ text e = (if 150 <? length sentence
                                then truncate_loop [] (split_ws sentence) ++ str "..."
                                else sentence)
                   /\ length (truncate_loop [] (split_ws sentence)) <= 147)
      (collect_long index sentences).
Proof.
  induction sentences as [|s sentences IH]; intros index; simpl; [constructor|].
  assert (forall l, Forall (fun e =>
              LONG_SENTENCE_THRESHOLD < wordCount e
              /\ S index + 1 <= position e
              /\ exists sentence,
                   nth_error sentences (position e - 1 - S index) = Some sentence
                   /\ wordCount e = countWords sentence
                   /\ text e = (if 150 <? length sentence
                                then truncate_loop [] (split_ws sentence) ++ str "..."
                                else sentence)
                   /\ length (truncate_loop [] (split_ws sentence)) <= 147) l ->
            Forall (fun e =>
              LONG_SENTENCE_THRESHOLD < wordCount e
              /\ index + 1 <= position e
              /\ exists sentence,
                   nth_error (s :: sentences) (position e - 1 - index) = Some sentence
                   /\ wordCount e = countWords sentence
                   /\ text e = (if 150 <? length sentence
                                then truncate_loop [] (split_ws sentence) ++ str "..."
                                else sentence)
                   /\ length (truncate_loop [] (split_ws sentence)) <= 147) l) as Hshift.
  { intros l Hl. eapply List.Forall_impl; [|exact Hl]. simpl.
    intros e (H1 & H2 & sentence & H3 & H4).
    split; [assumption|]. split; [lia|]. exists sentence. split; [|assumption].
    replace (position e - 1 - index) with (S (position e - 1 - S index)) by lia.
    assumption. }
  destruct (Nat.ltb_spec LONG_SENTENCE_THRESHOLD (countWords s)) as [Hlong|Hshort].
  - constructor; [|apply Hshift, IH]. simpl.
    split; [assumption|]. split; [lia|]. exists s.
    replace (index + 1 - 1 - index) with 0 by lia.
    repeat split. apply truncate_loop_length. simpl. lia.
  - apply Hshift, IH.
Qed.

Lemma collect_long_positions (sentences : list jsstring) :
  forall index,
    List.map position (collect_long index sentences)
    = List.map S
        (List.filter
           (fun k => LONG_SENTENCE_THRESHOLD <? countWords (nth (k - index) sentences []))
           (seq index (length sentences))).
Proof.
  induction sentences as [|s sentences IH]; intros index; [reflexivity|].
  change (seq index (length (s :: sentences)))
    with (index :: seq (S index) (length sentences)).
  cbn [List.filter collect_long]. rewrite Nat.sub_diag. cbn [nth].
  rewrite (filter_ext_in
             (fun k => LONG_SENTENCE_THRESHOLD
                       <? countWords (nth (k - index) (s :: sentences) []))
             (fun k => LONG_SENTENCE_THRESHOLD
                       <? countWords (nth (k - S index) sentences []))).
  - destruct (LONG_SENTENCE_THRESHOLD <? countWords s); cbn [List.map position];
      rewrite IH; [rewrite Nat.add_1_r|]; reflexivity.
  - intros k Hk. apply in_seq in Hk.
    replace (k - index) with (S (k - S index)) by lia. reflexivity.
Qed.

(** *** The report of the analyzer *)

Section AnalyzeTheorems.
Variable toLowerCase : jsstring -> jsstring.
Variable syllable : jsstring -> option Z.

Local Abbreviation analyze := (Readability.analyze toLowerCase syllable).
Local Abbreviation analyzeReadability := (Readability.analyzeReadability toLowerCase syllable).
Local Abbreviation countSyllables := (Readability.countSyllables toLowerCase syllable).

(** C3.  With no sentence or no word that has a letter, and so for the
    empty text and for a text without a letter, the report is the one of
    the early returns: every number is 0, the grade says that the text
    cannot be analyzed and no long sentence is listed.  Nothing is logged,
    and the function is total. *)
Theorem analyzeReadability_unable (text : jsstring) :
  length (splitIntoSentences text) = 0 \/ length (alphabetic_words text) = 0
  \/ text = [] \/ has_letter text = false ->
  let r := analyzeReadability text in
  totalWords r = 0 /\ totalSentences r = 0
  /\ fleschScore r = 0%Q /\ avgSentenceLength r = 0%Q /\ avgWordLength r = 0%Q
  /\ passiveVoicePercent r = 0%Z
  /\ fleschGrade r = "Unable to analyze"%string
  /\ longSentences r = []
  /\ snd (analyze text) = [].
Proof.
  intros H r. unfold r, Readability.analyzeReadability.
  rewrite analyze_unable.
  - repeat split; reflexivity.
  - destruct H as [H|[H|[H|H]]].
    + left. apply length_zero_iff_nil. assumption.
    + right. apply length_zero_iff_nil. assumption.
    + left. subst text. reflexivity.
    + left. apply splitIntoSentences_no_letter. assumption.
Qed.

(** C9.  The period of [Dr.] is put aside before the split and put back
    after it, and the text has two sentences. *)
Theorem analyzeReadability_Dr_Smith :
  let text := str "Dr. Smith arrived. The results were significant." in
  protect_abbreviations text
  = str "Dr{{ABBR}} Smith arrived. The results were significant."
  /\ splitIntoSentences text
     = [str "Dr. Smith arrived."; str "The results were significant."]
  /\ totalSentences (analyzeReadability text) = 2.
Proof.
  intros text.
  assert (splitIntoSentences text
          = [str "Dr. Smith arrived."; str "The results were significant."]) as Hs
    by (vm_compute; reflexivity).
  split; [vm_compute; reflexivity|]. split; [assumption|].
  destruct (analyze_fields toLowerCase syllable text) as (H & _).
  - rewrite Hs. discriminate.
  - apply sentences_need_words. rewrite Hs. discriminate.
  - rewrite H, Hs. reflexivity.
Qed.



(** C10, amended.  A text without an ASCII letter, and so a text in
    another alphabet, has no sentence and gets the report of the early
    return.  A sentence is found only in a text that has a word with a
    letter, so the second early return is never taken after a sentence was
    found, and the report has no sentence exactly when it has no word. *)
Theorem analyzeReadability_no_letter (text : jsstring) :
  (has_letter text = false ->
     splitIntoSentences text = [] /\ alphabetic_words text = []
     /\ analyzeReadability text = unable)
  /\ (Forall (fun c => (128 <= c)%N) text -> analyzeReadability text = unable)
  /\ (splitIntoSentences text <> [] -> alphabetic_words text <> [])
  /\ (totalSentences (analyzeReadability text) = 0
      <-> totalWords (analyzeReadability text) = 0).
Proof.
  assert (has_letter text = false -> analyzeReadability text = unable) as Hunable.
  { intros Ht. unfold Readability.analyzeReadability. rewrite analyze_unable; [reflexivity|].
    left. apply splitIntoSentences_no_letter. assumption. }
  split; [|split; [|split]].
  - intros Ht. split; [apply splitIntoSentences_no_letter; assumption|].
    split; [apply alphabetic_words_nil; assumption | apply Hunable; assumption].
  - intros Hall. apply Hunable. clear Hunable. unfold has_letter.
    induction Hall as [|c l Hc _ IH]; [reflexivity|]. simpl. rewrite IH, orb_false_r.
    char_lia.
  - apply sentences_need_words.
  - destruct (splitIntoSentences text) as [|s0 l0] eqn:Es.
    + unfold Readability.analyzeReadability.
      rewrite analyze_unable by (left; assumption). simpl. tauto.
    + destruct (analyze_fields toLowerCase syllable text) as (H1 & H2 & _).
      * rewrite Es. discriminate.
      * apply sentences_need_words. rewrite Es. discriminate.
      * rewrite H1, H2, Es.
        pose proof (sentences_need_words text ltac:(rewrite Es; discriminate)) as Hw.
        destruct (alphabetic_words text); [contradiction|]. simpl. split; discriminate.
Qed.

End AnalyzeTheorems.

(** C10, as the specification has it, fails: the text of a placeholder
    has letters, is turned into a period before the sentences are
    filtered, and so gets the report of the early return. *)
Lemma analyzeReadability_placeholder_text :
  has_letter (str "{{ABBR}}") = true
  /\ splitIntoSentences (str "{{ABBR}}") = []
  /\ alphabetic_words (str "{{ABBR}}") = [str "{{ABBR}}"]
  /\ analyzeReadability toLowerCase_ascii syllable_throws (str "{{ABBR}}") = unable.
Proof. vm_compute. repeat split; reflexivity. Qed.

(** *** The theorems at work *)

Lemma analyzeReadability_unable_witness :
  let r := analyzeReadability toLowerCase_ascii syllable_throws (str "12 + 3 = 15.") in
  totalWords r = 0 /\ totalSentences r = 0
  /\ fleschScore r = 0%Q /\ avgSentenceLength r = 0%Q /\ avgWordLength r = 0%Q
  /\ passiveVoicePercent r = 0%Z
  /\ fleschGrade r = "Unable to analyze"%string
  /\ longSentences r = []
  /\ snd (analyze toLowerCase_ascii syllable_throws (str "12 + 3 = 15.")) = [].
Proof.
  apply (analyzeReadability_unable toLowerCase_ascii syllable_throws (str "12 + 3 = 15.")).
  left. vm_compute. reflexivity.
Defined.


(** A text in the Cyrillic alphabet. *)
Lemma analyzeReadability_no_letter_witness :
  splitIntoSentences [1055; 1088; 1080; 1074; 1077; 1090; 46; 32; 1052; 1080; 1088; 46]%N
  = []
  /\ alphabetic_words
       [1055; 1088; 1080; 1074; 1077; 1090; 46; 32; 1052; 1080; 1088; 46]%N = []
  /\ analyzeReadability toLowerCase_ascii syllable_throws
       [1055; 1088; 1080; 1074; 1077; 1090; 46; 32; 1052; 1080; 1088; 46]%N = unable.
Proof.
  apply (proj1 (analyzeReadability_no_letter toLowerCase_ascii syllable_throws
                  [1055; 1088; 1080; 1074; 1077; 1090; 46; 32; 1052; 1080; 1088; 46]%N)).
  vm_compute. reflexivity.
Defined.

(** Thirty-two words in the second sentence of three. *)
Example analyzeReadability_long_example :
  List.map (fun e => (position e, wordCount e))
    (longSentences
       (analyzeReadability toLowerCase_ascii syllable_throws
          (str "It rained. We saw a b c d e f g h i j k l m n o p q r s t u v w x y z and then we left. It was late.")))
  = [(2, 32)].
Proof. vm_compute. reflexivity. Qed.

(** The abbreviations, the decimal points and the domains of a text are
    kept together. *)
Example splitIntoSentences_example :
  splitIntoSentences
    (str "Prof. Jones et al. confirmed it in 2023. Fig. 1 shows 98.6 degrees! See example.com now? Yes")
  = [ str "Prof. Jones et al. confirmed it in 2023.";
      str "Fig. 1 shows 98.6 degrees!";
      str "See example.com now?";
      str "Yes" ].
Proof. vm_compute. reflexivity. Qed.

Example isPassiveVoice_example :
  List.map (fun s => isPassiveVoice (str s))
    ["The ball was kicked."; "It has been noted"; "It can  be Used."; "He wased x";
     "The cat sat on the mat."]%string
  = [true; true; true; false; false].
Proof. vm_compute. reflexivity. Qed.

Example analyzeReadability_example :
  let r := analyzeReadability toLowerCase_ascii syllable_throws
             (str "The cat sat on the mat. It was a nice day.") in
  totalSentences r = 2 /\ totalWords r = 11 /\ passiveVoicePercent r = 0%Z
  /\ longSentences r = [] /\ (fleschScore r == 100)%Q.
Proof. vm_compute. repeat split; reflexivity. Qed.

End ReadabilityProofs.
(** * Further properties of the word diff *)

Module WordDiffMore.
Import WordDiff WordDiffSpec WordDiffProofs MoreSpec.

Lemma kept_words_cons (op : DiffSegment) (ops : list DiffSegment) :
  kept_words (op :: ops)
  = (if SegmentType_eqb (type op) equal then [text op] else []) ++ kept_words ops.
Proof.
  unfold kept_words. simpl. destruct (SegmentType_eqb (type op) equal); reflexivity.
Qed.

(** The backtracking keeps a common subsequence of the words before
    [(i, j)] that is as long as the table says. *)
Lemma backtrack_kept (a b : list jsstring) (i : nat) :
  forall j ops, i <= length a -> j <= length b ->
    exists c,
      kept_words (backtrack a b (dp_fill a b) i j ops) = c ++ kept_words ops
      /\ c `sublist_of` firstn i a /\ c `sublist_of` firstn j b
      /\ length c = lcs a b i j.
Proof.
  induction i as [|i IHi]; intros j; induction j as [|j IHj]; intros ops Hi Hj.
  - exists []. rewrite backtrack_0_0, lcs_0_l. repeat split; apply sublist_nil_l.
  - rewrite backtrack_0_S.
    destruct (IHj ({| type := added; text := word_at b j |} :: ops)) as (c & E & Ha & Hb & Hc);
      [lia..|].
    exists c. rewrite E, kept_words_cons, lcs_0_l in *. simpl.
    split; [reflexivity|]. split; [assumption|]. split; [|assumption].
    rewrite (firstn_S_word b j) by lia. apply sublist_inserts_r. assumption.
  - rewrite backtrack_S_0.
    destruct (IHi 0 ({| type := removed; text := word_at a i |} :: ops))
      as (c & E & Ha & Hb & Hc); [lia..|].
    exists c. rewrite E, kept_words_cons, lcs_0_r in *. simpl.
    split; [reflexivity|]. split; [|split; assumption].
    rewrite (firstn_S_word a i) by lia. apply sublist_inserts_r. assumption.
  - rewrite backtrack_S_S, lcs_S_S.
    destruct (jsstring_eqb (word_at a i) (word_at b j)) eqn:Ew.
    + apply jsstring_eqb_eq in Ew.
      destruct (IHi j ({| type := equal; text := word_at a i |} :: ops))
        as (c & E & Ha & Hb & Hc); [lia..|].
      exists (c ++ [word_at a i]). rewrite E, kept_words_cons. simpl.
      rewrite <- app_assoc. split; [reflexivity|].
      rewrite (firstn_S_word a i), (firstn_S_word b j) by lia.
      split; [apply sublist_app; [assumption | reflexivity]|].
      split; [rewrite Ew; apply sublist_app; [assumption | reflexivity]|].
      rewrite length_app. simpl. lia.
    + rewrite !dp_fill_lcs by lia.
      destruct (Nat.leb_spec (lcs a b i (S j)) (lcs a b (S i) j)) as [Hle|Hlt].
      * destruct (IHj ({| type := added; text := word_at b j |} :: ops))
          as (c & E & Ha & Hb & Hc); [lia..|].
        exists c. rewrite E, kept_words_cons. simpl.
        split; [reflexivity|]. split; [assumption|]. split; [|lia].
        rewrite (firstn_S_word b j) by lia. apply sublist_inserts_r. assumption.
      * destruct (IHi (S j) ({| type := removed; text := word_at a i |} :: ops))
          as (c & E & Ha & Hb & Hc); [lia..|].
        exists c. rewrite E, kept_words_cons. simpl.
        split; [reflexivity|]. split; [|split; [assumption | lia]].
        rewrite (firstn_S_word a i) by lia. apply sublist_inserts_r. assumption.
Qed.

(** X1.  The pieces that the diff keeps, words and runs of whitespace,
    are a common subsequence of the pieces of the two texts, and no common
    subsequence is longer: the diff removes and adds as few pieces as
    possible. *)
Theorem diff_ops_keeps_longest_common (original suggested : jsstring) :
  let kept := kept_words (diff_ops original suggested) in
  kept `sublist_of` split_ws_keep original
  /\ kept `sublist_of` split_ws_keep suggested
  /\ forall c, c `sublist_of` split_ws_keep original ->
               c `sublist_of` split_ws_keep suggested ->
               length c <= length kept.
Proof.
  intros kept. unfold kept, diff_ops.
  set (a := split_ws_keep original). set (b := split_ws_keep suggested).
  destruct (backtrack_kept a b (length a) (length b) []) as (c & E & Ha & Hb & Hc);
    [lia..|].
  rewrite E. change (kept_words []) with (@nil (list N)). rewrite app_nil_r.
  rewrite !firstn_all in *.
  split; [assumption|]. split; [assumption|].
  intros c' Ha' Hb'. rewrite Hc. apply lcs_upper; rewrite ?firstn_all; auto.
Qed.

(** The diff of a text with itself. *)
Lemma computeWordDiff_refl (s : jsstring) :
  computeWordDiff s s = [{| type := equal; text := s |}].
Proof.
  unfold computeWordDiff, diff_ops.
  rewrite backtrack_same by lia. rewrite firstn_all, app_nil_r.
  pose proof (split_ws_keep_concat s) as Hc.
  destruct (split_ws_keep s) as [|w ws] eqn:E.
  - exfalso. revert E. apply (proj1 (split_word_nonempty true s)).
  - simpl. unfold merge_op at 2. simpl. fold (equal_op w).
    rewrite merge_equal_ops. simpl in Hc. rewrite Hc. reflexivity.
Qed.

(** The two sides of the result. *)
Lemma computeWordDiff_sides (original suggested : jsstring) :
  original_of (computeWordDiff original suggested) = original
  /\ suggested_of (computeWordDiff original suggested) = suggested.
Proof.
  unfold computeWordDiff.
  destruct (merge_sides (diff_ops original suggested) []) as [E1 E2].
  destruct (diff_ops_sides original suggested) as [D1 D2].
  rewrite E1, E2, D1, D2. split; reflexivity.
Qed.

Lemma sides_all_equal (segments : list DiffSegment) :
  Forall (fun segment => type segment = equal) segments ->
  original_of segments = suggested_of segments.
Proof.
  induction 1 as [|x l Hx _ IH]; [reflexivity|].
  rewrite original_of_cons, suggested_of_cons, IH, Hx. reflexivity.
Qed.

(** X2.  The result has only segments of type [equal] exactly when the
    two texts are the same: a change of the text, be it of whitespace
    only, always shows as a segment of type [added] or [removed]. *)
Theorem computeWordDiff_all_equal_iff (original suggested : jsstring) :
  Forall (fun segment => type segment = equal) (computeWordDiff original suggested)
  <-> original = suggested.
Proof.
  split.
  - intros H. apply sides_all_equal in H.
    destruct (computeWordDiff_sides original suggested) as [E1 E2].
    rewrite E1, E2 in H. assumption.
  - intros <-. rewrite computeWordDiff_refl. repeat constructor.
Qed.

End WordDiffMore.

(** * Further properties of the readability analyzer *)

Module ReadabilityMore.
Import Regex Readability ReadabilitySpec ReadabilityProofs MoreSpec.

(** *** Rounding *)

(** The integers of a goal about rationals, as rationals of their own. *)
Ltac name_integers :=
  repeat match goal with
         | |- context [inject_Z ?z] =>
             lazymatch z with
             | Z0 => fail
             | Zpos _ => fail
             | Zneg _ => fail
             | _ => let q := fresh "q" in set (q := inject_Z z) in *
             end
         | H : context [inject_Z ?z] |- _ =>
             lazymatch z with
             | Z0 => fail
             | Zpos _ => fail
             | Zneg _ => fail
             | _ => let q := fresh "q" in set (q := inject_Z z) in *
             end
         end.

Lemma Math_round_le (x : Q) (z : Z) : (inject_Z z <= x)%Q -> (z <= Math_round x)%Z.
Proof.
  intros H. unfold Math_round. rewrite <- (Qfloor_Z z). apply Qfloor_resp_le.
  name_integers. lra.
Qed.

Lemma Math_round_half (x : Q) :
  (inject_Z (Math_round x) <= x + (1 # 2))%Q /\ (x - (1 # 2) < inject_Z (Math_round x))%Q.
Proof.
  unfold Math_round. split; [apply Qfloor_le|].
  pose proof (Qlt_floor (x + (1 # 2))) as H.
  rewrite inject_Z_plus in H. change (inject_Z 1) with 1%Q in H.
  name_integers. lra.
Qed.

Lemma Math_round_ge (x : Q) (z : Z) : (x <= inject_Z z)%Q -> (Math_round x <= z)%Z.
Proof.
  intros H. destruct (Math_round_half x) as [Hf _].
  assert (inject_Z (Math_round x) < inject_Z (z + 1))%Q as Hlt.
  { rewrite inject_Z_plus. change (inject_Z 1) with 1%Q. name_integers. lra. }
  rewrite <- Zlt_Qlt in Hlt. lia.
Qed.

(** Rounding to one decimal does not pass a number of one decimal. *)
Lemma round_edge (c e : Q) (E : Z) :
  (e * 10 == inject_Z E)%Q ->
  let r := (inject_Z (Math_round (c * 10)) / 10)%Q in
  ~ (r == e)%Q -> Qle_bool e c = Qle_bool e r.
Proof.
  intros He r Hne.
  assert (r * 10 == inject_Z (Math_round (c * 10)))%Q as Hr.
  { unfold r. field. }
  destruct (Math_round_half (c * 10)) as [H1 H2].
  destruct (Qle_bool e c) eqn:E1; destruct (Qle_bool e r) eqn:E2; try reflexivity.
  - apply Qle_bool_iff in E1.
    assert (~ (e <= r)%Q) as Hn by (rewrite <- Qle_bool_iff; congruence).
    exfalso. apply Hn.
    assert (E <= Math_round (c * 10))%Z as Hz.
    { apply Math_round_le. name_integers. lra. }
    rewrite Zle_Qle in Hz. name_integers. lra.
  - apply Qle_bool_iff in E2.
    assert (~ (e <= c)%Q) as Hn by (rewrite <- Qle_bool_iff; congruence).
    exfalso. apply Hn.
    assert (E < Math_round (c * 10))%Z as Hz.
    { rewrite Zlt_Qlt. name_integers. lra. }
    assert (E + 1 <= Math_round (c * 10))%Z as Hz' by lia.
    rewrite Zle_Qle, inject_Z_plus in Hz'. change (inject_Z 1) with 1%Q in Hz'.
    name_integers. lra.
Qed.

(** *** Syllables *)

Section Syllables.
Variable toLowerCase : jsstring -> jsstring.
Variable syllable : jsstring -> option Z.

Local Abbreviation countSyllables := (Readability.countSyllables toLowerCase syllable).
Local Abbreviation analyze := (Readability.analyze toLowerCase syllable).
Local Abbreviation analyzeReadability :=
  (Readability.analyzeReadability toLowerCase syllable).

Lemma vowel_groups_bounds (cleaned : jsstring) :
  forall count prevVowel,
    (count <= vowel_groups count prevVowel cleaned)%Z
    /\ (vowel_groups count prevVowel cleaned <= count + vowels cleaned)%Z
    /\ (2 * vowel_groups count prevVowel cleaned
        <= 2 * count + Z.of_nat (length cleaned) + (if prevVowel then 0 else 1))%Z.
Proof.
  unfold vowels.
  induction cleaned as [|c cleaned IH]; intros count prevVowel; simpl.
  - destruct prevVowel; lia.
  - destruct (is_vowel c) eqn:Ec; simpl.
    + destruct prevVowel; simpl.
      * destruct (IH count true) as (H1 & H2 & H3). lia.
      * destruct (IH (count + 1)%Z true) as (H1 & H2 & H3). lia.
    + destruct (IH count false) as (H1 & H2 & H3). destruct prevVowel; lia.
Qed.

(** X3.  A word counts no syllable exactly when none of the letters [a]
    to [z] is left of it in lower case, and at least one otherwise,
    whatever the library answers.  When the library throws, the count is
    at most the number of vowels, or 1, and at most half the number of
    letters, rounded up. *)
Theorem countSyllables_bounds (word : jsstring) :
  let cleaned := List.filter is_lower (toLowerCase word) in
  (countSyllables word = 0%Z <-> cleaned = [])
  /\ (cleaned <> [] -> (1 <= countSyllables word)%Z)
  /\ (syllable cleaned = None ->
      (countSyllables word <= Z.max 1 (vowels cleaned))%Z
      /\ (2 * countSyllables word <= Z.of_nat (length cleaned) + 1)%Z).
Proof.
  intros cleaned. unfold Readability.countSyllables. fold cleaned.
  destruct cleaned as [|c cleaned'] eqn:E.
  - simpl. split; [tauto|]. split; [congruence|]. intros _. unfold vowels. simpl. lia.
  - rewrite <- E. replace (length cleaned =? 0) with false by (rewrite E; reflexivity).
    split; [|split].
    + split; [|rewrite E; discriminate].
      destruct (syllable cleaned); lia.
    + intros _. destruct (syllable cleaned); lia.
    + intros ->. destruct (vowel_groups_bounds cleaned 0%Z false) as (H1 & H2 & H3).
      assert (1 <= Z.of_nat (length cleaned))%Z by (rewrite E; simpl; lia).
      lia.
Qed.

(** *** The report *)

(** More fields of the report when there is a sentence and a word. *)
Lemma analyze_more_fields (text : jsstring) :
  splitIntoSentences text <> [] -> alphabetic_words text <> [] ->
  let sentences := splitIntoSentences text in
  let words := alphabetic_words text in
  let raw := rawFlesch (length words) (length sentences)
               (fold_left (fun sum word => (sum + countSyllables word)%Z) words 0%Z) in
  let r := analyzeReadability text in
  fleschGrade r = getFleschGrade (Qmax 0 (Qmin 100 raw))
  /\ passiveVoicePercent r
     = Math_round (of_nat (length (List.filter isPassiveVoice sentences))
                   / of_nat (length sentences) * 100)%Q.
Proof.
  intros Hs Hw. unfold Readability.analyzeReadability, Readability.analyze. cbv zeta.
  destruct (length (splitIntoSentences text) =? 0) eqn:E1.
  { apply length_zero_nil in E1. contradiction. }
  destruct (length (alphabetic_words text) =? 0) eqn:E2.
  { apply length_zero_nil in E2. contradiction. }
  split; reflexivity.
Qed.

(** X4.  The share of passive sentences in the report is a whole number
    of percent between 0 and 100, for every text. *)
Theorem analyzeReadability_passive_percent (text : jsstring) :
  (0 <= passiveVoicePercent (analyzeReadability text) <= 100)%Z.
Proof.
  destruct (splitIntoSentences text) as [|s0 l0] eqn:Es.
  { unfold Readability.analyzeReadability.
    rewrite analyze_unable by (left; assumption). simpl. lia. }
  destruct (analyze_more_fields text) as [_ Hp].
  - rewrite Es. discriminate.
  - apply sentences_need_words. rewrite Es. discriminate.
  - rewrite Hp, Es. clear Hp.
    set (sentences := s0 :: l0).
    pose proof (filter_length_le isPassiveVoice sentences) as Hle.
    assert (0 < length sentences) as Hpos by (simpl; lia).
    set (p := length (List.filter isPassiveVoice sentences)) in *.
    set (n := length sentences) in *.
    assert (0 < of_nat n)%Q as Hn.
    { unfold of_nat. change 0%Q with (inject_Z 0). rewrite <- Zlt_Qlt. lia. }
    assert (0 <= of_nat p)%Q as Hp0.
    { unfold of_nat. change 0%Q with (inject_Z 0). rewrite <- Zle_Qle. lia. }
    assert (of_nat p <= of_nat n)%Q as Hpn.
    { unfold of_nat. rewrite <- Zle_Qle. lia. }
    assert (0 <= of_nat p / of_nat n)%Q as H0.
    { apply Qle_shift_div_l; [assumption | lra]. }
    assert (of_nat p / of_nat n <= 1)%Q as H1.
    { apply Qle_shift_div_r; [assumption | lra]. }
    split.
    + apply Math_round_le. change (inject_Z 0) with 0%Q. lra.
    + apply Math_round_ge. change (inject_Z 100) with 100%Q. lra.
Qed.

(** X5.  When a sentence was found, the grade of the report is the
    grade of the score that the report shows, unless that score is one of
    the seven scores at which the grade changes: the grade is taken from
    the score before it is rounded. *)
Theorem analyzeReadability_grade_of_score (text : jsstring) :
  let r := analyzeReadability text in
  totalSentences r <> 0 ->
  Forall (fun edge => ~ (fleschScore r == edge)%Q) grade_edges ->
  fleschGrade r = getFleschGrade (fleschScore r).
Proof.
  intros r Hn Hedges.
  destruct (splitIntoSentences text) as [|s0 l0] eqn:Es.
  { exfalso. apply Hn. unfold r, Readability.analyzeReadability.
    rewrite analyze_unable by (left; assumption). reflexivity. }
  assert (splitIntoSentences text <> []) as Hs by (rewrite Es; discriminate).
  assert (alphabetic_words text <> []) as Hw by (apply sentences_need_words; assumption).
  destruct (analyze_more_fields text Hs Hw) as [Hg _].
  destruct (analyze_fields toLowerCase syllable text Hs Hw) as (_ & _ & _ & Hf & _).
  fold r in Hg, Hf. rewrite Hg.
  set (c := Qmax 0 (Qmin 100 _)) in *.
  rewrite Hf in Hedges. rewrite Hf. clear Hf Hg.
  unfold grade_edges in Hedges.
  repeat match goal with
         | H : Forall _ (_ :: _) |- _ => apply Forall_cons_1 in H as [? H]
         end.
  unfold getFleschGrade.
  rewrite (round_edge c 90 900), (round_edge c 80 800), (round_edge c 70 700),
    (round_edge c 60 600), (round_edge c 50 500), (round_edge c 30 300),
    (round_edge c 10 100) by (reflexivity || assumption).
  reflexivity.
Qed.

End Syllables.

Lemma countSyllables_bounds_witness :
  (1 <= Readability.countSyllables toLowerCase_ascii syllable_throws (str "Rhythm"))%Z
  /\ (2 * Readability.countSyllables toLowerCase_ascii syllable_throws (str "Rhythm")
      <= 7)%Z.
Proof.
  pose proof (countSyllables_bounds toLowerCase_ascii syllable_throws (str "Rhythm"))
    as (_ & H1 & H2).
  split.
  - apply H1. vm_compute. discriminate.
  - apply H2. reflexivity.
Defined.

Lemma analyzeReadability_grade_of_score_witness :
  fleschGrade
    (Readability.analyzeReadability toLowerCase_ascii syllable_throws
       (str "The cat sat on the mat. It was a nice day."))
  = getFleschGrade
      (fleschScore
         (Readability.analyzeReadability toLowerCase_ascii syllable_throws
            (str "The cat sat on the mat. It was a nice day."))).
Proof.
  apply (analyzeReadability_grade_of_score toLowerCase_ascii syllable_throws
           (str "The cat sat on the mat. It was a nice day.")).
  - vm_compute. discriminate.
  - vm_compute. repeat constructor; discriminate.
Defined.

(** *** Sentences *)

Lemma ends_clean_cons (c : char) (s : jsstring) :
  ends_clean (c :: s) = match s with [] => negb (is_space c) | _ :: _ => ends_clean s end.
Proof. destruct s; reflexivity. Qed.

Lemma ends_clean_app (a b : jsstring) :
  ends_clean (a ++ b) = match b with [] => ends_clean a | _ :: _ => ends_clean b end.
Proof.
  induction a as [|c a IH]; [destruct b; reflexivity|].
  destruct b as [|d b]; [rewrite app_nil_r; reflexivity|].
  change ((c :: a) ++ d :: b) with (c :: (a ++ d :: b)).
  rewrite ends_clean_cons, IH. destruct a; reflexivity.
Qed.

Lemma trimStart_starts_clean (s : jsstring) : starts_clean (trimStart s) = true.
Proof.
  induction s as [|c s IH]; [reflexivity|]. simpl.
  destruct (is_space c) eqn:E; [assumption|]. simpl. rewrite E. reflexivity.
Qed.

Lemma trimEnd_ends_clean (s : jsstring) : ends_clean (trimEnd s) = true.
Proof.
  induction s as [|c s IH]; [reflexivity|]. rewrite trimEnd_cons.
  destruct (trimEnd s) as [|d t] eqn:E.
  - destruct (is_space c) eqn:Ec; [reflexivity|]. simpl. rewrite Ec. reflexivity.
  - rewrite ends_clean_cons. assumption.
Qed.

Lemma trimEnd_starts_clean (s : jsstring) :
  starts_clean s = true -> starts_clean (trimEnd s) = true.
Proof.
  destruct s as [|c s]; [reflexivity|]. intros Hc. simpl in Hc.
  apply negb_true_iff in Hc. rewrite trimEnd_not_space by assumption.
  simpl. rewrite Hc. reflexivity.
Qed.

Lemma trim_clean (s : jsstring) :
  starts_clean (trim s) = true /\ ends_clean (trim s) = true.
Proof.
  unfold trim. split.
  - apply trimEnd_starts_clean, trimStart_starts_clean.
  - apply trimEnd_ends_clean.
Qed.

(** The match of a literal text. *)
Lemma exec_lits (lit : jsstring) (before : option char) (s : jsstring) :
  is_prefix lit s = true -> exec false (lits lit) before s = Some (length lit, []).
Proof.
  intros H. unfold exec.
  pose proof (run_lits lit {| prev := before; rest := s; pos := 0; caps := [] |}) as Hr.
  simpl in Hr. rewrite H in Hr. destruct Hr as (st' & -> & Hp & Hc).
  rewrite Hp, Hc. reflexivity.
Qed.

Section ReplaceLiteral.
Variable lit : jsstring.
Variable l0 : char.
Variable lit' : jsstring.
Hypothesis lit_cons : lit = l0 :: lit'.

(** A literal text is replaced by a period. *)
Local Abbreviation put := (replace_from false (lits lit) [Txt [dot]]).

Lemma put_nil (skip : nat) (before : option char) : put skip before [] = [].
Proof.
  simpl. destruct skip; [|reflexivity].
  rewrite exec_lits_none; [reflexivity|]. rewrite lit_cons. reflexivity.
Qed.

Lemma put_skip (skip : nat) (before : option char) (c : char) (s : jsstring) :
  put (S skip) before (c :: s) = put skip (Some c) s.
Proof. reflexivity. Qed.

Lemma put_cons (before : option char) (c : char) (s : jsstring) :
  put 0 before (c :: s)
  = if is_prefix lit (c :: s) then dot :: put (length lit') (Some c) s
    else c :: put 0 (Some c) s.
Proof.
  rewrite replace_from_step.
  destruct (is_prefix lit (c :: s)) eqn:E.
  - rewrite exec_lits by assumption. rewrite lit_cons. reflexivity.
  - rewrite exec_lits_none by assumption. reflexivity.
Qed.

Lemma put_starts_clean (s : jsstring) :
  starts_clean s = true -> starts_clean (put 0 None s) = true.
Proof.
  destruct s as [|c s]; intros H; [rewrite put_nil; reflexivity|].
  rewrite put_cons. destruct (is_prefix lit (c :: s)); [reflexivity | assumption].
Qed.

Lemma put_ends_clean (s : jsstring) :
  forall skip before,
    ends_clean s = true -> ends_clean (put skip before s) = true.
Proof.
  induction s as [|c s IH]; intros skip before H; [rewrite put_nil; reflexivity|].
  assert (ends_clean s = true) as Hs.
  { rewrite ends_clean_cons in H. destruct s; [reflexivity | assumption]. }
  destruct skip as [|skip]; [|rewrite put_skip; apply IH; assumption].
  rewrite put_cons. destruct (is_prefix lit (c :: s)).
  - rewrite ends_clean_cons.
    destruct (put (length lit') (Some c) s) eqn:E; [reflexivity|].
    rewrite <- E. apply IH. assumption.
  - rewrite ends_clean_cons.
    destruct s as [|d s'].
    + rewrite put_nil. assumption.
    + specialize (IH 0 (Some c) Hs). rewrite put_cons in *.
      destruct (is_prefix lit (d :: s')); assumption.
Qed.

Lemma put_clean (s : jsstring) :
  starts_clean s = true /\ ends_clean s = true ->
  starts_clean (replace false (lits lit) [Txt [dot]] s) = true
  /\ ends_clean (replace false (lits lit) [Txt [dot]] s) = true.
Proof.
  intros [H1 H2]. unfold replace.
  split; [apply put_starts_clean | apply put_ends_clean]; assumption.
Qed.

End ReplaceLiteral.

Lemma restore_clean (s : jsstring) :
  starts_clean s = true /\ ends_clean s = true ->
  starts_clean (restore s) = true /\ ends_clean (restore s) = true.
Proof.
  intros H. unfold restore, placeholder_regex.
  eapply put_clean; [reflexivity|].
  eapply put_clean; [reflexivity|].
  eapply put_clean; [reflexivity|]. assumption.
Qed.

Lemma has_letter_countWords (s : jsstring) : has_letter s = true -> 1 <= countWords s.
Proof.
  intros H. unfold countWords, split_ws.
  pose proof (proj1 (split_word_run_letters s) []) as Hw.
  rewrite H, orb_true_r in Hw. apply existsb_exists in Hw as (w & Hin & Hl).
  assert (In w (List.filter (fun w => 0 <? length w) (split_word false [] s))) as Hf.
  { apply List.filter_In. split; [assumption|]. destruct w; [discriminate | reflexivity]. }
  destruct (List.filter (fun w => 0 <? length w) (split_word false [] s));
    [contradiction | simpl; lia].
Qed.

(** X6.  Every sentence that [splitIntoSentences] returns has a letter,
    so it is not empty and has a word, and it neither starts nor ends with
    whitespace. *)
Theorem splitIntoSentences_clean (text : jsstring) :
  Forall (fun sentence =>
            has_letter sentence = true /\ sentence <> []
            /\ 1 <= countWords sentence
            /\ starts_clean sentence = true /\ ends_clean sentence = true)
    (splitIntoSentences text).
Proof.
  apply List.Forall_forall. intros sentence Hin.
  unfold splitIntoSentences in Hin.
  apply List.filter_In in Hin as [Hin Hf].
  apply andb_true_iff in Hf as [Hlen Hl].
  apply List.in_map_iff in Hin as (trimmed & <- & Hin).
  apply List.in_map_iff in Hin as (piece & <- & _).
  split; [assumption|].
  split; [intros E; rewrite E in Hlen; discriminate|].
  split; [apply has_letter_countWords; assumption|].
  apply restore_clean, trim_clean.
Qed.

(** *** Passive voice *)

Lemma step_nil (p : char -> bool) (st : mstate) :
  (forall d, p d = true -> is_space d = true) ->
  forallb (fun c => negb (is_space c)) (rest st) = true ->
  step p st = [].
Proof.
  intros Hp Hs. unfold step. destruct (rest st) as [|d s']; [reflexivity|].
  simpl in Hs. apply andb_true_iff in Hs as [Hd _].
  destruct (p d) eqn:E; [|reflexivity].
  rewrite (Hp d E) in Hd. discriminate.
Qed.

(** The text that is left after a match is an end of the text. *)
Lemma run_rest (icase : bool) (r : regex) (st st' : mstate) :
  In st' (run icase r st) ->
  forallb (fun c => negb (is_space c)) (rest st) = true ->
  forallb (fun c => negb (is_space c)) (rest st') = true.
Proof.
  intros Hin Hs.
  destruct (run_extends icase (fun _ => true) r (within_true icase r) st st' Hin)
    as (w & newcaps & Hr & _).
  rewrite Hr, forallb_app in Hs. apply andb_true_iff in Hs. tauto.
Qed.

Lemma flat_map_nil {A B} (f : A -> list B) (l : list A) :
  (forall x, In x l -> f x = []) -> flat_map f l = [].
Proof.
  induction l as [|x l IH]; intros H; [reflexivity|]. simpl.
  rewrite (H x) by (left; reflexivity). apply IH. intros y Hy. apply H. right. assumption.
Qed.

(** An expression that needs whitespace has no match in a text without
    whitespace. *)
Lemma run_needs_space (icase : bool) (r : regex) :
  needs_space icase r ->
  forall st, forallb (fun c => negb (is_space c)) (rest st) = true ->
             run icase r st = [].
Proof.
  induction r as [| c | p | r1 IH1 r2 IH2 | r1 IH1 r2 IH2 | r IH | r IH | | | r IH];
    simpl; intros Hn st Hs; try contradiction.
  - apply step_nil; assumption.
  - apply step_nil; assumption.
  - destruct Hn as [Hn|Hn].
    + rewrite IH1 by assumption. reflexivity.
    + apply flat_map_nil. intros st' Hin. apply IH2; [assumption|].
      apply (run_rest icase r1 st); assumption.
  - destruct Hn as [Hn1 Hn2]. rewrite IH1, IH2 by assumption. reflexivity.
  - rewrite IH by assumption. reflexivity.
Qed.

Lemma test_from_needs_space (icase : bool) (r : regex) (s : jsstring) :
  needs_space icase r ->
  forall before, forallb (fun c => negb (is_space c)) s = true ->
                 test_from icase r before s = false.
Proof.
  intros Hn. induction s as [|c s IH]; intros before Hs.
  - simpl. unfold exec. rewrite run_needs_space by assumption. reflexivity.
  - simpl. unfold exec. rewrite run_needs_space by assumption.
    apply IH. simpl in Hs. apply andb_true_iff in Hs. tauto.
Qed.

Lemma needs_space_third (icase : bool) (r1 r2 : regex) (rs : list regex) :
  needs_space icase (cats (r1 :: r2 :: spaces :: rs)).
Proof.
  assert (needs_space icase spaces) as Hsp.
  { left. intros d H. assumption. }
  change (cats (r1 :: r2 :: spaces :: rs))
    with (Cat r1 (Cat r2 (cats (spaces :: rs)))).
  right. right. destruct rs as [|r rs]; [assumption|]. left. assumption.
Qed.

Lemma passivePatterns_need_space :
  Forall (needs_space true) passivePatterns.
Proof.
  unfold passivePatterns. apply Forall_app. split.
  - constructor; [apply needs_space_third|].
    constructor; [apply needs_space_third | constructor].
  - apply Forall_map. apply List.Forall_forall. intros modal _.
    apply needs_space_third.
Qed.

(** X7.  A sentence without whitespace is never passive: each of the
    nine patterns needs an auxiliary, whitespace and a participle. *)
Theorem isPassiveVoice_needs_space (sentence : jsstring) :
  forallb (fun c => negb (is_space c)) sentence = true ->
  isPassiveVoice sentence = false.
Proof.
  intros Hs. unfold isPassiveVoice.
  destruct (existsb _ passivePatterns) eqn:E; [|reflexivity].
  apply existsb_exists in E as (pattern & Hin & Ht).
  pose proof (proj1 (List.Forall_forall _ _) passivePatterns_need_space pattern Hin) as Hn.
  unfold test in Ht. rewrite test_from_needs_space in Ht by assumption. discriminate.
Qed.

Example splitIntoSentences_clean_example :
  splitIntoSentences (str "  It works.   We checked it twice!  ")
  = [str "It works."; str "We checked it twice!"].
Proof. vm_compute. reflexivity. Qed.

Lemma isPassiveVoice_needs_space_witness :
  isPassiveVoice (str "was-used") = false.
Proof. apply isPassiveVoice_needs_space. reflexivity. Defined.

End ReadabilityMore.

(** * Properties of the routes *)

Module RoutesProofs.
Import Schema Routes RoutesSpec ReadabilityMore.

(** *** The scores *)

Lemma score_of_range (aiCriterion : option AiCriterion) :
  (1 <= score_of aiCriterion <= 10)%Z.
Proof. unfold score_of. lia. Qed.

Lemma imap_map {A B C} (f : nat -> A -> B) (g : B -> C) (h : A -> C) (l : list A) :
  (forall i x, g (f i x) = h x) -> List.map g (imap f l) = List.map h l.
Proof.
  revert f. induction l as [|x l IH]; intros f H; [reflexivity|].
  simpl. rewrite H. f_equal. apply IH. intros i y. apply H.
Qed.

Lemma imap_Forall {A B} (f : nat -> A -> B) (P : B -> Prop) (l : list A) :
  (forall i x, P (f i x)) -> Forall P (imap f l).
Proof.
  revert f. induction l as [|x l IH]; intros f H; constructor.
  - apply H.
  - apply IH. intros i y. apply H.
Qed.

Lemma imap_In {A B} (f : nat -> A -> B) (l : list A) (y : B) :
  In y (imap f l) -> exists i x, In x l /\ y = f i x.
Proof.
  revert f. induction l as [|x l IH]; intros f Hin; [destruct Hin|].
  destruct Hin as [<-|Hin].
  - exists 0, x. split; [left; reflexivity|reflexivity].
  - destruct (IH _ Hin) as (i & x' & Hx & E).
    exists (S i), x'. split; [right; exact Hx|exact E].
Qed.

Lemma filter_sublist_of {A} (p : A -> bool) (l : list A) : List.filter p l `sublist_of` l.
Proof.
  induction l as [|x l IH]; simpl; [constructor|].
  destruct (p x); [apply sublist_skip | apply sublist_cons]; assumption.
Qed.

Section Scores.
Variable toLowerCase : jsstring -> jsstring.

Lemma criterion_score_ok (ending : jsstring) (c : Criterion)
    (aiCriterion : option AiCriterion) :
  let s := criterion_score toLowerCase ending c aiCriterion in
  (1 <= score s <= 10)%Z /\ ((8 <= score s)%Z -> missing s = None).
Proof.
  simpl. split; [apply score_of_range|]. intros H.
  destruct (Z.ltb_spec (score_of aiCriterion) 8); [lia | reflexivity].
Qed.

Lemma scores_well_scored (sectionType : SectionType)
    (parsed_response : ParsedResponse) :
  well_scored sectionType (criteriaScores toLowerCase sectionType parsed_response)
  /\ well_scored sectionType
       (figureCriteriaScores toLowerCase sectionType parsed_response).
Proof.
  split; (split; [|split]);
    solve [ apply imap_map; reflexivity
          | apply imap_Forall; intros i c; apply criterion_score_ok ].
Qed.


(** The weights of every section type add up to 100, and none is
    negative. *)
Lemma sectionCriteria_weights (sectionType : SectionType) :
  total_weight (sectionCriteria sectionType) = 100%Z
  /\ Forall (fun c => (0 <= weight c)%Z) (sectionCriteria sectionType).
Proof.
  split.
  - destruct sectionType; vm_compute; reflexivity.
  - destruct sectionType; repeat constructor; discriminate.
Qed.

Lemma weighted_sum_score_sum (scores : list CriterionScore) :
  forall sum, (weighted_sum sum scores == sum + inject_Z (score_sum scores) / 100)%Q.
Proof.
  unfold weighted_sum, score_sum.
  induction scores as [|c scores IH]; intros sum; simpl.
  - change (inject_Z 0) with 0%Q. field.
  - rewrite IH, inject_Z_plus. field.
Qed.

Lemma score_sum_bounds (scores : list CriterionScore) :
  Forall (fun c => (1 <= score c <= 10)%Z /\ (0 <= score_weight c)%Z) scores ->
  (fold_right Z.add 0 (List.map score_weight scores) <= score_sum scores
   <= 10 * fold_right Z.add 0 (List.map score_weight scores))%Z.
Proof.
  unfold score_sum. induction 1 as [|c scores [Hs Hw] _ IH]; simpl; [lia|]. nia.
Qed.

Lemma round1_range (x : Q) (lo hi : Z) :
  (inject_Z lo <= x)%Q -> (x <= inject_Z hi)%Q ->
  (inject_Z lo <= round1 x)%Q /\ (round1 x <= inject_Z hi)%Q.
Proof.
  intros Hlo Hhi. unfold round1.
  assert (lo * 10 <= Readability.Math_round (x * 10))%Z as H1.
  { apply Math_round_le. rewrite inject_Z_mult. change (inject_Z 10) with 10%Q.
    name_integers. lra. }
  assert (Readability.Math_round (x * 10) <= hi * 10)%Z as H2.
  { apply Math_round_ge. rewrite inject_Z_mult. change (inject_Z 10) with 10%Q.
    name_integers. lra. }
  rewrite Zle_Qle, inject_Z_mult in H1, H2. change (inject_Z 10) with 10%Q in H1, H2.
  split.
  - apply Qle_shift_div_l; [reflexivity|]. assumption.
  - apply Qle_shift_div_r; [reflexivity|]. assumption.
Qed.

Lemma well_scored_score_sum (sectionType : SectionType) (scores : list CriterionScore) :
  well_scored sectionType scores -> (100 <= score_sum scores <= 1000)%Z.
Proof.
  intros (Hn & Hw & Hs).
  destruct (sectionCriteria_weights sectionType) as [Htotal Hpos].
  unfold total_weight in Htotal. rewrite <- Hw in Htotal.
  assert (forall w, List.In w (List.map score_weight scores) -> (0 <= w)%Z) as Hpos'.
  { rewrite Hw. intros w Hin. apply List.in_map_iff in Hin as (c & <- & Hc).
    apply (proj1 (List.Forall_forall _ _) Hpos c Hc). }
  pose proof (score_sum_bounds scores) as Hd. rewrite Htotal in Hd. apply Hd.
  apply List.Forall_forall. intros c Hc. split.
  - apply (proj1 (List.Forall_forall _ _) Hs c Hc).
  - apply Hpos'. apply List.in_map. assumption.
Qed.

Lemma evaluation_of_range (sectionType : SectionType)
    (scores : list CriterionScore) (parsed_response : ParsedResponse)
    (arguments : option (list SupportArgument)) (points : option (list KeyPoint)) :
  well_scored sectionType scores ->
  let result := evaluation_of sectionType scores parsed_response arguments points in
  (1 <= overallScore result)%Q /\ (overallScore result <= 10)%Q.
Proof.
  intros H. apply well_scored_score_sum in H. simpl.
  destruct H as [H1 H2]. rewrite Zle_Qle in H1, H2.
  change (inject_Z 100) with 100%Q in H1. change (inject_Z 1000) with 1000%Q in H2.
  assert (inject_Z (score_sum scores) / 100 == inject_Z (score_sum scores) * (1 # 100))%Q as E
    by field.
  apply (round1_range _ 1 10); rewrite weighted_sum_score_sum, E;
    change (inject_Z 1) with 1%Q; change (inject_Z 10) with 10%Q;
    name_integers; lra.
Qed.



Lemma Math_round_Z (n : Z) : Readability.Math_round (inject_Z n) = n.
Proof.
  pose proof (Math_round_le (inject_Z n) n (Qle_refl _)).
  pose proof (Math_round_ge (inject_Z n) n (Qle_refl _)). lia.
Qed.

Lemma round1_comp (x y : Q) : (x == y)%Q -> round1 x = round1 y.
Proof.
  intros H. unfold round1, Readability.Math_round. f_equal. f_equal.
  apply Qfloor_comp. rewrite H. reflexivity.
Qed.

Lemma score_sum_uniform (scores : list CriterionScore) (v : Z) :
  Forall (fun c => score c = v) scores ->
  score_sum scores = (v * fold_right Z.add 0 (List.map score_weight scores))%Z.
Proof.
  unfold score_sum. induction 1 as [|c scores Hc _ IH]; simpl; [lia|]. rewrite IH, Hc. lia.
Qed.

Lemma evaluation_of_uniform (sectionType : SectionType)
    (scores : list CriterionScore) (parsed_response : ParsedResponse)
    (arguments : option (list SupportArgument)) (points : option (list KeyPoint))
    (v : Z) :
  well_scored sectionType scores ->
  Forall (fun c => score c = v) scores ->
  (overallScore (evaluation_of sectionType scores parsed_response arguments points)
   == inject_Z v)%Q.
Proof.
  intros (_ & Hw & _) Hv. simpl.
  destruct (sectionCriteria_weights sectionType) as [Htotal _].
  unfold total_weight in Htotal. rewrite <- Hw in Htotal.
  rewrite (round1_comp _ (inject_Z v)).
  - unfold round1. change (inject_Z v * 10)%Q with (inject_Z v * inject_Z 10)%Q.
    rewrite <- (inject_Z_mult v 10), Math_round_Z, inject_Z_mult.
    change (inject_Z 10) with 10%Q. field.
  - rewrite weighted_sum_score_sum, (score_sum_uniform scores v Hv), Htotal, inject_Z_mult.
    change (inject_Z 100) with 100%Q. field.
Qed.


(** [includes] holds exactly when the text occurs somewhere in the string. *)
Lemma is_prefix_app (p s : jsstring) :
  Readability.is_prefix p s = true <-> exists after, s = p ++ after.
Proof.
  revert s. induction p as [|x p IH]; intros s; simpl.
  - split; [intros _; exists s; reflexivity|reflexivity].
  - destruct s as [|y s].
    + split; [discriminate|intros [after H]; discriminate H].
    + rewrite Bool.andb_true_iff, N.eqb_eq, IH. split.
      * intros [-> [after ->]]. exists after. reflexivity.
      * intros [after [= -> ->]]. split; [reflexivity|]. exists after. reflexivity.
Qed.

Lemma includes_app (s sub : jsstring) :
  includes s sub = true <-> exists before after, s = before ++ sub ++ after.
Proof.
  induction s as [|c s IH].
  - simpl. rewrite Bool.orb_false_r, is_prefix_app. split.
    + intros [after H]. exists [], after. exact H.
    + intros [[|b before] [after H]]; [exists after; exact H|discriminate H].
  - cbn [includes]. rewrite Bool.orb_true_iff, is_prefix_app, IH. split.
    + intros [[after H]|[before [after H]]].
      * exists [], after. exact H.
      * exists (c :: before), after. rewrite H. reflexivity.
    + intros [[|b before] [after H]].
      * left. exists after. exact H.
      * right. injection H as _ H. exists before, after. exact H.
Qed.

Lemma if_any_Some {A} (xs ys : list A) :
  if_any xs = Some ys -> ys = xs /\ 0 < length ys.
Proof.
  destruct xs as [|x xs]; [discriminate|]. intros [= <-]. simpl. split; [reflexivity|lia].
Qed.

Lemma filter_length_firstn {A} (f : A -> bool) (n : nat) (l : list A) :
  length (List.filter f (firstn n l)) <= n.
Proof.
  etransitivity; [apply List.filter_length_le|]. apply List.firstn_le_length.
Qed.

(** X11.  Of the key points of an answer, [evaluateText] looks at the first
    seven and returns those that quote the text: every key point it
    returns has a source quote which is not empty and which, with its runs
    of white space replaced by one space and in lower case, occurs in the
    text treated in the same way.  The quotes it returns are quotes of the
    answer, in the order of the answer.  It returns at most seven key
    points and at most five support arguments, none of them selected, and
    leaves either field out instead of returning an empty list. *)
Theorem evaluateText_keyPoints_quoted (text : jsstring) (sectionType : SectionType)
    (parsed_response : ParsedResponse) :
  exists result,
    evaluateText toLowerCase text sectionType (Some parsed_response) = Some result
    /\ (forall points,
          evaluation_keyPoints result = Some points ->
          0 < length points <= 7
          /\ Forall
               (fun kp =>
                  sourceQuote kp <> []
                  /\ exists before after,
                       toLowerCase (one_space text)
                       = before ++ toLowerCase (one_space (sourceQuote kp)) ++ after)
               points
          /\ exists answered,
               keyPoints parsed_response = Some answered
               /\ sublist (List.map (fun kp => Some (sourceQuote kp)) points)
                    (List.map raw_sourceQuote (firstn 7 answered)))
    /\ (forall arguments,
          evaluation_supportArguments result = Some arguments ->
          0 < length arguments <= 5
          /\ Forall (fun arg => selected arg = Some false) arguments).
Proof.
  eexists. split; [reflexivity|]. simpl. split.
  - intros points H. apply if_any_Some in H as [-> Hl].
    unfold validatedKeyPoints in *. rewrite length_imap in *.
    split; [split; [assumption|apply filter_length_firstn]|].
    set (raw := firstn 7 _) in *.
    assert (forall kp, In kp (List.filter (quoted_in toLowerCase text) raw) ->
            exists quote, raw_sourceQuote kp = Some quote /\ quote <> []
              /\ or_text [] (raw_sourceQuote kp) = quote
              /\ includes (toLowerCase (one_space text))
                   (toLowerCase (one_space quote)) = true) as Hq.
    { intros kp Hin. apply List.filter_In in Hin as [_ Hin].
      unfold quoted_in, or_text in *.
      destruct (raw_sourceQuote kp) as [[|c quote]|]; simpl in *; try discriminate.
      exists (c :: quote). repeat split; [discriminate|assumption]. }
    split.
    + clear Hl. revert Hq. generalize (List.filter (quoted_in toLowerCase text) raw).
      intros l Hq. apply List.Forall_forall. intros kp Hin.
      assert (exists raw_kp, In raw_kp l
                /\ sourceQuote kp = or_text [] (raw_sourceQuote raw_kp)) as (r & Hr & E).
      { apply imap_In in Hin as (i & r & Hr & ->). exists r. split; [exact Hr|reflexivity]. }
      destruct (Hq r Hr) as (quote & _ & Hn & Ho & Hi). rewrite E, Ho.
      split; [exact Hn|]. apply includes_app. exact Hi.
    + destruct (keyPoints parsed_response) as [answered|] eqn:Ea.
      * exists answered. split; [reflexivity|]. fold raw.
        rewrite (imap_map _ _ (fun kp => Some (or_text [] (raw_sourceQuote kp))))
          by reflexivity.
        rewrite (List.map_ext_in _ raw_sourceQuote).
        -- clear Hq Hl. generalize raw. intros l.
           induction l as [|x l IH]; simpl; [constructor|].
           destruct (quoted_in toLowerCase text x); simpl;
             [apply sublist_skip | apply sublist_cons]; exact IH.
        -- intros kp Hin. destruct (Hq kp Hin) as (quote & -> & _ & Ho & _).
           f_equal. exact Ho.
      * subst raw. simpl in Hl. lia.
  - intros arguments H. apply if_any_Some in H as [-> Hl].
    unfold support_arguments in *. rewrite length_imap in *.
    split; [split; [assumption|apply List.firstn_le_length]|].
    apply imap_Forall. reflexivity.
Qed.

End Scores.


(** *** The writing examples *)

Lemma filter_nil_Forall {A} (p : A -> bool) (l : list A) :
  List.filter p l = [] <-> Forall (fun x => p x = false) l.
Proof.
  induction l as [|x l IH]; simpl.
  - split; [constructor | reflexivity].
  - destruct (p x) eqn:E.
    + split; [discriminate|]. intros H. apply Forall_cons_1 in H as [H _]. simpl in H. congruence.
    + rewrite IH. split; [intros H; constructor; assumption|].
      intros H. apply Forall_cons_1 in H as [_ H]. assumption.
Qed.

Lemma In_firstn_filter {A} (p : A -> bool) (n : nat) (l : list A) (x : A) :
  In x (firstn n (List.filter p l)) -> In x l /\ p x = true.
Proof.
  intros H. apply List.filter_In.
  revert H. generalize (List.filter p l). clear l.
  induction n as [|n IH]; intros l H; [contradiction|].
  destruct l as [|y l]; [contradiction|].
  destruct H as [H|H]; [left; assumption | right; apply IH; assumption].
Qed.

Lemma firstn_nil_iff {A} (l : list A) : firstn 2 l = [] <-> l = [].
Proof. destruct l; simpl; split; congruence. Qed.

(** What the function returns: the first two examples of the discipline
    and the section when the discipline is given and has an example, and
    the first two of the section otherwise. *)
Lemma getRelevantExamples_cases (examples : list WritingExample)
    (sectionType : jsstring) (discipline : option jsstring) :
  (exists d, truthy discipline = Some d
             /\ List.filter (of_both sectionType d) examples <> []
             /\ getRelevantExamples examples sectionType discipline
                = firstn 2 (List.filter (of_both sectionType d) examples))
  \/ ((forall d, truthy discipline = Some d ->
                 List.filter (of_both sectionType d) examples = [])
      /\ getRelevantExamples examples sectionType discipline
         = firstn 2 (List.filter (of_section sectionType) examples)).
Proof.
  unfold getRelevantExamples. fold (normalizedSection sectionType).
  change (fun e => jsstring_eqb (Schema.sectionType e) (normalizedSection sectionType))
    with (of_section sectionType).
  assert ((if 0 <? length (List.filter (of_section sectionType) examples)
           then firstn 2 (List.filter (of_section sectionType) examples) else [])
          = firstn 2 (List.filter (of_section sectionType) examples)) as ->.
  { destruct (List.filter (of_section sectionType) examples); reflexivity. }
  destruct (truthy discipline) as [d|].
  - change (fun e => jsstring_eqb (Schema.discipline e) d
                     && jsstring_eqb (Schema.sectionType e) (normalizedSection sectionType))
      with (of_both sectionType d).
    destruct (List.filter (of_both sectionType d) examples) as [|e l] eqn:E.
    + right. split; [|reflexivity]. intros d' Hd. injection Hd as <-. assumption.
    + left. exists d. rewrite E. repeat split. discriminate.
  - right. split; [discriminate | reflexivity].
Qed.

Lemma of_section_true (sectionType : jsstring) (e : WritingExample) :
  of_section sectionType e = true <-> Schema.sectionType e = normalizedSection sectionType.
Proof. apply WordDiffProofs.jsstring_eqb_eq. Qed.

Lemma of_both_true (sectionType d : jsstring) (e : WritingExample) :
  of_both sectionType d e = true
  <-> Schema.discipline e = d /\ Schema.sectionType e = normalizedSection sectionType.
Proof.
  unfold of_both. rewrite andb_true_iff, of_section_true, WordDiffProofs.jsstring_eqb_eq.
  reflexivity.
Qed.

Lemma getRelevantExamples_section (examples : list WritingExample)
    (sectionType : jsstring) (discipline : option jsstring) :
  Forall (fun e => Schema.sectionType e = normalizedSection sectionType)
    (getRelevantExamples examples sectionType discipline).
Proof.
  apply List.Forall_forall. intros e He.
  destruct (getRelevantExamples_cases examples sectionType discipline)
    as [(d & _ & _ & E)|[_ E]]; rewrite E in He;
    apply In_firstn_filter in He as [_ He].
  - apply of_both_true in He. tauto.
  - apply of_section_true in He. assumption.
Qed.

(** X12.  At most two examples are chosen; they are examples of the
    list, in its order, and all of the section that is searched, which is
    [conclusion] for every section type that starts with it.  None is
    chosen exactly when the list has no example of that section. *)
Theorem getRelevantExamples_sound (examples : list WritingExample)
    (sectionType : jsstring) (discipline : option jsstring) :
  let found := getRelevantExamples examples sectionType discipline in
  length found <= 2
  /\ found `sublist_of` examples
  /\ Forall (fun e => Schema.sectionType e = normalizedSection sectionType) found
  /\ (found = []
      <-> Forall (fun e => Schema.sectionType e <> normalizedSection sectionType)
            examples).
Proof.
  intros found. split; [|split; [|split]].
  - unfold found.
    destruct (getRelevantExamples_cases examples sectionType discipline)
      as [(d & _ & _ & E)|[_ E]]; rewrite E, length_firstn; lia.
  - unfold found.
    destruct (getRelevantExamples_cases examples sectionType discipline)
      as [(d & _ & _ & E)|[_ E]]; rewrite E;
      (etrans; [apply sublist_take | apply filter_sublist_of]).
  - apply getRelevantExamples_section.
  - assert (Forall (fun e => Schema.sectionType e <> normalizedSection sectionType)
              examples
            <-> List.filter (of_section sectionType) examples = []) as ->.
    { rewrite filter_nil_Forall. split; intros H; eapply List.Forall_impl; try exact H;
        intros e He; simpl in *.
      - destruct (of_section sectionType e) eqn:E; [|reflexivity].
        apply of_section_true in E. contradiction.
      - intros E. apply of_section_true in E. congruence. }
    unfold found.
    destruct (getRelevantExamples_cases examples sectionType discipline)
      as [(d & _ & Hne & E)|[_ E]]; rewrite E, firstn_nil_iff; [|reflexivity].
    split; [contradiction|]. intros Hs. exfalso. apply Hne.
    apply filter_nil_Forall. apply filter_nil_Forall in Hs.
    eapply List.Forall_impl; [|exact Hs]. intros e He. simpl in He.
    unfold of_both. rewrite He. apply andb_false_r.
Qed.

(** X13.  With a discipline that is given and not empty, the examples
    of that discipline and the section come first: when the list has one,
    every chosen example is of the discipline; when it has none, the
    choice is the one without a discipline. *)
Theorem getRelevantExamples_discipline (examples : list WritingExample)
    (sectionType : jsstring) (discipline : option jsstring) (d : jsstring) :
  truthy discipline = Some d ->
  let found := getRelevantExamples examples sectionType discipline in
  (Exists (fun e => Schema.discipline e = d
                    /\ Schema.sectionType e = normalizedSection sectionType) examples ->
   found <> [] /\ Forall (fun e => Schema.discipline e = d) found)
  /\ (Forall (fun e => ~ (Schema.discipline e = d
                          /\ Schema.sectionType e = normalizedSection sectionType))
        examples ->
      found = getRelevantExamples examples sectionType None).
Proof.
  intros Hd found.
  assert (List.filter (of_both sectionType d) examples = []
          <-> Forall (fun e => ~ (Schema.discipline e = d
                                  /\ Schema.sectionType e = normalizedSection sectionType))
                examples) as Hnone.
  { rewrite filter_nil_Forall. split; intros H; eapply List.Forall_impl; try exact H;
      intros e He; simpl in *.
    - intros Hb. apply of_both_true in Hb. congruence.
    - destruct (of_both sectionType d e) eqn:E; [|reflexivity].
      apply of_both_true in E. contradiction. }
  split.
  - intros Hex.
    destruct (getRelevantExamples_cases examples sectionType discipline)
      as [(d' & Hd' & Hne & E)|[Hnil _]].
    + rewrite Hd in Hd'. injection Hd' as <-. unfold found. rewrite E.
      split; [rewrite firstn_nil_iff; assumption|].
      apply List.Forall_forall. intros e He.
      apply In_firstn_filter in He as [_ He].
      apply of_both_true in He. tauto.
    + exfalso. specialize (Hnil d Hd). apply Hnone in Hnil.
      apply List.Exists_exists in Hex as (e & He & Hb).
      apply (proj1 (List.Forall_forall _ _) Hnil e He Hb).
  - intros Hall. apply Hnone in Hall. unfold found.
    destruct (getRelevantExamples_cases examples sectionType discipline)
      as [(d' & Hd' & Hne & E)|[_ E]].
    + rewrite Hd in Hd'. injection Hd' as <-. contradiction.
    + rewrite E.
      destruct (getRelevantExamples_cases examples sectionType None)
        as [(d' & Hd' & _)|[_ E']]; [discriminate|]. rewrite E'. reflexivity.
Qed.

(** X14.  An example that is filed under a section type that starts
    with [conclusion] and is not [conclusion] itself is never chosen,
    whatever the request is. *)
Theorem getRelevantExamples_conclusion_only (examples : list WritingExample)
    (sectionType : jsstring) (discipline : option jsstring) (e : WritingExample) :
  In e (getRelevantExamples examples sectionType discipline) ->
  Readability.is_prefix (str "conclusion") (Schema.sectionType e) = true ->
  Schema.sectionType e = str "conclusion".
Proof.
  intros He Hp.
  pose proof (getRelevantExamples_section examples sectionType discipline) as Hs.
  apply (proj1 (List.Forall_forall _ _) Hs) in He.
  unfold normalizedSection in He.
  destruct (Readability.is_prefix (str "conclusion") sectionType) eqn:E; [assumption|].
  rewrite He in Hp. congruence.
Qed.

Lemma getRelevantExamples_discipline_witness :
  let examples := [example_of "law" "abstract"; example_of "medicine" "abstract"] in
  getRelevantExamples examples (str "abstract") (Some (str "medicine"))
  = [example_of "medicine" "abstract"]
  /\ getRelevantExamples examples (str "abstract") (Some (str "education"))
     = getRelevantExamples examples (str "abstract") None.
Proof.
  intros examples. split; [vm_compute; reflexivity|].
  apply (getRelevantExamples_discipline examples (str "abstract")
           (Some (str "education")) (str "education")).
  - reflexivity.
  - repeat constructor; intros [H _]; vm_compute in H; discriminate.
Defined.

Lemma getRelevantExamples_conclusion_only_witness :
  Schema.sectionType (example_of "law" "conclusion") = str "conclusion".
Proof.
  apply (getRelevantExamples_conclusion_only
           [example_of "law" "conclusion_with_limits"; example_of "law" "conclusion"]
           (str "conclusion_with_limits") None).
  - vm_compute. left. reflexivity.
  - vm_compute. reflexivity.
Defined.

(** *** The cache of the examples *)

Lemma getWritingExamples_step (past : list (Z * option (list WritingExample)))
    (cache : ExamplesCache) (now : Z) (rows : option (list WritingExample)) :
  cache_from past cache ->
  cache_from (past ++ [(now, rows)]) (snd (getWritingExamples cache now rows))
  /\ ((rows = None /\ fst (getWritingExamples cache now rows) = [])
      \/ exists j t,
           j <= length past
           /\ (past ++ [(now, rows)]) !! j
              = Some (t, Some (fst (getWritingExamples cache now rows)))
           /\ (now - t < CACHE_TTL)%Z).
Proof.
  intros Hc.
  assert (cache_from (past ++ [(now, rows)]) cache) as Hc'.
  { unfold cache_from in *. destruct (examplesCache cache); [|exact I].
    destruct Hc as (j & Hj). exists j. apply lookup_app_l_Some. assumption. }
  assert (forall rows', rows = Some rows' ->
            (past ++ [(now, rows)]) !! length past = Some (now, Some rows')) as Hnew.
  { intros rows' ->. rewrite lookup_app_r by lia. rewrite Nat.sub_diag. reflexivity. }
  assert (let fetch :=
            match rows with
            | Some rows => (rows, {| examplesCache := Some rows; examplesCacheTime := now |})
            | None => ([], cache)
            end in
          cache_from (past ++ [(now, rows)]) (snd fetch)
          /\ ((rows = None /\ fst fetch = [])
              \/ exists j t,
                   j <= length past
                   /\ (past ++ [(now, rows)]) !! j = Some (t, Some (fst fetch))
                   /\ (now - t < CACHE_TTL)%Z)) as Hfetch.
  { destruct rows as [rows'|]; simpl.
    - split.
      + unfold cache_from. simpl. exists (length past). apply Hnew. reflexivity.
      + right. exists (length past), now. split; [lia|]. split; [apply Hnew; reflexivity|].
        unfold CACHE_TTL. lia.
    - split; [assumption|]. left. split; reflexivity. }
  unfold getWritingExamples. unfold cache_from in Hc.
  destruct (examplesCache cache) as [cached|] eqn:E; [|exact Hfetch].
  destruct (Z.ltb_spec (now - examplesCacheTime cache) CACHE_TTL) as [Hlt|_];
    [|exact Hfetch].
  simpl. split; [assumption|]. right.
  destruct Hc as (j & Hj). exists j, (examplesCacheTime cache).
  split; [apply lookup_lt_Some in Hj; lia|].
  split; [apply lookup_app_l_Some; assumption | assumption].
Qed.

Lemma getWritingExamples_calls_cons (cache : ExamplesCache) (now : Z)
    (rows : option (list WritingExample))
    (calls : list (Z * option (list WritingExample))) :
  fst (getWritingExamples_calls cache ((now, rows) :: calls))
  = fst (getWritingExamples cache now rows)
    :: fst (getWritingExamples_calls (snd (getWritingExamples cache now rows)) calls).
Proof.
  simpl. destruct (getWritingExamples cache now rows) as [examples cache'].
  simpl. destruct (getWritingExamples_calls cache' calls). reflexivity.
Qed.

Lemma getWritingExamples_calls_from (calls : list (Z * option (list WritingExample))) :
  forall past cache i now rows examples,
    cache_from past cache ->
    calls !! i = Some (now, rows) ->
    fst (getWritingExamples_calls cache calls) !! i = Some examples ->
    (rows = None /\ examples = [])
    \/ exists j t,
         j <= length past + i
         /\ (past ++ calls) !! j = Some (t, Some examples)
         /\ (now - t < CACHE_TTL)%Z.
Proof.
  induction calls as [|[now0 rows0] calls IH]; intros past cache i now rows examples
    Hc Hi Ha; [discriminate|].
  rewrite getWritingExamples_calls_cons in Ha.
  destruct (getWritingExamples_step past cache now0 rows0 Hc) as [Hc' Hstep].
  destruct i as [|i]; simpl in Hi, Ha.
  - injection Hi as -> ->. injection Ha as <-.
    destruct Hstep as [Hnone|(j & t & Hj & Hl & Ht)]; [left; assumption|].
    right. exists j, t. split; [lia|]. split; [|assumption].
    change ((now, rows) :: calls) with ([(now, rows)] ++ calls).
    rewrite app_assoc. apply lookup_app_l_Some. assumption.
  - destruct (IH (past ++ [(now0, rows0)]) _ i now rows examples Hc' Hi Ha)
      as [Hnone|(j & t & Hj & Hl & Ht)]; [left; assumption|].
    right. exists j, t. rewrite length_app in Hj. simpl in Hj.
    split; [lia|]. split; [|assumption].
    rewrite <- app_assoc in Hl. exact Hl.
Qed.

(** X15.  From the start of the server on, whatever the calls and the
    answers of the database are, a call returns either no example, when
    its query fails, or the rows of a query that succeeded, in this call
    or in an earlier one, less than five minutes before on the clock: no
    older rows are ever served. *)
Theorem getWritingExamples_calls_fresh
    (calls : list (Z * option (list WritingExample))) (i : nat) (now : Z)
    (rows : option (list WritingExample)) (examples : list WritingExample) :
  calls !! i = Some (now, rows) ->
  fst (getWritingExamples_calls no_examples calls) !! i = Some examples ->
  (rows = None /\ examples = [])
  \/ exists j t,
       j <= i /\ calls !! j = Some (t, Some examples) /\ (now - t < CACHE_TTL)%Z.
Proof.
  intros Hi Ha.
  apply (getWritingExamples_calls_from calls [] no_examples i now rows examples);
    [exact I | assumption | assumption].
Qed.

Lemma getWritingExamples_calls_fresh_witness :
  let rows := [example_of "law" "abstract"] in
  let calls := [(1000%Z, Some rows); (2000%Z, None); (400000%Z, None)] in
  fst (getWritingExamples_calls no_examples calls) = [rows; rows; []]
  /\ ((@None (list WritingExample) = None /\ rows = [])
      \/ exists j t,
           j <= 1 /\ calls !! j = Some (t, Some rows) /\ (2000 - t < CACHE_TTL)%Z).
Proof.
  intros rows calls. split; [vm_compute; reflexivity|].
  apply (getWritingExamples_calls_fresh calls 1 2000%Z None rows); reflexivity.
Defined.

(** *** The rewrite route *)

Section RewriteProofs.
Variable toLowerCase : jsstring -> jsstring.
Variable syllable : jsstring -> option Z.
Variable generateRewrite : nat -> option Q -> option Rewrite.
Variable evaluation : nat -> jsstring -> option ParsedResponse.
Variable request : RewriteRequest.

Local Abbreviation attempts :=
  (Routes.attempts toLowerCase generateRewrite evaluation request).
Local Abbreviation settle := (Routes.settle request).
Local Abbreviation compare_criteria := (Routes.compare_criteria request).
Local Abbreviation rewrite :=
  (Routes.rewrite toLowerCase syllable generateRewrite evaluation request).
Local Abbreviation of_attempt :=
  (RoutesSpec.of_attempt toLowerCase generateRewrite evaluation request).
Local Abbreviation is_attempt :=
  (RoutesSpec.is_attempt toLowerCase generateRewrite evaluation request).
Local Abbreviation keeps_text := (RoutesSpec.keeps_text request).
Local Abbreviation analyzeReadability :=
  (Readability.analyzeReadability toLowerCase syllable).
Local Abbreviation evaluable := (RoutesSpec.evaluable request).

Lemma char_eqb_jsstring_eqb (c : char) (s t : jsstring) :
  jsstring_eqb (c :: s) t = true \/ jsstring_eqb (c :: s) t = false.
Proof. destruct (jsstring_eqb (c :: s) t); [left | right]; reflexivity. Qed.

Lemma evaluable_true (rewriteResult : Rewrite) :
  evaluable rewriteResult = true
  <-> rewrite_suggestedText rewriteResult <> []
      /\ rewrite_suggestedText rewriteResult <> text request.
Proof.
  unfold RoutesSpec.evaluable.
  destruct (rewrite_suggestedText rewriteResult) as [|c s]; simpl.
  - split; [discriminate | intros [H _]; contradiction].
  - rewrite negb_true_iff. split.
    + intros H. split; [discriminate|]. intros Heq.
      apply WordDiffProofs.jsstring_eqb_eq in Heq. simpl in Heq. congruence.
    + intros [_ H].
      destruct (char_eqb_jsstring_eqb c s (text request)) as [E|E]; [|assumption].
      apply (WordDiffProofs.jsstring_eqb_eq (c :: s)) in E. contradiction.
Qed.

(** One turn of the loop. *)
Lemma attempts_S (remaining attempt : nat) (bestResult : option BestResult)
    (previousScore : option Q) :
  attempts (S remaining) attempt bestResult previousScore
  = match generateRewrite attempt previousScore with
    | None => None
    | Some rewriteResult =>
        match (if evaluable rewriteResult
               then evaluateText toLowerCase (rewrite_suggestedText rewriteResult)
                      (request_sectionType request)
                      (evaluation attempt (rewrite_suggestedText rewriteResult))
               else None) with
        | Some result =>
            if match originalScore request with
               | None => true
               | Some original => Qle_bool original (overallScore result)
               end
            then Some (Some (with_score rewriteResult result))
            else attempts remaining (S attempt)
                   (if match bestResult with
                       | None => true
                       | Some best =>
                           negb (Qle_bool (overallScore result)
                                   (or_zero (best_suggestedScore best)))
                       end
                    then Some (with_score rewriteResult result)
                    else bestResult)
                   (Some (overallScore result))
        | None => attempts remaining (S attempt) bestResult previousScore
        end
    end.
Proof. reflexivity. Qed.

Lemma evaluated_of_attempt (attempt : nat) (previousScore : option Q)
    (rewriteResult : Rewrite) (result : EvaluationResult) :
  1 <= attempt <= MAX_RETRIES ->
  generateRewrite attempt previousScore = Some rewriteResult ->
  (if evaluable rewriteResult
   then evaluateText toLowerCase (rewrite_suggestedText rewriteResult)
          (request_sectionType request)
          (evaluation attempt (rewrite_suggestedText rewriteResult))
   else None) = Some result ->
  of_attempt (with_score rewriteResult result).
Proof.
  intros Ha Hg He.
  destruct (evaluable rewriteResult) eqn:Ev; [|discriminate].
  apply evaluable_true in Ev as [H1 H2].
  destruct (evaluation attempt (rewrite_suggestedText rewriteResult))
    as [parsed_response|] eqn:Ep; [|discriminate].
  exists attempt, previousScore, rewriteResult, parsed_response, result.
  repeat split; try assumption; lia.
Qed.

(** What the loop leaves is the rewrite of one of the attempts. *)
Lemma attempts_of_attempt (remaining : nat) :
  forall attempt bestResult previousScore out,
    1 <= attempt -> attempt + remaining = MAX_RETRIES + 1 ->
    (forall best, bestResult = Some best -> of_attempt best) ->
    attempts remaining attempt bestResult previousScore = Some out ->
    forall best, out = Some best -> of_attempt best.
Proof.
  induction remaining as [|remaining IH];
    intros attempt bestResult previousScore out H1 Hr Hb Ha.
  - injection Ha as <-. assumption.
  - rewrite attempts_S in Ha.
    destruct (generateRewrite attempt previousScore) as [rewriteResult|] eqn:Eg;
      [|discriminate].
    destruct (if evaluable rewriteResult then _ else None) as [result|] eqn:Ee.
    + assert (of_attempt (with_score rewriteResult result)) as Hnew.
      { apply (evaluated_of_attempt attempt previousScore); try assumption. lia. }
      destruct (match originalScore request with None => true | Some _ => _ end).
      * injection Ha as <-. intros best [= <-]. assumption.
      * revert Ha. apply IH; [lia | lia |].
        destruct (match bestResult with None => true | Some _ => _ end);
          [intros best [= <-]; assumption | assumption].
    + revert Ha. apply IH; [lia | lia | assumption].
Qed.

Lemma of_attempt_score (best : BestResult) :
  of_attempt best ->
  exists score,
    best_suggestedScore best = Some score /\ (1 <= score)%Q /\ (score <= 10)%Q
    /\ best_suggestedText best <> text request.
Proof.
  intros (attempt & previousScore & rewriteResult & parsed_response & result
          & _ & _ & _ & Ht & _ & Hr & ->).
  exists (overallScore result). split; [reflexivity|].
  injection Hr as <-.
  destruct (scores_well_scored toLowerCase (request_sectionType request)
              parsed_response) as [Hw _].
  destruct (evaluation_of_range (request_sectionType request) _ parsed_response
              (if_any (support_arguments parsed_response))
              (if_any (validatedKeyPoints toLowerCase
                         (rewrite_suggestedText rewriteResult) parsed_response)) Hw)
    as [H1 H2].
  split; [assumption|]. split; assumption.
Qed.

Lemma compare_criteria_kept (steps : list ThinkingStep) :
  compare_criteria (kept request steps) = None.
Proof. unfold Routes.compare_criteria. destruct (evaluationFeedback request); reflexivity. Qed.

(** The result of the route, from what the loop leaves. *)
Lemma rewrite_result (result : RewriteResult) :
  rewrite = Some result ->
  exists out,
    attempts MAX_RETRIES 1 None None = Some out
    /\ (forall best, out = Some best -> of_attempt best)
    /\ noImprovementFound result = fst (settle out)
    /\ suggestedText result = best_suggestedText (snd (settle out))
    /\ changes result = best_changes (snd (settle out))
    /\ constraintWarning result = best_constraintWarning (snd (settle out))
    /\ thinkingSteps result = best_thinkingSteps (snd (settle out))
    /\ suggestedScore result = best_suggestedScore (snd (settle out))
    /\ criteriaComparison result = compare_criteria (snd (settle out))
    /\ diffSegments result
       = WordDiff.computeWordDiff (text request) (suggestedText result)
    /\ originalReadability result = analyzeReadability (text request)
    /\ suggestedReadability result
       = if negb (jsstring_eqb (suggestedText result) (text request))
         then analyzeReadability (suggestedText result)
         else analyzeReadability (text request).
Proof.
  unfold Routes.rewrite.
  destruct (attempts MAX_RETRIES 1 None None) as [out|] eqn:Ea; [|discriminate].
  intros H. exists out. split; [reflexivity|]. split.
  - apply (attempts_of_attempt MAX_RETRIES 1 None None out); [lia | lia | | assumption].
    discriminate.
  - destruct (settle out) as [flag best]. injection H as <-. simpl.
    repeat split; reflexivity.
Qed.

(** What the two checks after the loop leave. *)
Lemma settle_cases (out : option BestResult) :
  (forall best, out = Some best -> of_attempt best) ->
  (fst (settle out) = true
   /\ exists steps, snd (settle out) = kept request steps)
  \/ (fst (settle out) = false
      /\ exists best score,
           out = Some best /\ snd (settle out) = best
           /\ best_suggestedScore best = Some score
           /\ forall original,
                originalScore request = Some original -> (original <= score)%Q).
Proof.
  intros Hb. unfold Routes.settle.
  destruct out as [best|]; [|left; split; [reflexivity | eexists; reflexivity]].
  destruct (of_attempt_score best (Hb best eq_refl)) as (score & Hs & _).
  rewrite Hs.
  destruct (originalScore request) as [original|] eqn:Eo.
  - destruct (Qle_bool original score) eqn:Ele; simpl.
    + right. split; [reflexivity|]. exists best, score.
      repeat split; try assumption.
      intros o [= <-]. apply Qle_bool_iff. assumption.
    + left. split; [reflexivity | eexists; reflexivity].
  - right. split; [reflexivity|]. exists best, score.
    repeat split; try assumption. discriminate.
Qed.


(** X17.  The parts of a result belong together: the segments of its
    diff spell the text of the request on one side and the suggested text
    on the other, and its two reports are those of these two texts.  When
    no improvement was found, the diff is one segment of type [equal] with
    the text of the request, and the two reports are the same. *)
Theorem rewrite_consistent (result : RewriteResult) :
  rewrite = Some result ->
  WordDiffSpec.original_of (diffSegments result) = text request
  /\ WordDiffSpec.suggested_of (diffSegments result) = suggestedText result
  /\ originalReadability result = analyzeReadability (text request)
  /\ suggestedReadability result = analyzeReadability (suggestedText result)
  /\ (noImprovementFound result = true ->
      diffSegments result
      = [{| WordDiff.type := WordDiff.equal; WordDiff.text := text request |}]
      /\ suggestedReadability result = originalReadability result).
Proof.
  intros H.
  destruct (rewrite_result result H)
    as (out & _ & Hb & Hn & Ht & _ & _ & _ & _ & _ & Hd & Ho & Hs).
  destruct (WordDiffMore.computeWordDiff_sides (text request) (suggestedText result))
    as [E1 E2].
  rewrite Hd, Ho, Hs. split; [assumption|]. split; [assumption|].
  split; [reflexivity|]. split.
  - destruct (jsstring_eqb (suggestedText result) (text request)) eqn:E; [|reflexivity].
    apply WordDiffProofs.jsstring_eqb_eq in E. rewrite E. reflexivity.
  - intros Hf. rewrite Hn in Hf.
    destruct (settle_cases out Hb) as [[_ (steps & Hk)]|[Hf' _]]; [|congruence].
    rewrite Hk in Ht. simpl in Ht. rewrite Ht.
    rewrite WordDiffMore.computeWordDiff_refl, WordDiffProofs.jsstring_eqb_refl.
    split; reflexivity.
Qed.


Lemma attempts_answer (remaining : nat) :
  forall attempt bestResult previousScore,
    (forall attempt previousScore, generateRewrite attempt previousScore <> None) ->
    exists out, attempts remaining attempt bestResult previousScore = Some out.
Proof.
  induction remaining as [|remaining IH]; intros attempt bestResult previousScore Hg.
  - eexists. reflexivity.
  - rewrite attempts_S.
    destruct (generateRewrite attempt previousScore) as [rewriteResult|] eqn:Eg;
      [|exfalso; apply (Hg _ _ Eg)].
    destruct (if evaluable rewriteResult then _ else None) as [result|]; [|apply IH; assumption].
    destruct (match originalScore request with None => true | Some _ => _ end);
      [eexists; reflexivity | apply IH; assumption].
Qed.

Lemma attempts_throws (remaining : nat) :
  forall attempt bestResult previousScore,
    attempts remaining attempt bestResult previousScore = None ->
    exists attempt' previousScore',
      attempt <= attempt' < attempt + remaining
      /\ generateRewrite attempt' previousScore' = None.
Proof.
  induction remaining as [|remaining IH]; intros attempt bestResult previousScore Ha;
    [discriminate|].
  rewrite attempts_S in Ha.
  destruct (generateRewrite attempt previousScore) as [rewriteResult|] eqn:Eg;
    [|exists attempt, previousScore; split; [lia | assumption]].
  destruct (if evaluable rewriteResult then _ else None) as [result|].
  - destruct (match originalScore request with None => true | Some _ => _ end);
      [discriminate|].
    apply IH in Ha as (a & p & Hr & Hn). exists a, p. split; [lia | assumption].
  - apply IH in Ha as (a & p & Hr & Hn). exists a, p. split; [lia | assumption].
Qed.

Lemma attempts_no_evaluation (remaining : nat) :
  forall attempt bestResult previousScore out,
    (forall attempt suggested, evaluation attempt suggested = None) ->
    attempts remaining attempt bestResult previousScore = Some out ->
    out = bestResult.
Proof.
  induction remaining as [|remaining IH];
    intros attempt bestResult previousScore out He Ha.
  - injection Ha as <-. reflexivity.
  - rewrite attempts_S in Ha.
    destruct (generateRewrite attempt previousScore) as [rewriteResult|];
      [|discriminate].
    rewrite He in Ha. simpl in Ha.
    destruct (evaluable rewriteResult); apply (IH _ _ _ _ He Ha).
Qed.


End RewriteProofs.


Lemma rewrite_consistent_witness :
  exists sent,
    Routes.rewrite ReadabilitySpec.toLowerCase_ascii ReadabilitySpec.syllable_throws
      (rewrites_to (str "We measured it twice.")) scores_five
      (request_of "It was measured by us two times." (Some 4%Q)) = Some sent
    /\ WordDiffSpec.suggested_of (diffSegments sent) = str "We measured it twice.".
Proof.
  eexists. split; [vm_compute; reflexivity|].
  apply (rewrite_consistent ReadabilitySpec.toLowerCase_ascii
           ReadabilitySpec.syllable_throws
           (rewrites_to (str "We measured it twice.")) scores_five
           (request_of "It was measured by us two times." (Some 4%Q)) _ eq_refl).
Defined.



(** *** The map of a publication *)

Lemma map_get_set (sectionMap : list (jsstring * SectionData)) (key : jsstring)
    (value : SectionData) (key' : jsstring) :
  map_get (map_set sectionMap key value) key'
  = if jsstring_eqb key key' then Some value else map_get sectionMap key'.
Proof.
  unfold map_get.
  induction sectionMap as [|[k d] m IH]; simpl.
  - destruct (jsstring_eqb key key'); reflexivity.
  - destruct (jsstring_eqb k key) eqn:E; simpl.
    + apply WordDiffProofs.jsstring_eqb_eq in E. subst k.
      destruct (jsstring_eqb key key'); reflexivity.
    + destruct (jsstring_eqb k key') eqn:E'; [|assumption]. simpl.
      apply WordDiffProofs.jsstring_eqb_eq in E'. subst k.
      destruct (jsstring_eqb key key') eqn:E2; [|reflexivity].
      apply WordDiffProofs.jsstring_eqb_eq in E2. subst key'.
      rewrite WordDiffProofs.jsstring_eqb_refl in E. discriminate.
Qed.

Lemma map_set_keys (sectionMap : list (jsstring * SectionData)) (key : jsstring)
    (value : SectionData) :
  List.map fst (map_set sectionMap key value)
  = if existsb (fun k => jsstring_eqb k key) (List.map fst sectionMap)
    then List.map fst sectionMap
    else List.map fst sectionMap ++ [key].
Proof.
  induction sectionMap as [|[k d] m IH]; [reflexivity|]. simpl.
  destruct (jsstring_eqb k key) eqn:E; simpl.
  - apply WordDiffProofs.jsstring_eqb_eq in E. subst k. reflexivity.
  - rewrite IH. destruct (existsb _ (List.map fst m)); reflexivity.
Qed.

Lemma map_get_keys (sectionMap : list (jsstring * SectionData)) (key : jsstring) :
  existsb (fun k => jsstring_eqb k key) (List.map fst sectionMap)
  = match map_get sectionMap key with Some _ => true | None => false end.
Proof.
  unfold map_get. induction sectionMap as [|[k d] m IH]; [reflexivity|]. simpl.
  destruct (jsstring_eqb k key); [reflexivity | assumption].
Qed.

Lemma map_get_In (sectionMap : list (jsstring * SectionData)) (key : jsstring)
    (data : SectionData) :
  List.NoDup (List.map fst sectionMap) -> In (key, data) sectionMap ->
  map_get sectionMap key = Some data.
Proof.
  unfold map_get. induction sectionMap as [|[k d] m IH]; intros Hn Hin; [contradiction|].
  simpl in Hn. apply List.NoDup_cons_iff in Hn as [Hk Hn]. simpl.
  destruct Hin as [[= -> ->]|Hin].
  - rewrite WordDiffProofs.jsstring_eqb_refl. reflexivity.
  - destruct (jsstring_eqb k key) eqn:E; [|apply IH; assumption].
    apply WordDiffProofs.jsstring_eqb_eq in E. subst k. exfalso. apply Hk.
    apply (List.in_map fst) in Hin. assumption.
Qed.

Lemma map_set_counted (sectionMap : list (jsstring * SectionData)) (key : jsstring)
    (value : SectionData) :
  counted (map_set sectionMap key value)
  + match map_get sectionMap key with Some d => count d | None => 0 end
  = counted sectionMap + count value.
Proof.
  unfold map_get, counted.
  induction sectionMap as [|[k d] m IH]; simpl; [lia|].
  destruct (jsstring_eqb k key); simpl; lia.
Qed.

Lemma map_set_held (sectionMap : list (jsstring * SectionData)) (key : jsstring)
    (value : SectionData) :
  (held (map_set sectionMap key value)
   + match map_get sectionMap key with Some d => total (scores d) | None => 0 end
   == held sectionMap + total (scores value))%Q.
Proof.
  unfold map_get, held.
  induction sectionMap as [|[k d] m IH]; simpl; [ring|].
  destruct (jsstring_eqb k key); simpl; [ring|].
  rewrite <- Qplus_assoc, IH. ring.
Qed.

Lemma total_snoc (numbers : list Q) (x : Q) :
  total (numbers ++ [x]) = (total numbers + x)%Q.
Proof. unfold total. rewrite fold_left_app. reflexivity. Qed.

Lemma of_type_snoc (key : jsstring) (evaluations : list EvaluationRecord)
    (e : EvaluationRecord) :
  of_type key (evaluations ++ [e])
  = of_type key evaluations
    ++ (if jsstring_eqb (record_sectionType e) key then [e] else []).
Proof. unfold of_type. rewrite List.filter_app. reflexivity. Qed.

Lemma grouped_add (done : list EvaluationRecord)
    (sectionMap : list (jsstring * SectionData)) (e : EvaluationRecord) :
  grouped done sectionMap -> grouped (done ++ [e]) (add_evaluation sectionMap e).
Proof.
  intros (Hn & Hg & Hc & Hh). unfold add_evaluation.
  set (key := record_sectionType e).
  set (existing := match map_get sectionMap key with
                   | Some existing => existing
                   | None => _
                   end).
  set (value := Build_SectionData _ _ _ _).
  assert (scores existing = List.map record_overallScore (of_type key done)
          /\ count existing = length (of_type key done)) as [Hs Hk].
  { pose proof (Hg key) as H. unfold existing.
    destruct (map_get sectionMap key); [tauto|]. rewrite H. split; reflexivity. }
  split; [|split; [|split]].
  - rewrite map_set_keys, map_get_keys. pose proof (Hg key) as H.
    destruct (map_get sectionMap key) eqn:E; [assumption|].
    apply List.NoDup_app; [assumption | repeat constructor; intros [] |].
    intros k Hin [Hkey|[]].
    assert (existsb (fun k' => jsstring_eqb k' key) (List.map fst sectionMap) = true)
      as Hex.
    { apply existsb_exists. exists k. split; [assumption|].
      apply WordDiffProofs.jsstring_eqb_eq. symmetry. exact Hkey. }
    rewrite map_get_keys, E in Hex. discriminate.
  - intros key'. rewrite map_get_set, of_type_snoc. fold key.
    destruct (jsstring_eqb key key') eqn:E.
    + apply WordDiffProofs.jsstring_eqb_eq in E. subst key'.
      split; [intros H; apply app_eq_nil in H as [_ H]; discriminate|].
      unfold value. simpl. rewrite Hs, Hk, List.map_app, length_app. simpl.
      split; [reflexivity | lia].
    + pose proof (Hg key') as H. rewrite app_nil_r. exact H.
  - rewrite length_app. simpl.
    pose proof (map_set_counted sectionMap key value) as H.
    assert (match map_get sectionMap key with Some d => count d | None => 0 end
            = count existing) as E.
    { unfold existing. destruct (map_get sectionMap key); reflexivity. }
    rewrite E in H. unfold value at 2 in H. simpl in H. lia.
  - rewrite fold_left_app. simpl. rewrite <- Hh.
    pose proof (map_set_held sectionMap key value) as H.
    assert (match map_get sectionMap key with Some d => total (scores d) | None => 0%Q end
            = total (scores existing)) as E.
    { unfold existing. destruct (map_get sectionMap key); reflexivity. }
    rewrite E in H. unfold value at 2 in H. simpl in H. rewrite total_snoc in H.
    lra.
Qed.

Lemma grouped_fold (evaluations : list EvaluationRecord) :
  forall done sectionMap,
    grouped done sectionMap ->
    grouped (done ++ evaluations) (fold_left add_evaluation evaluations sectionMap).
Proof.
  induction evaluations as [|e evaluations IH]; intros done sectionMap H.
  - rewrite app_nil_r. assumption.
  - simpl. change (e :: evaluations) with ([e] ++ evaluations). rewrite app_assoc.
    apply IH. apply grouped_add. assumption.
Qed.

Lemma grouped_all (evaluations : list EvaluationRecord) :
  grouped evaluations (fold_left add_evaluation evaluations []).
Proof.
  apply (grouped_fold evaluations [] []).
  split; [constructor|]. split; [reflexivity|]. split; reflexivity.
Qed.

Lemma sections_types (evaluations : list EvaluationRecord) (now : Z) :
  List.map node_sectionType (sections (publicationMap evaluations now))
  = List.map fst (fold_left add_evaluation evaluations []).
Proof. unfold publicationMap. simpl. rewrite List.map_map. reflexivity. Qed.

(** X20.  The map of a publication has one section for each section
    type among the evaluations and no other; a section counts the
    evaluations of its type, and its score is the mean of their overall
    scores. *)
Theorem publicationMap_sections (evaluations : list EvaluationRecord) (now : Z) :
  let answer := publicationMap evaluations now in
  List.NoDup (List.map node_sectionType (sections answer))
  /\ (forall e, In e evaluations ->
        In (record_sectionType e) (List.map node_sectionType (sections answer)))
  /\ Forall (fun node =>
               let own := of_type (node_sectionType node) evaluations in
               own <> []
               /\ node_id node = node_sectionType node
               /\ node_count node = length own
               /\ node_score node
                  = (total (List.map record_overallScore own)
                     / Readability.of_nat (length own))%Q)
       (sections answer).
Proof.
  intros answer. destruct (grouped_all evaluations) as (Hn & Hg & _).
  split; [|split].
  - unfold answer. rewrite sections_types. assumption.
  - intros e He. unfold answer. rewrite sections_types.
    pose proof (Hg (record_sectionType e)) as H.
    destruct (map_get _ (record_sectionType e)) as [data|] eqn:E.
    + unfold map_get in E.
      destruct (List.find _ _) as [[k d]|] eqn:Ef; [|discriminate].
      apply List.find_some in Ef as [Hin Hk]. simpl in Hk.
      apply WordDiffProofs.jsstring_eqb_eq in Hk. subst k.
      apply (List.in_map fst) in Hin. assumption.
    + exfalso. assert (In e (of_type (record_sectionType e) evaluations)) as Hin.
      { apply List.filter_In. split; [assumption|].
        apply WordDiffProofs.jsstring_eqb_refl. }
      rewrite H in Hin. contradiction.
  - unfold answer, publicationMap. simpl. apply Forall_map.
    apply List.Forall_forall. intros [key data] Hin. simpl.
    pose proof (Hg key) as H. rewrite (map_get_In _ key data Hn Hin) in H.
    destruct H as (H1 & H2 & H3).
    split; [assumption|]. split; [reflexivity|]. split; [assumption|].
    rewrite H2, length_map. reflexivity.
Qed.

Lemma sections_counts (sectionMap : list (jsstring * SectionData)) (now : Z) :
  Forall (fun entry => count (snd entry) = length (scores (snd entry))
                       /\ 0 < count (snd entry)) sectionMap ->
  let nodes :=
    List.map
      (fun entry =>
         {| node_id := fst entry;
            node_sectionType := fst entry;
            node_score :=
              (total (scores (snd entry))
               / Readability.of_nat (length (scores (snd entry))))%Q;
            node_count := count (snd entry);
            node_lastUpdated :=
              match lastUpdated (snd entry) with
              | Some time => time
              | None => now
              end;
            node_keyPoints := section_keyPoints (snd entry) |})
      sectionMap in
  counts nodes = counted sectionMap /\ (weighted nodes == held sectionMap)%Q.
Proof.
  induction 1 as [|[key data] m [Hc Hp] _ [IH1 IH2]]; simpl; [split; reflexivity|].
  simpl in Hc, Hp.
  split; [unfold counts in *; simpl; rewrite IH1; reflexivity|].
  unfold weighted, held in *. simpl. rewrite IH2, <- Hc.
  assert (~ (Readability.of_nat (count data) == 0)%Q) as Hz.
  { unfold Readability.of_nat. change 0%Q with (inject_Z 0).
    rewrite inject_Z_injective. lia. }
  field. assumption.
Qed.

(** X21.  The number of evaluations of the map is the sum of the counts
    of its sections, and its average score is the mean of the scores of
    the sections, each weighted by its count; the average is 0 and there
    is no section when there is no evaluation. *)
Theorem publicationMap_average (evaluations : list EvaluationRecord) (now : Z) :
  let answer := publicationMap evaluations now in
  totalEvaluations answer = length evaluations
  /\ counts (sections answer) = totalEvaluations answer
  /\ (avgScore answer * Readability.of_nat (totalEvaluations answer)
      == weighted (sections answer))%Q
  /\ avgScore (publicationMap [] now) = 0%Q
  /\ sections (publicationMap [] now) = [].
Proof.
  intros answer. destruct (grouped_all evaluations) as (Hn & Hg & Hc & Hh).
  assert (Forall (fun entry => count (snd entry) = length (scores (snd entry))
                               /\ 0 < count (snd entry))
            (fold_left add_evaluation evaluations [])) as Hall.
  { apply List.Forall_forall. intros [key data] Hin. simpl.
    pose proof (Hg key) as H. rewrite (map_get_In _ key data Hn Hin) in H.
    destruct H as (H1 & H2 & H3). rewrite H2, length_map.
    split; [assumption|]. rewrite H3. destruct (of_type key evaluations);
      [contradiction | simpl; lia]. }
  destruct (sections_counts _ now Hall) as [Hcounts Hweighted].
  split; [reflexivity|]. split; [|split; [|split; reflexivity]].
  - unfold answer, publicationMap. simpl. rewrite Hcounts. assumption.
  - unfold answer, publicationMap. simpl. rewrite Hweighted, Hh.
    destruct evaluations as [|e evaluations']; [simpl; ring|].
    set (n := length (e :: evaluations')).
    assert (~ (Readability.of_nat n == 0)%Q) as Hz.
    { unfold Readability.of_nat. change 0%Q with (inject_Z 0).
      rewrite inject_Z_injective. unfold n. simpl. lia. }
    replace (0 <? n) with true by (unfold n; reflexivity).
    field. assumption.
Qed.

Example publicationMap_example :
  let answer :=
    publicationMap
      [record_of "abstract" 8; record_of "results" 5; record_of "abstract" 6] 0%Z in
  List.map (fun node => (node_sectionType node, node_count node)) (sections answer)
  = [(str "abstract", 2); (str "results", 1)]
  /\ Forall2 Qeq (List.map node_score (sections answer)) [7; 5]%Q
  /\ (avgScore answer == 19 / 3)%Q.
Proof.
  vm_compute. split; [reflexivity|]. split; [|reflexivity].
  repeat constructor.
Qed.

(** *** The restructure route *)

Import Regex.

Example paragraphs_of_example :
  paragraphs_of (str "First." ++ [10; 32; 9; 10; 10]%N ++ str "Second."
                   ++ [10]%N ++ str "Still second." ++ [10; 10]%N)
  = [str "First.";
     str "Second." ++ [10]%N ++ str "Still second."].
Proof. vm_compute. reflexivity. Qed.

Lemma exec_blank_line_none (before : option char) (s : jsstring) :
  match s with [] => True | c :: _ => c <> 10%N end ->
  exec false blank_line before s = None.
Proof.
  intros H. unfold exec, blank_line.
  change (run false (Cat (Lit 10%N) (Cat (Star (Cls is_space)) (Lit 10%N)))
            {| prev := before; rest := s; pos := 0; caps := [] |})
    with (flat_map (run false (Cat (Star (Cls is_space)) (Lit 10%N)))
            (step (lit_eqb false 10%N)
               {| prev := before; rest := s; pos := 0; caps := [] |})).
  unfold step. simpl rest. destruct s as [|c s]; [reflexivity|].
  unfold lit_eqb. destruct (N.eqb_spec 10 c) as [E|_]; [|reflexivity].
  exfalso. apply H. symmetry. assumption.
Qed.

Lemma split_from_no_line_feed (s : jsstring) :
  forall piece before,
    no_line_feed s = true -> split_from blank_line 0 piece before s = [rev piece ++ s].
Proof.
  induction s as [|c s IH]; intros piece before H.
  - simpl. rewrite app_nil_r. reflexivity.
  - simpl in H. apply andb_true_iff in H as [Hc Hs].
    apply negb_true_iff, N.eqb_neq in Hc.
    simpl split_from. rewrite exec_blank_line_none by assumption.
    rewrite IH by assumption. simpl. rewrite <- app_assoc. reflexivity.
Qed.

Lemma split_no_line_feed (text : jsstring) :
  no_line_feed text = true -> split blank_line text = [text].
Proof.
  intros H. destruct text as [|c s].
  - unfold split. rewrite exec_blank_line_none by exact I. reflexivity.
  - unfold split. rewrite split_from_no_line_feed by assumption. reflexivity.
Qed.

Section RestructureProofs.
Variable toLowerCase : jsstring -> jsstring.
Variable analysis : list jsstring -> option (option RawResult).
Variable randomUUID : nat -> jsstring.

Local Abbreviation restructure :=
  (Routes.restructure toLowerCase analysis randomUUID).
Local Abbreviation validSuggestions :=
  (Routes.validSuggestions toLowerCase randomUUID).

(** X22.  A text without a line feed is one paragraph, or none when it
    is blank, and the route answers that nothing is to be restructured,
    with the coherence 10 and no suggestion, whatever the model would
    say. *)
Theorem restructure_one_paragraph (text : jsstring) :
  no_line_feed text = true ->
  paragraphs_of text = (if 0 <? length (Readability.trim text) then [text] else [])
  /\ restructure text = Some one_paragraph.
Proof.
  intros H.
  assert (paragraphs_of text
          = if 0 <? length (Readability.trim text) then [text] else []) as E.
  { unfold paragraphs_of. rewrite split_no_line_feed by assumption. reflexivity. }
  split; [assumption|].
  unfold Routes.restructure. rewrite E.
  destruct (0 <? length (Readability.trim text)); reflexivity.
Qed.

Lemma validSuggestions_quoted (text : jsstring) (raw : list RawSuggestion) :
  forall index,
    Forall (fun s =>
              let sentenceNorm :=
                toLowerCase (Readability.trim (one_space (sentence s))) in
              sentenceNorm <> []
              /\ includes (toLowerCase (one_space text)) sentenceNorm = true)
      (validSuggestions text index raw).
Proof.
  induction raw as [|s raw IH]; intros index; [constructor|].
  cbn [Routes.validSuggestions]. cbv zeta.
  destruct (truthy (option_map _ (raw_sentence s))) as [norm|] eqn:E; [|apply IH].
  destruct (includes _ norm) eqn:Ei; [|apply IH].
  constructor; [|apply IH]. cbn [sentence].
  destruct (raw_sentence s) as [quoted|]; [|discriminate]. simpl in E.
  destruct (toLowerCase (Readability.trim (one_space quoted))) as [|c rest] eqn:En;
    [discriminate|].
  injection E as <-. split; [discriminate | assumption].
Qed.

(** X23.  Whatever the model answers, every suggestion that the route
    returns quotes a sentence that, with its whitespace made single
    blanks, trimmed and in lower case, is not empty and occurs in the text,
    treated alike: a sentence that is not in the text is never to be
    moved. *)
Theorem restructure_suggestions_quoted (text : jsstring) (result : RestructureResult) :
  restructure text = Some result ->
  Forall (fun s =>
            let sentenceNorm :=
              toLowerCase (Readability.trim (one_space (sentence s))) in
            sentenceNorm <> []
            /\ includes (toLowerCase (one_space text)) sentenceNorm = true)
    (suggestions result).
Proof.
  unfold Routes.restructure.
  destruct (length (paragraphs_of text) <? 2).
  - intros [= <-]. constructor.
  - destruct (analysis (paragraphs_of text)) as [content|]; [|discriminate].
    intros [= <-]. simpl. apply validSuggestions_quoted.
Qed.

End RestructureProofs.

Lemma restructure_one_paragraph_witness :
  Routes.restructure ReadabilitySpec.toLowerCase_ascii (moves "It works.") uuid
    (str "It works. We checked it.")
  = Some one_paragraph.
Proof.
  apply (restructure_one_paragraph ReadabilitySpec.toLowerCase_ascii
           (moves "It works.") uuid (str "It works. We checked it.")).
  reflexivity.
Defined.

Lemma restructure_suggestions_quoted_witness :
  let text := str "It works." ++ [10; 10]%N ++ str "We checked it." in
  exists result,
    Routes.restructure ReadabilitySpec.toLowerCase_ascii (moves "it  WORKS. ") uuid text
    = Some result
    /\ List.map sentence (suggestions result) = [str "it  WORKS. "]
    /\ Forall (fun s =>
                 includes (ReadabilitySpec.toLowerCase_ascii (one_space text))
                   (ReadabilitySpec.toLowerCase_ascii
                      (Readability.trim (one_space (sentence s)))) = true)
         (suggestions result).
Proof.
  intros text. eexists. split; [vm_compute; reflexivity|].
  split; [reflexivity|].
  pose proof (restructure_suggestions_quoted ReadabilitySpec.toLowerCase_ascii
                (moves "it  WORKS. ") uuid text _ eq_refl) as H.
  eapply List.Forall_impl; [|exact H]. intros s [_ Hs]. exact Hs.
Defined.

End RoutesProofs.

(** * Properties of the rewrite panel *)

Module ClientProofs.
Import WordDiff WordDiffSpec WordDiffProofs Routes Client ClientSpec.

Lemma textContent_app (l1 l2 : list span) :
  textContent (l1 ++ l2) = textContent l1 ++ textContent l2.
Proof. unfold textContent. rewrite List.map_app, concat_app. reflexivity. Qed.

Lemma DiffText_cons (segment : DiffSegment) (segments : list DiffSegment)
    (showRemoved : bool) :
  DiffText (segment :: segments) showRemoved
  = DiffText [segment] showRemoved ++ DiffText segments showRemoved.
Proof. unfold DiffText. simpl. rewrite app_nil_r. reflexivity. Qed.

(** The text of the spans is one side of the segments. *)
Lemma DiffText_textContent (segments : list DiffSegment) :
  textContent (DiffText segments true) = original_of segments
  /\ textContent (DiffText segments false) = suggested_of segments.
Proof.
  induction segments as [|segment segments [IH1 IH2]]; [split; reflexivity|].
  rewrite !(DiffText_cons segment segments), !textContent_app, IH1, IH2,
    original_of_cons, suggested_of_cons.
  unfold DiffText, textContent.
  destruct segment as [[] t]; simpl; rewrite ?app_nil_r; split; reflexivity.
Qed.

Lemma DiffText_className (segments : list DiffSegment) :
  Forall (fun s => className s <> bold) (DiffText segments true)
  /\ Forall (fun s => className s <> struck) (DiffText segments false).
Proof.
  induction segments as [|segment segments [IH1 IH2]]; [split; constructor|].
  rewrite !(DiffText_cons segment segments).
  split; apply Forall_app; (split; [|assumption]);
    destruct segment as [[] t]; unfold DiffText; simpl;
    repeat constructor; discriminate.
Qed.

(** X24.  For a result of the rewrite route, the box [Original] of the
    panel shows the text of the request and the box [Suggested] the
    suggested text of the result, unit for unit; no span of the first has
    the classes of an added segment and no span of the second those of a
    removed one. *)
Theorem SuggestionPanel_boxes (toLowerCase : jsstring -> jsstring)
    (syllable : jsstring -> option Z)
    (generateRewrite : nat -> option Q -> option Rewrite)
    (evaluation : nat -> jsstring -> option ParsedResponse)
    (request : RewriteRequest) (result : RewriteResult) :
  Routes.rewrite toLowerCase syllable generateRewrite evaluation request = Some result ->
  textContent (original_box (Routes.text request) result) = Routes.text request
  /\ textContent (suggested_box result) = suggestedText result
  /\ Forall (fun s => className s <> bold) (original_box (Routes.text request) result)
  /\ Forall (fun s => className s <> struck) (suggested_box result).
Proof.
  intros H.
  destruct (RoutesProofs.rewrite_result _ _ _ _ _ _ H)
    as (_ & _ & _ & _ & _ & _ & _ & _ & _ & _ & Hd & _).
  destruct (WordDiffMore.computeWordDiff_sides (Routes.text request) (suggestedText result))
    as [E1 E2].
  unfold original_box, suggested_box.
  destruct (DiffText_textContent (diffSegments result)) as [T1 T2].
  destruct (DiffText_className (diffSegments result)) as [C1 C2].
  destruct (0 <? length (diffSegments result)).
  - rewrite T1, T2. rewrite Hd at 1 2. rewrite E1, E2. repeat split; assumption.
  - unfold textContent. simpl. rewrite !app_nil_r.
    repeat split; repeat constructor; discriminate.
Qed.

Lemma SuggestionPanel_boxes_witness :
  exists sent,
    Routes.rewrite ReadabilitySpec.toLowerCase_ascii ReadabilitySpec.syllable_throws
      (RoutesSpec.rewrites_to (str "We measured it twice.")) RoutesSpec.scores_five
      (RoutesSpec.request_of "It was measured by us two times." (Some 4%Q)) = Some sent
    /\ textContent (suggested_box sent) = str "We measured it twice.".
Proof.
  eexists. split; [vm_compute; reflexivity|].
  apply (SuggestionPanel_boxes ReadabilitySpec.toLowerCase_ascii
           ReadabilitySpec.syllable_throws
           (RoutesSpec.rewrites_to (str "We measured it twice.")) RoutesSpec.scores_five
           (RoutesSpec.request_of "It was measured by us two times." (Some 4%Q)) _ eq_refl).
Defined.

End ClientProofs.

